(** * go-migrate: the migration engine, embedded and verified

    The development follows the [migrate] package: the hasher
    ([hashFile]), the ledger helpers ([getMigrationsKnownToDb],
    [findMigrationByName], [upsertMigration]), the two directory-walk
    callbacks ([checkIfMigrationsAreAltered], [handleMigration]) and the
    orchestrator ([Migrator.Migrate]).

    The engine's collaborators are modelled as explicit state:
    - the embedded file tree ([embed.FS]) is a tree of named files and
      directories, walked as [fs.WalkDir] walks it;
    - the database is a [migrations] table keyed by name, next to an
      application schema of an arbitrary type on which the scripts act;
    - a session threads the committed database, the transaction's view,
      a count of the driver calls and a log through the engine;
    - a fault schedule says which driver call the server fails, which
      covers lost connections and the deadline of [migrationTimeout];
    - SHA-256 and the two [fmt] verbs the hasher uses are written out. *)

From Stdlib Require Import NArith ZArith List Lia Sorted Permutation OrdersEx.
From Stdlib.Strings Require Import Ascii String Byte.
From stdpp Require Import base option list strings gmap fin_maps sorting.

Import ListNotations.
Local Open Scope string_scope.
#[local] Set Warnings "-register-all".

(** ** crypto/sha256 *)

(** [sha256.New], [Write] and [Sum(nil)] of the Go standard library:
    SHA-256 (FIPS 180-4) over a byte sequence, with 32-bit words held in
    [N] and every wrap-around written out. *)
Module SHA256.

Local Open Scope N_scope.

Definition mask32 : N := 0xFFFFFFFF.

Definition add32 (x y : N) : N := N.land (x + y) mask32.

Definition not32 (x : N) : N := N.lxor x mask32.

Definition rotr (n x : N) : N :=
  N.lor (N.shiftr x n) (N.land (N.shiftl x (32 - n)) mask32).

Definition Ch (x y z : N) : N := N.lxor (N.land x y) (N.land (not32 x) z).

Definition Maj (x y z : N) : N :=
  N.lxor (N.lxor (N.land x y) (N.land x z)) (N.land y z).

Definition bsig0 (x : N) : N := N.lxor (N.lxor (rotr 2 x) (rotr 13 x)) (rotr 22 x).

Definition bsig1 (x : N) : N := N.lxor (N.lxor (rotr 6 x) (rotr 11 x)) (rotr 25 x).

Definition ssig0 (x : N) : N := N.lxor (N.lxor (rotr 7 x) (rotr 18 x)) (N.shiftr x 3).

Definition ssig1 (x : N) : N := N.lxor (N.lxor (rotr 17 x) (rotr 19 x)) (N.shiftr x 10).

(** The constants of FIPS 180-4 are given by their definition: the
    first 32 bits of the fractional part of the cube root (for the round
    constants) or of the square root (for the initial hash value) of the
    first primes. *)
Definition candidates : list N := List.map N.of_nat (List.seq 2 310).

Definition is_prime (p : N) : bool :=
  List.forallb (fun d => (p <=? d) || negb (p mod d =? 0)) candidates.

Definition primes : list N := List.filter is_prime candidates.

(** [iroot k bits x r]: the greatest number whose [k]-th power is at
    most [x], built from bit [bits - 1] down, starting from [r]. *)
Fixpoint iroot (k : N) (bits : nat) (x r : N) : N :=
  match bits with
  | O => r
  | S b =>
      let c := N.lor r (N.shiftl 1 (N.of_nat b)) in
      iroot k b x (if c ^ k <=? x then c else r)
  end.

Definition frac_root (k : N) (p : N) : N :=
  N.land (iroot k 40 (N.shiftl p (32 * k)) 0) mask32.

Definition K : list N :=
  Eval vm_compute in List.map (frac_root 3) (List.firstn 64 primes).

Definition H0 : list N :=
  Eval vm_compute in List.map (frac_root 2) (List.firstn 8 primes).

(** Big-endian encoding of [x] on [n] bytes. *)
Fixpoint be_bytes (n : nat) (x : N) : list N :=
  match n with
  | O => []
  | S n' => N.land (N.shiftr x (8 * N.of_nat n')) 0xFF :: be_bytes n' x
  end.

(** The padded message: the bytes, [0x80], zero bytes up to 56 modulo 64,
    then the bit length on eight bytes. *)
Definition pad (msg : list N) : list N :=
  let len := N.of_nat (List.length msg) in
  let zeros := N.to_nat ((119 - len mod 64) mod 64) in
  msg ++ 0x80 :: List.repeat 0 zeros ++ be_bytes 8 (8 * len).

Fixpoint words (n : nat) (bs : list N) : list N :=
  match n, bs with
  | S n', b0 :: b1 :: b2 :: b3 :: rest =>
      (N.shiftl b0 24 + N.shiftl b1 16 + N.shiftl b2 8 + b3) :: words n' rest
  | _, _ => []
  end.

(** The message schedule, newest word first: [extend n w] adds [n] words
    to a schedule that holds at least sixteen. *)
Fixpoint extend (n : nat) (w : list N) : list N :=
  match n with
  | O => w
  | S n' =>
      let x :=
        add32 (add32 (ssig1 (List.nth 1 w 0)) (List.nth 6 w 0))
              (add32 (ssig0 (List.nth 14 w 0)) (List.nth 15 w 0)) in
      extend n' (x :: w)
  end.

Definition schedule (block : list N) : list N :=
  List.rev (extend 48 (List.rev (words 16 block))).

Record regs : Type :=
  Regs { ra : N; rb : N; rc : N; rd : N; re : N; rf : N; rg : N; rh : N }.

Definition round (s : regs) (kw : N * N) : regs :=
  let t1 := add32 (add32 (add32 (rh s) (bsig1 (re s))) (Ch (re s) (rf s) (rg s)))
                  (add32 (fst kw) (snd kw)) in
  let t2 := add32 (bsig0 (ra s)) (Maj (ra s) (rb s) (rc s)) in
  Regs (add32 t1 t2) (ra s) (rb s) (rc s) (add32 (rd s) t1) (re s) (rf s) (rg s).

Definition compress (h : regs) (block : list N) : regs :=
  let s := List.fold_left round (List.combine K (schedule block)) h in
  Regs (add32 (ra h) (ra s)) (add32 (rb h) (rb s)) (add32 (rc h) (rc s))
       (add32 (rd h) (rd s)) (add32 (re h) (re s)) (add32 (rf h) (rf s))
       (add32 (rg h) (rg s)) (add32 (rh h) (rh s)).

Fixpoint blocks (n : nat) (h : regs) (bs : list N) : regs :=
  match n with
  | O => h
  | S n' => blocks n' (compress h (List.firstn 64 bs)) (List.skipn 64 bs)
  end.

Definition init : regs :=
  Regs (List.nth 0 H0 0) (List.nth 1 H0 0) (List.nth 2 H0 0) (List.nth 3 H0 0)
       (List.nth 4 H0 0) (List.nth 5 H0 0) (List.nth 6 H0 0) (List.nth 7 H0 0).

Definition digest_bytes (h : regs) : list N :=
  List.flat_map (be_bytes 4)
    [ra h; rb h; rc h; rd h; re h; rf h; rg h; rh h].

(** [Sum256]: the 32 digest bytes of a message. *)
Definition Sum (msg : list byte) : list N :=
  let p := pad (List.map Byte.to_N msg) in
  digest_bytes (blocks (Nat.div (List.length p) 64) init p).

End SHA256.

(** ** fmt *)

Module fmt.

Definition digit (n : N) : ascii := ascii_of_N (48 + n).

(** A byte in base 10, as [%v] and [%d] print an unsigned integer. *)
Definition decimal (n : N) : list ascii :=
  if (n <? 10)%N then [digit n]
  else if (n <? 100)%N then [digit (n / 10); digit (n mod 10)]
  else [digit (n / 100); digit ((n / 10) mod 10); digit (n mod 10)].

Fixpoint join_decimal (bs : list byte) : list ascii :=
  match bs with
  | [] => []
  | [b] => decimal (Byte.to_N b)
  | b :: rest => decimal (Byte.to_N b) ++ " "%char :: join_decimal rest
  end.

(** [fmt.Appendf(nil, "%v", value)] for a [[]byte] value: the elements
    in decimal, separated by spaces, between square brackets. *)
Definition Appendf_v (value : list byte) : list byte :=
  List.map byte_of_ascii ("["%char :: join_decimal value ++ ["]"%char]).

Definition hexdigit (n : N) : ascii :=
  if (n <? 10)%N then ascii_of_N (48 + n) else ascii_of_N (87 + n).

(** [fmt.Sprintf("%x", bytes)]: two lower-case hexadecimal digits a byte. *)
Fixpoint Sprintf_x (bs : list N) : string :=
  match bs with
  | [] => EmptyString
  | b :: rest => String (hexdigit (b / 16)) (String (hexdigit (b mod 16)) (Sprintf_x rest))
  end.

End fmt.

(** ** The hasher *)

(** [hashFile]: the value is rendered with [%v], the rendering is hashed,
    and the digest is printed in hexadecimal. *)
Definition hashFile (value : list byte) : string :=
  fmt.Sprintf_x (SHA256.Sum (fmt.Appendf_v value)).

(** What hashing the raw content would give: the hexadecimal SHA-256 of
    the bytes themselves. *)
Definition sha256_hex (content : list byte) : string :=
  fmt.Sprintf_x (SHA256.Sum content).

Definition bytes (s : string) : list byte := list_byte_of_string s.

(** ** embed.FS and io/fs *)

(** An embedded file tree.  [embed.FS] is read-only and holds the files
    that were bundled at build time; a directory entry is a file with its
    bytes or a directory with its entries. *)
Inductive node : Type :=
| File (name : string) (data : list byte)
| Dir (name : string) (entries : list node).

(** The embedded tree is given by the entries of its root, ["."]. *)
Abbreviation FS := (list node).

(** [fs.DirEntry.Name] and [fs.DirEntry.IsDir]. *)
Definition Name (d : node) : string :=
  match d with File name _ => name | Dir name _ => name end.

Definition IsDir (d : node) : bool :=
  match d with File _ _ => false | Dir _ _ => true end.

(** A slash-separated path, held as the list of its elements; the root
    ["."] is the empty list, as [path.Join(".", name)] is [name]. *)
Abbreviation path := (list string).

(** Go compares strings byte by byte; [name_leb a b] is [a <= b]. *)
Definition name_leb (a b : string) : bool :=
  match String_as_OT.compare a b with Gt => false | _ => true end.

(** [fs.ReadDir] returns the entries of a directory sorted by file name.
    The sort is an insertion sort on a key, so that it also applies to
    entries that already carry the walk below them. *)
Fixpoint insert_by {A : Type} (key : A -> string) (x : A) (l : list A) : list A :=
  match l with
  | [] => [x]
  | y :: l' => if name_leb (key x) (key y) then x :: l else y :: insert_by key x l'
  end.

Definition sort_by {A : Type} (key : A -> string) (l : list A) : list A :=
  List.fold_right (insert_by key) [] l.

Definition ReadDir (entries : list node) : list node := sort_by Name entries.

(** [fs.WalkDir]: the sequence of calls [fn(path, d, nil)] it makes when
    no call returns an error: the directory itself, then, for each entry
    in [ReadDir] order, the walk of that entry under
    [path.Join(path, d1.Name())].  The entries are walked first and
    sorted by name afterwards, which keeps the recursion structural;
    [walkDir_Dir] below states the equation in Go's order. *)
Fixpoint walkDir (p : path) (d : node) : list (path * node) :=
  (p, d) ::
  match d with
  | File _ _ => []
  | Dir _ entries =>
      List.concat
        (List.map snd
           (sort_by fst
              (List.map (fun d1 => (Name d1, walkDir (p ++ [Name d1]) d1)) entries)))
  end.

Definition root (fsys : FS) : node := Dir "." fsys.

(** ** Errors *)

(** An operand of [fmt.Errorf]: [Q] for a [%q] operand, [W] for a [%w]
    operand, [Nil] for a [%w] operand that is nil, which wraps nothing. *)
Inductive arg (E : Type) : Type :=
| Q (s : string)
| W (e : E)
| Nil.
Arguments Q {E} s.
Arguments W {E} e.
Arguments Nil {E}.

(** Go's [error] values as this package builds them.  The two sentinels
    are package variables compared by identity; [DriverError] is an error
    returned by database/sql, [PathError] one returned by io/fs, and
    [Errorf] is [fmt.Errorf] with its format and operands kept apart. *)
Inductive error : Type :=
| ErrMigrationFileChanged
| ErrMigrationFailed
| DriverError (e : string)
| PathError (op : string) (p : path)
| Errorf (format : string) (args : list (arg error)).

(** [embed.FS.ReadFile]: follow the path from the root. *)
Fixpoint find_entry (name : string) (entries : list node) : option node :=
  match entries with
  | [] => None
  | d :: rest => if String.eqb (Name d) name then Some d else find_entry name rest
  end.

Fixpoint ReadFile_from (entries : list node) (whole p : path) : error + list byte :=
  match p with
  | [] => inl (PathError "read" whole)
  | name :: p' =>
      match find_entry name entries with
      | None => inl (PathError "open" whole)
      | Some (File _ data) =>
          match p' with [] => inr data | _ => inl (PathError "open" whole) end
      | Some (Dir _ entries') =>
          match p' with
          | [] => inl (PathError "read" whole)
          | _ => ReadFile_from entries' whole p'
          end
      end
  end.

Definition ReadFile (fsys : FS) (p : path) : error + list byte :=
  ReadFile_from fsys p p.

(** [errors.Is(err, target)] for a target that is a sentinel or a driver
    error: [err] is the target, or one of the errors it wraps is.  An
    [Errorf] value is a fresh allocation and is never the target itself. *)
Definition same_error (err target : error) : bool :=
  match err, target with
  | ErrMigrationFileChanged, ErrMigrationFileChanged => true
  | ErrMigrationFailed, ErrMigrationFailed => true
  | DriverError a, DriverError b => String.eqb a b
  | _, _ => false
  end.

Fixpoint errors_Is (err target : error) : bool :=
  same_error err target ||
  match err with
  | Errorf _ args =>
      List.existsb
        (fun a => match a with W e => errors_Is e target | _ => false end) args
  | _ => false
  end.

(** The [%q] operands of an error and of the errors it wraps: the names
    its message quotes. *)
Fixpoint quoted (err : error) : list string :=
  match err with
  | Errorf _ args =>
      List.flat_map
        (fun a => match a with Q s => [s] | W e => quoted e | Nil => [] end) args
  | _ => []
  end.

(** ** The ledger *)

Record migrationRow : Type := {
  MigrationName : string;
  MigrationHash : string;
  IsApplied : bool
}.

(** The zero value [migrationRow{}]. *)
Definition zero_row : migrationRow :=
  {| MigrationName := EmptyString; MigrationHash := EmptyString; IsApplied := false |}.

(** The [migrations] table of [migration_table_query.sql]:
    [migration_name] is the primary key, [migration_hash] and
    [is_applied] may be NULL. *)
Abbreviation table := (gmap string (option string * option bool)).

Fixpoint findMigrationByName (migrations : list migrationRow) (name : string)
  : migrationRow * bool :=
  match migrations with
  | [] => (zero_row, false)
  | migration :: rest =>
      if String.eqb (MigrationName migration) name then (migration, true)
      else findMigrationByName rest name
  end.

(** [rows.Scan] of one row into a [migrationRow]: a NULL does not convert
    to a Go [string] or [bool]. *)
Definition Scan (r : string * (option string * option bool)) : string + migrationRow :=
  match r with
  | (name, (Some hash, Some applied)) =>
      inr {| MigrationName := name; MigrationHash := hash; IsApplied := applied |}
  | (_, (None, _)) => inl "converting NULL to string is unsupported"
  | (_, (_, None)) => inl "converting NULL to bool is unsupported"
  end.

Fixpoint scan_rows (rows : list (string * (option string * option bool)))
  : string + list migrationRow :=
  match rows with
  | [] => inr []
  | r :: rest =>
      match Scan r with
      | inl e => inl e
      | inr migration =>
          match scan_rows rest with
          | inl e => inl e
          | inr appliedMigrations => inr (migration :: appliedMigrations)
          end
      end
  end.

(** ** The database session *)

(** What one [Exec] of an artifact left in the session's log, and what
    one upsert did.  The log is there to state what a run did; the
    engine never reads it. *)
Inductive event : Type :=
| Executed (p : path) (name : string) (script : string) (failure : option string)
| Upserted (row : migrationRow).

Section Engine.

(** The application schema and the meaning of a script on it.  Scripts
    act on the application schema; the [migrations] table is written by
    the engine alone. *)
Context {U : Type}.
Variable sql : string -> U -> string + U.

(** What the server does to the [k]-th call made through the [*sql.DB]
    handle under the timeout context, whatever the statement: [Some e]
    is a failure of the connection, of permissions, or the deadline of
    [migrationTimeout] that has passed. *)
Variable faults : nat -> option string.

Record Database : Type := {
  ledger : option table;
  schema : U
}.

(** A session: the committed database, the transaction's own view of it,
    whether the transaction is finished, the number of driver calls made
    so far, and the log. *)
Record Session : Type := {
  committed : Database;
  view : Database;
  done_ : bool;
  calls : nat;
  log : list event
}.

Definition open_session (db : Database) : Session :=
  {| committed := db; view := db; done_ := false; calls := 0; log := [] |}.

Definition note (ev : event) (s : Session) : Session :=
  {| committed := committed s; view := view s; done_ := done_ s;
     calls := calls s; log := log s ++ [ev] |}.

(** One driver call: the fault schedule decides first, then the
    statement runs on the transaction's view. *)
Definition call {A : Type} (op : Database -> string + (A * Database)) (s : Session)
  : (string + A) * Session :=
  let after v :=
    {| committed := committed s; view := v; done_ := done_ s;
       calls := S (calls s); log := log s |} in
  match faults (calls s) with
  | Some e => (inl e, after (view s))
  | None =>
      match op (view s) with
      | inl e => (inl e, after (view s))
      | inr (a, v) => (inr a, after v)
      end
  end.

(** [db.Conn] and [conn.BeginTx] touch no data. *)
Definition db_Conn : Session -> (string + unit) * Session :=
  call (fun v => inr (tt, v)).

Definition conn_BeginTx : Session -> (string + unit) * Session :=
  call (fun v => inr (tt, v)).

(** [tx.Exec(migrationTableQuery)]: CREATE TABLE IF NOT EXISTS. *)
Definition tx_Exec_migrationTableQuery : Session -> (string + unit) * Session :=
  call (fun v =>
    inr (tt, {| ledger := Some (default ∅ (ledger v)); schema := schema v |})).

(** [tx.Query("SELECT * FROM migrations")].  The rows come whole: the
    query fails or every row is delivered.  ([getMigrationsKnownToDb]
    never reads [rows.Err()], so an iteration cut short by the server
    would go unnoticed; here the iteration runs to the end, and
    [getMigrationsKnownToDb_rows] below has the loop on any cursor.) *)
Definition tx_Query_migrations
  : Session -> (string + list (string * (option string * option bool))) * Session :=
  call (fun v =>
    match ledger v with
    | None => inl "relation migrations does not exist"
    | Some t => inr (map_to_list t, v)
    end).

(** [tx.Exec(string(readBytes))]: the script runs on the application
    schema. *)
Definition tx_Exec_script (script : string) : Session -> (string + unit) * Session :=
  call (fun v =>
    match sql script (schema v) with
    | inl e => inl e
    | inr u => inr (tt, {| ledger := ledger v; schema := u |})
    end).

(** [tx.Exec(query, name, hash, applied)] with the upsert query: INSERT
    ... ON CONFLICT(migration_name) DO UPDATE overwrites hash and flag.
    The widths of the columns are not checked here: the engine writes
    names of embedded files and digests of 64 characters; [fits_columns]
    below states the widths where a row is arbitrary. *)
Definition tx_Exec_upsert (name hash : string) (applied : bool)
  : Session -> (string + unit) * Session :=
  call (fun v =>
    match ledger v with
    | None => inl "relation migrations does not exist"
    | Some t =>
        inr (tt, {| ledger := Some (<[name := (Some hash, Some applied)]> t);
                    schema := schema v |})
    end).

(** [tx.Commit]: the view becomes the committed database. *)
Definition tx_Commit (s : Session) : option string * Session :=
  match faults (calls s) with
  | Some e =>
      (Some e, {| committed := committed s; view := view s; done_ := done_ s;
                  calls := S (calls s); log := log s |})
  | None =>
      (None, {| committed := view s; view := view s; done_ := true;
                calls := S (calls s); log := log s |})
  end.

(** [tx.Rollback]: drops the view, unless the transaction is finished. *)
Definition tx_Rollback (s : Session) : Session :=
  if done_ s then s
  else {| committed := committed s; view := committed s; done_ := true;
          calls := calls s; log := log s |}.

(** ** The engine *)

Definition upsertMigration (migration : migrationRow) (tx : Session)
  : option error * Session :=
  match tx_Exec_upsert (MigrationName migration) (MigrationHash migration)
          (IsApplied migration) tx with
  | (inl err, tx) => (Some (Errorf "upsert migration: %w" [W (DriverError err)]), tx)
  | (inr _, tx) => (None, note (Upserted migration) tx)
  end.

Definition getMigrationsKnownToDb (tx : Session)
  : (error + list migrationRow) * Session :=
  match tx_Query_migrations tx with
  | (inl err, tx) => (inl (Errorf "query migrations: %w" [W (DriverError err)]), tx)
  | (inr rows, tx) =>
      match scan_rows rows with
      | inl err => (inl (Errorf "scan migration row: %w" [W (DriverError err)]), tx)
      | inr appliedMigrations => (inr appliedMigrations, tx)
      end
  end.

(** [fs.WalkDirFunc]: path, entry, the error of the walk itself. *)
Definition WalkDirFunc : Type :=
  path -> node -> option error -> Session -> option error * Session.

(** The [%w] operand for an error that may be nil. *)
Definition W_opt (err : option error) : arg error :=
  match err with Some e => W e | None => Nil end.

(** The callback both walks get when reading the known migrations
    failed.  Its [err] is the callback's own parameter: it shadows the
    error of the read. *)
Definition known_failed : WalkDirFunc :=
  fun p d err tx => (Some (Errorf "get known migrations: %w" [W_opt err]), tx).

(** The callback of [checkIfMigrationsAreAltered], closed over the known
    migrations and the file tree. *)
Definition check_entry (migrations : FS) (knownMigrations : list migrationRow)
  : WalkDirFunc :=
  fun p d err tx =>
    match err with
    | Some err => (Some (Errorf "walk func errored: %w" [W err]), tx)
    | None =>
        if IsDir d then (None, tx)
        else
          let '(migration, ok) := findMigrationByName knownMigrations (Name d) in
          if negb ok then (None, tx)
          else
            match ReadFile migrations p with
            | inl err =>
                (Some (Errorf "read migration file %q: %w" [Q (Name d); W err]), tx)
            | inr readBytes =>
                let migrationHash := hashFile readBytes in
                if negb (String.eqb migrationHash (MigrationHash migration))
                then (Some (Errorf "migration %q has been altered" [Q (Name d)]), tx)
                else (None, tx)
            end
    end.

(** The known migrations are read once, when the callback is built. *)
Definition checkIfMigrationsAreAltered (tx : Session) (migrations : FS)
  : WalkDirFunc * Session :=
  match getMigrationsKnownToDb tx with
  | (inl _, tx) => (known_failed, tx)
  | (inr knownMigrations, tx) => (check_entry migrations knownMigrations, tx)
  end.

(** The callback of [handleMigration], closed over the known migrations
    and the file tree. *)
Definition handle_entry (migrations : FS) (knownMigrations : list migrationRow)
  : WalkDirFunc :=
  fun p dirEntry err tx =>
    match err with
    | Some err => (Some (Errorf "walk func errored: %w" [W err]), tx)
    | None =>
        if IsDir dirEntry then (None, tx)
        else
          let '(migration, ok) := findMigrationByName knownMigrations (Name dirEntry) in
          if ok && IsApplied migration then (None, tx)
          else
            match ReadFile migrations p with
            | inl err =>
                (Some (Errorf "read migration file %q: %w" [Q (Name dirEntry); W err]), tx)
            | inr readBytes =>
                let migrationHash := hashFile readBytes in
                let script := string_of_list_byte readBytes in
                match tx_Exec_script script tx with
                | (inl err, tx) =>
                    (Some (Errorf "execute migration %q: %w: %w"
                             [Q (Name dirEntry); W (DriverError err); W ErrMigrationFailed]),
                     note (Executed p (Name dirEntry) script (Some err)) tx)
                | (inr _, tx) =>
                    upsertMigration
                      {| MigrationName := Name dirEntry;
                         MigrationHash := migrationHash;
                         IsApplied := true |}
                      (note (Executed p (Name dirEntry) script None) tx)
                end
            end
    end.

Definition handleMigration (tx : Session) (migrations : FS)
  : WalkDirFunc * Session :=
  match getMigrationsKnownToDb tx with
  | (inl _, tx) => (known_failed, tx)
  | (inr knownMigrations, tx) => (handle_entry migrations knownMigrations, tx)
  end.

(** [fs.WalkDir(fsys, ".", fn)]: [fn] is called on the root and on every
    entry below it, in [walkDir] order, until a call returns an error.
    Neither callback returns [fs.SkipDir] or [fs.SkipAll], and reading an
    embedded directory does not fail, so [fn] always gets a nil error. *)
Fixpoint walk (fn : WalkDirFunc) (visits : list (path * node)) (tx : Session)
  : option error * Session :=
  match visits with
  | [] => (None, tx)
  | (p, d) :: rest =>
      match fn p d None tx with
      | (Some err, tx) => (Some err, tx)
      | (None, tx) => walk fn rest tx
      end
  end.

Definition WalkDir (fsys : FS) (fn : WalkDirFunc) (tx : Session)
  : option error * Session :=
  walk fn (walkDir [] (root fsys)) tx.

(** [Migrator.Migrate] from the statement after [defer tx.Rollback()]
    to the return. *)
Definition Migrate_tx (migrations : FS) (tx : Session) : option error * Session :=
  match tx_Exec_migrationTableQuery tx with
  | (inl err, tx) => (Some (Errorf "create migrations table: %w" [W (DriverError err)]), tx)
  | (inr _, tx) =>
  let '(fn, tx) := checkIfMigrationsAreAltered tx migrations in
  match WalkDir migrations fn tx with
  | (Some _, tx) => (Some ErrMigrationFileChanged, tx)
  | (None, tx) =>
  let '(fn, tx) := handleMigration tx migrations in
  match WalkDir migrations fn tx with
  | (Some err, tx) => (Some (Errorf "walk migrations: %w" [W err]), tx)
  | (None, tx) =>
  match tx_Commit tx with
  | (Some err, tx) => (Some (Errorf "commit transaction: %w" [W (DriverError err)]), tx)
  | (None, tx) => (None, tx)
  end end end end.

(** [Migrator.Migrate] on a session: connect, begin, run the rest, and
    on the way out run the deferred [tx.Rollback]. *)
Definition Migrate_session (migrations : FS) (s : Session) : option error * Session :=
  match db_Conn s with
  | (inl err, s) => (Some (Errorf "get connection: %w" [W (DriverError err)]), s)
  | (inr _, s) =>
  match conn_BeginTx s with
  | (inl err, s) => (Some (Errorf "begin transaction: %w" [W (DriverError err)]), s)
  | (inr _, tx) =>
      let '(err, tx) := Migrate_tx migrations tx in
      (err, tx_Rollback tx)
  end end.

(** [Migrate] on a database: the returned error, the database as
    committed when the call returns, and the session's log. *)
Definition Migrate (migrations : FS) (db : Database)
  : option error * Database * list event :=
  let '(err, s) := Migrate_session migrations (open_session db) in
  (err, committed s, log s).

End Engine.

Arguments Database : clear implicits.
Arguments Session : clear implicits.

(** ** Vocabulary of the statements *)

(** An embedded tree is well formed when the names in each directory are
    pairwise distinct. *)
Fixpoint distinct (names : list string) : bool :=
  match names with
  | [] => true
  | n :: rest => negb (List.existsb (String.eqb n) rest) && distinct rest
  end.

Fixpoint wf_node (d : node) : bool :=
  match d with
  | File _ _ => true
  | Dir _ entries => distinct (List.map Name entries) && List.forallb wf_node entries
  end.

Definition wf_fs (fsys : FS) : bool := wf_node (root fsys).

(** Every entry of a tree, the tree itself included, listed without
    regard to names. *)
Fixpoint nodes (d : node) : list node :=
  d :: match d with
       | File _ _ => []
       | Dir _ entries => List.flat_map nodes entries
       end.

(** The artifacts of a tree: its files, with path, name and content, in
    the order of the walk. *)
Definition artifact (v : path * node) : list (path * string * list byte) :=
  match snd v with
  | File name data => [(fst v, name, data)]
  | Dir _ _ => []
  end.

Definition artifacts (fsys : FS) : list (path * string * list byte) :=
  List.flat_map artifact (walkDir [] (root fsys)).

Definition artifact_names (fsys : FS) : list string :=
  List.map (fun a => snd (fst a)) (artifacts fsys).

(** What [Scan] makes of the row stored under a name, as
    [findMigrationByName] reports it. *)
Definition scanned (name : string) (v : option string * option bool)
  : migrationRow * bool :=
  match v with
  | (Some h, Some a) =>
      ({| MigrationName := name; MigrationHash := h; IsApplied := a |}, true)
  | _ => (zero_row, false)
  end.

(** The ledger row the engine writes for an artifact. *)
Definition applied_row (data : list byte) : option string * option bool :=
  (Some (hashFile data), Some true).

(** Whether the apply step runs an entry: a file that the known
    migrations do not list as applied. *)
Definition pending (known : list migrationRow) (d : node) : bool :=
  negb (IsDir d) &&
  negb (let '(migration, ok) := findMigrationByName known (Name d) in
        ok && IsApplied migration).

(** The table after the rows of the given files were upserted in turn. *)
Definition record (t : table) (v : path * node) : table :=
  match snd v with
  | File name data => <[name := applied_row data]> t
  | Dir _ _ => t
  end.

Definition record_all (vs : list (path * node)) (t : table) : table :=
  List.fold_left record vs t.

(** What the apply step logs for a file it runs to the end. *)
Definition events_of (v : path * node) : list event :=
  match snd v with
  | File name data =>
      [ Executed (fst v) name (string_of_list_byte data) None;
        Upserted {| MigrationName := name; MigrationHash := hashFile data;
                    IsApplied := true |} ]
  | Dir _ _ => []
  end.

(** The artifacts a log shows as run, successfully or not, in order. *)
Definition execution (ev : event) : list (path * string) :=
  match ev with
  | Executed p name _ _ => [(p, name)]
  | Upserted _ => []
  end.

Definition executions (tr : list event) : list (path * string) :=
  List.flat_map execution tr.

(** Paths compared element by element, each element as Go compares
    strings; a path precedes its extensions. *)
Fixpoint path_compare (a b : path) : comparison :=
  match a, b with
  | [], [] => Eq
  | [], _ :: _ => Lt
  | _ :: _, [] => Gt
  | x :: a', y :: b' =>
      match String_as_OT.compare x y with
      | Eq => path_compare a' b'
      | c => c
      end
  end.

Definition path_lt (a b : path) : Prop := path_compare a b = Lt.

(** The fault schedule of a server that answers every call. *)
Definition no_faults : nat -> option string := fun _ => None.

(** The fault schedule of a deadline that passes after [n] calls. *)
Definition deadline_after (n : nat) : nat -> option string :=
  fun k => if Nat.ltb k n then None else Some "context deadline exceeded".


(** ** Concrete collaborators for the examples *)

(** A server whose application schema is the list of the scripts it has
    run, and which rejects a script that starts with [INVALID]. *)
Definition demo_sql (script : string) (u : list string) : string + list string :=
  if String.prefix "INVALID" script then inl "syntax error at or near INVALID"
  else inr (List.app u [script]).

Definition empty_db : Database (list string) := {| ledger := None; schema := [] |}.

(** The two scripts of the README's layout, listed out of order. *)
Definition two_files : FS :=
  [ Dir "migrations"
      [ File "002_seed.sql" (bytes "INSERT INTO t VALUES (1);");
        File "001_init.sql" (bytes "CREATE TABLE t(id int);") ] ].

(** The ledger and the database after [two_files] was migrated into
    [empty_db]. *)
Definition migrated_ledger : table :=
  <["001_init.sql" := applied_row (bytes "CREATE TABLE t(id int);")]>
    (<["002_seed.sql" := applied_row (bytes "INSERT INTO t VALUES (1);")]> ∅).

Definition migrated_db : Database (list string) :=
  {| ledger := Some migrated_ledger;
     schema := ["CREATE TABLE t(id int);"; "INSERT INTO t VALUES (1);"] |}.

(** The same tree with the first script edited after it was applied. *)
Definition two_files_changed : FS :=
  [ Dir "migrations"
      [ File "001_init.sql" (bytes "CREATE TABLE t(id bigint);");
        File "002_seed.sql" (bytes "INSERT INTO t VALUES (1);") ] ].

(** A tree whose second script is not valid SQL. *)
Definition second_invalid : FS :=
  [ File "001_init.sql" (bytes "CREATE TABLE t(id int);");
    File "002_bad.sql" (bytes "INVALID;");
    File "003_more.sql" (bytes "CREATE TABLE u(id int);") ].

(** A tree with a file next to a directory whose name is a prefix of the
    file's. *)
Definition nested : FS :=
  [ File "a.sql" (bytes "CREATE TABLE a(id int);");
    Dir "a" [ File "b.sql" (bytes "CREATE TABLE b(id int);") ] ].

(** A ledger whose only record was written outside the engine: the first
    script, not applied, with the hash of its original content. *)
Definition unapplied_ledger : table :=
  <["001_init.sql" := (Some (hashFile (bytes "CREATE TABLE t(id int);")), Some false)]> ∅.

Definition unapplied_db : Database (list string) :=
  {| ledger := Some unapplied_ledger; schema := [] |}.

(** The names of the files among the entries of a walk. *)
Definition file_names (vs : list (path * node)) : list string :=
  List.map (fun a => snd (fst a)) (List.flat_map artifact vs).

(** The log of the first run over [two_files]. *)
Definition two_files_log : list event :=
  [ Executed ["migrations"; "001_init.sql"] "001_init.sql" "CREATE TABLE t(id int);" None;
    Upserted {| MigrationName := "001_init.sql";
                MigrationHash := hashFile (bytes "CREATE TABLE t(id int);");
                IsApplied := true |};
    Executed ["migrations"; "002_seed.sql"] "002_seed.sql" "INSERT INTO t VALUES (1);" None;
    Upserted {| MigrationName := "002_seed.sql";
                MigrationHash := hashFile (bytes "INSERT INTO t VALUES (1);");
                IsApplied := true |} ].

(** A tree with one script, and a ledger that lists it with its hash but
    not applied. *)
Definition one_file : FS := [ File "001_init.sql" (bytes "CREATE TABLE t(id int);") ].

(** A ledger that lists the first script of [two_files] as applied and
    the second, with its hash, as not applied; the session of a
    transaction on it, and the rows read from it. *)
Definition mixed_ledger : table :=
  <["001_init.sql" := applied_row (bytes "CREATE TABLE t(id int);")]>
    (<["002_seed.sql" :=
         (Some (hashFile (bytes "INSERT INTO t VALUES (1);")), Some false)]> ∅).

Definition mixed_tx : Session (list string) :=
  open_session {| ledger := Some mixed_ledger; schema := ["CREATE TABLE t(id int);"] |}.

Definition mixed_known : list migrationRow :=
  match fst (getMigrationsKnownToDb no_faults mixed_tx) with
  | inr known => known
  | inl _ => []
  end.

(** A tree in which two directories hold a file of the same name. *)
Definition same_name_twice : FS :=
  [ Dir "a" [ File "x.sql" (bytes "CREATE TABLE a(id int);") ];
    Dir "b" [ File "x.sql" (bytes "CREATE TABLE b(id int);") ] ].

(** ** Construction: [options.go] and [NewMigrator] *)

(** [time.Duration] counts nanoseconds in an [int64]; the values used
    here are far from its bounds. *)
Definition Second : Z := 1000000000.

Record options : Type := { migrationTimeout : Z }.

(** [WithMigrationTimeout]: an option is a function that updates the
    [options] it is given. *)
Definition WithMigrationTimeout (timeout : Z) : options -> options :=
  fun opts => {| migrationTimeout := timeout |}.

(** [Migrator]: the options, the database handle and the embedded
    tree. *)
Record Migrator (DB : Type) : Type := {
  m_options : options;
  m_db : DB;
  m_migrations : FS
}.
Arguments m_options {DB} m.
Arguments m_db {DB} m.
Arguments m_migrations {DB} m.

(** [NewMigrator]: the default timeout of ten seconds, then every option
    applied in the order given. *)
Definition NewMigrator {DB : Type} (db : DB) (migrations : FS)
    (opts : list (options -> options)) : Migrator DB :=
  let opt := {| migrationTimeout := 10 * Second |} in
  let opt := List.fold_left (fun opt o => o opt) opts opt in
  {| m_options := opt; m_db := db; m_migrations := migrations |}.

(** The method [Migrate] of a [Migrator].  The handle is what decides,
    for a given timeout of the context, which driver call fails; the
    method runs every call under [options.migrationTimeout]. *)
Definition Migrator_Migrate {U : Type} (sql : string -> U -> string + U)
    (m : Migrator (Z -> nat -> option string)) (db : Database U)
  : option error * Database U * list event :=
  Migrate sql (m_db m (migrationTimeout (m_options m))) (m_migrations m) db.

(** ** [migrate/migrate.go]: the package-level [Migrate] *)

(** The earlier form of the engine, a function of the handle and the
    tree.  It shares every helper with the [Migrator]; it differs in the
    error of a failed execution, which does not carry
    [ErrMigrationFailed], and in the error of the integrity walk, which
    it wraps instead of replacing. *)
Module Standalone.

Section Engine.

Context {U : Type}.
Variable sql : string -> U -> string + U.
Variable faults : nat -> option string.

Definition handle_entry (migrations : FS) (knownMigrations : list migrationRow)
  : WalkDirFunc (U := U) :=
  fun p dirEntry err tx =>
    match err with
    | Some err => (Some (Errorf "walk func errored: %w" [W err]), tx)
    | None =>
        if IsDir dirEntry then (None, tx)
        else
          let '(migration, ok) := findMigrationByName knownMigrations (Name dirEntry) in
          if ok && IsApplied migration then (None, tx)
          else
            match ReadFile migrations p with
            | inl err =>
                (Some (Errorf "read migration file %q: %w" [Q (Name dirEntry); W err]), tx)
            | inr readBytes =>
                let migrationHash := hashFile readBytes in
                let script := string_of_list_byte readBytes in
                match tx_Exec_script sql faults script tx with
                | (inl err, tx) =>
                    (Some (Errorf "execute migration %q: %w"
                             [Q (Name dirEntry); W (DriverError err)]),
                     note (Executed p (Name dirEntry) script (Some err)) tx)
                | (inr _, tx) =>
                    upsertMigration faults
                      {| MigrationName := Name dirEntry;
                         MigrationHash := migrationHash;
                         IsApplied := true |}
                      (note (Executed p (Name dirEntry) script None) tx)
                end
            end
    end.

Definition handleMigration (tx : Session U) (migrations : FS)
  : WalkDirFunc * Session U :=
  match getMigrationsKnownToDb faults tx with
  | (inl _, tx) => (known_failed, tx)
  | (inr knownMigrations, tx) => (handle_entry migrations knownMigrations, tx)
  end.

Definition Migrate_tx (migrations : FS) (tx : Session U) : option error * Session U :=
  match tx_Exec_migrationTableQuery faults tx with
  | (inl err, tx) => (Some (Errorf "create migrations table: %w" [W (DriverError err)]), tx)
  | (inr _, tx) =>
  let '(fn, tx) := checkIfMigrationsAreAltered faults tx migrations in
  match WalkDir migrations fn tx with
  | (Some err, tx) => (Some (Errorf "validate migrations: %w" [W err]), tx)
  | (None, tx) =>
  let '(fn, tx) := handleMigration tx migrations in
  match WalkDir migrations fn tx with
  | (Some err, tx) => (Some (Errorf "walk migrations: %w" [W err]), tx)
  | (None, tx) =>
  match tx_Commit faults tx with
  | (Some err, tx) => (Some (Errorf "commit transaction: %w" [W (DriverError err)]), tx)
  | (None, tx) => (None, tx)
  end end end end.

Definition Migrate_session (migrations : FS) (s : Session U) : option error * Session U :=
  match db_Conn faults s with
  | (inl err, s) => (Some (Errorf "get connection: %w" [W (DriverError err)]), s)
  | (inr _, s) =>
  match conn_BeginTx faults s with
  | (inl err, s) => (Some (Errorf "begin transaction: %w" [W (DriverError err)]), s)
  | (inr _, tx) =>
      let '(err, tx) := Migrate_tx migrations tx in
      (err, tx_Rollback tx)
  end end.

Definition Migrate (migrations : FS) (db : Database U)
  : option error * Database U * list event :=
  let '(err, s) := Migrate_session migrations (open_session db) in
  (err, committed s, log s).

End Engine.

End Standalone.


(** ** The cursor of [tx.Query] *)

(** [*sql.Rows] as [getMigrationsKnownToDb] uses it: the rows that
    [rows.Next] delivers before it returns false, and [rows.Err()], the
    error that ended the iteration early, if one did. *)
Record Rows : Type := {
  delivered : list (string * (option string * option bool));
  Err : option string
}.

(** [getMigrationsKnownToDb] from the cursor on: every delivered row is
    scanned and appended, a failed [Scan] ends the read with its error,
    and after the loop the slice is returned with a nil error.
    [rows.Err()] is not read. *)
Definition getMigrationsKnownToDb_rows (rows : Rows) : error + list migrationRow :=
  match scan_rows (delivered rows) with
  | inl err => inl (Errorf "scan migration row: %w" [W (DriverError err)])
  | inr appliedMigrations => inr appliedMigrations
  end.

(** A cursor over a table: it delivers records of the table, each at
    most once, in the order the server chooses; all of them when the
    iteration ends without an error, and possibly only some of them when
    it is cut short (the deadline of the context, a lost connection). *)
Definition cursor_of (t : table) (rows : Rows) : Prop :=
  exists rest,
    Permutation (delivered rows ++ rest) (map_to_list t) /\
    (Err rows = None -> rest = []).

(** The cursor over [migrated_ledger] that is cut short after one row. *)
Definition cut_short : Rows :=
  {| delivered := List.firstn 1 (map_to_list migrated_ledger);
     Err := Some "context deadline exceeded" |}.

(** ** The columns of [migration_table_query.sql] *)

(** A value that a [VARCHAR(width)] column accepts whatever the encoding
    of the server: at most [width] characters, all of them ASCII and
    none NUL.  The server counts characters and rejects a longer value;
    where every byte is ASCII, characters are bytes. *)
Definition fits_varchar (width : nat) (s : string) : bool :=
  Nat.leb (String.length s) width &&
  List.forallb (fun c => Nat.ltb 0 (nat_of_ascii c) && Nat.ltb (nat_of_ascii c) 128)
    (list_ascii_of_string s).

(** A row that the [migrations] table accepts: [migration_name
    VARCHAR(255)], [migration_hash VARCHAR(64)]. *)
Definition fits_columns (migration : migrationRow) : bool :=
  fits_varchar 255 (MigrationName migration) &&
  fits_varchar 64 (MigrationHash migration).

(** ** [test_data]: the repository the tests read the ledger with *)

(** [TestRepo.GetAllMigrations]: the three columns of every row, read on
    the handle itself, outside any transaction; an error of the query or
    of a [Scan] is returned as it is. *)
Definition GetAllMigrations {U : Type} (faults : nat -> option string) (db : Database U)
  : error + list migrationRow :=
  match tx_Query_migrations faults (open_session db) with
  | (inl err, _) => inl (DriverError err)
  | (inr rows, _) =>
      match scan_rows rows with
      | inl err => inl (DriverError err)
      | inr migrations => inr migrations
      end
  end.

(** ** More vocabulary *)

(** A lower-case hexadecimal digit. *)
Definition is_hex (c : ascii) : bool :=
  List.existsb (Ascii.eqb c) (list_ascii_of_string "0123456789abcdef").

(** The number a run of decimal digits stands for. *)
Definition undecimal (ds : list ascii) : N :=
  List.fold_left (fun n d => (10 * n + (N_of_ascii d - 48))%N) ds 0%N.

(** The known migrations as a successful read of a table gives them. *)
Definition known_of (t : table) : list migrationRow :=
  match scan_rows (map_to_list t) with
  | inr known => known
  | inl _ => []
  end.

(** The entries of the walk that the apply step runs, given the known
    migrations, and their scripts. *)
Definition pending_files (known : list migrationRow) (fsys : FS) : list (path * node) :=
  List.filter (fun v => pending known (snd v)) (walkDir [] (root fsys)).

Definition script_of (v : path * node) : string :=
  match snd v with
  | File _ data => string_of_list_byte data
  | Dir _ _ => EmptyString
  end.

(** Scripts run one after the other on a schema, up to the first that
    fails. *)
Fixpoint run_scripts {U : Type} (sql : string -> U -> string + U)
    (scripts : list string) (u : U) : string + U :=
  match scripts with
  | [] => inr u
  | script :: rest =>
      match sql script u with
      | inl e => inl e
      | inr u' => run_scripts sql rest u'
      end
  end.

(** An event that is a failed execution. *)
Definition failed (ev : event) : bool :=
  match ev with
  | Executed _ _ _ (Some _) => true
  | _ => false
  end.

(** The ledger of [two_files] with one more record, inserted by hand
    with its name alone: the hash is NULL, the flag the column's default. *)
Definition null_hash_ledger : table :=
  <["000_manual.sql" := (None, Some false)]> migrated_ledger.

Definition null_hash_db : Database (list string) :=
  {| ledger := Some null_hash_ledger;
     schema := ["CREATE TABLE t(id int);"; "INSERT INTO t VALUES (1);"] |}.

(** The rows read from [migrated_ledger], and the database of
    [mixed_tx]. *)
Definition migrated_known : list migrationRow := known_of migrated_ledger.

Definition mixed_db : Database (list string) :=
  {| ledger := Some mixed_ledger; schema := ["CREATE TABLE t(id int);"] |}.

(** The log of the run of [two_files] on [mixed_db]. *)
Definition mixed_log : list event :=
  [ Executed ["migrations"; "002_seed.sql"] "002_seed.sql" "INSERT INTO t VALUES (1);" None;
    Upserted {| MigrationName := "002_seed.sql";
                MigrationHash := hashFile (bytes "INSERT INTO t VALUES (1);");
                IsApplied := true |} ].
(** * Facts *)

Local Open Scope list_scope.

#[local] Arguments hashFile : simpl never.
#[local] Arguments string_of_list_byte : simpl never.

(** ** The session: what a call can change *)

Section SessionFacts.

Context {U : Type}.
Variable sql : string -> U -> string + U.
Variable faults : nat -> option string.

Lemma call_frame {A : Type} (op : Database U -> string + (A * Database U)) (s : Session U) r (s' : Session U) :
  call faults op s = (r, s') ->
  committed s' = committed s /\ done_ s' = done_ s /\ log s' = log s /\
  calls s' = S (calls s).
Proof.
  unfold call. intros H.
  destruct (faults (calls s)); [|destruct (op (view s)) as [|[]]];
    inversion H; subst; cbn; auto.
Qed.

Lemma call_failed {A : Type} (op : Database U -> string + (A * Database U)) s e s' :
  call faults op s = (inl e, s') -> view s' = view s.
Proof.
  unfold call. intros H.
  destruct (faults (calls s)); [|destruct (op (view s)) as [|[]]];
    inversion H; subst; cbn; auto.
Qed.

Lemma call_done {A : Type} (op : Database U -> string + (A * Database U)) s a s' :
  call faults op s = (inr a, s') ->
  faults (calls s) = None /\ op (view s) = inr (a, view s').
Proof.
  unfold call. intros H.
  destruct (faults (calls s)); [|destruct (op (view s)) as [|[]]];
    inversion H; subst; cbn; auto.
Qed.

Lemma upsertMigration_frame migration (tx : Session U) r (tx' : Session U) :
  upsertMigration faults migration tx = (r, tx') ->
  committed tx' = committed tx /\ done_ tx' = done_ tx.
Proof.
  unfold upsertMigration, tx_Exec_upsert. intros H.
  destruct (call _ _ tx) as [[e|[]] s1] eqn:E;
    apply call_frame in E as (? & ? & _); inversion H; subst; cbn; auto.
Qed.

Lemma getMigrationsKnownToDb_frame (tx : Session U) r (tx' : Session U) :
  getMigrationsKnownToDb faults tx = (r, tx') ->
  committed tx' = committed tx /\ done_ tx' = done_ tx /\ log tx' = log tx /\
  view tx' = view tx /\ calls tx' = S (calls tx).
Proof.
  unfold getMigrationsKnownToDb, tx_Query_migrations. intros H.
  destruct (call _ _ tx) as [[e|rows] s1] eqn:E.
  - pose proof (call_failed _ _ _ _ E). apply call_frame in E as (? & ? & ? & ?).
    inversion H; subst; auto.
  - pose proof (call_done _ _ _ _ E) as [_ Hop].
    destruct (ledger (view tx)); [|discriminate]. inversion Hop as [[Hr Hv]].
    apply call_frame in E as (? & ? & ? & ?).
    destruct (scan_rows rows); inversion H; subst; auto.
Qed.

Lemma known_failed_fails p d err (tx : Session U) :
  exists e, known_failed p d err tx = (Some e, tx).
Proof. unfold known_failed. eauto. Qed.

(** The integrity check reads and compares; it never touches the
    session. *)
Lemma check_entry_pure migrations known p d err (tx : Session U) r tx' :
  check_entry migrations known p d err tx = (r, tx') -> tx' = tx.
Proof.
  unfold check_entry. intros H.
  repeat (case_match; simplify_eq); auto.
Qed.

Lemma handle_entry_frame migrations known p d err (tx : Session U) r (tx' : Session U) :
  handle_entry sql faults migrations known p d err tx = (r, tx') ->
  committed tx' = committed tx /\ done_ tx' = done_ tx.
Proof.
  unfold handle_entry, tx_Exec_script. intros H.
  destruct err; [inversion H; subst; auto|].
  destruct (IsDir d); [inversion H; subst; auto|].
  destruct (findMigrationByName known (Name d)) as [migration ok].
  destruct (ok && IsApplied migration); [inversion H; subst; auto|].
  destruct (ReadFile migrations p); [inversion H; subst; auto|].
  destruct (call _ _ tx) as [[e|[]] s1] eqn:E; apply call_frame in E as (? & ? & _).
  - inversion H; subst; cbn; auto.
  - apply upsertMigration_frame in H as [-> ->]. cbn. auto.
Qed.

Lemma walk_frame (fn : WalkDirFunc) visits :
  (forall p d err tx r tx', fn p d err tx = (r, tx') ->
     committed tx' = committed tx /\ done_ tx' = done_ tx) ->
  forall (tx : Session U) r tx', walk fn visits tx = (r, tx') ->
    committed tx' = committed tx /\ done_ tx' = done_ tx.
Proof.
  intros Hfn. induction visits as [|[p d] rest IH]; intros tx r tx' H; cbn in H.
  - inversion H; subst; auto.
  - destruct (fn p d None tx) as [[e|] s1] eqn:E; apply Hfn in E as [? ?].
    + inversion H; subst; auto.
    + apply IH in H as [-> ->]. auto.
Qed.

Lemma known_failed_frame p d err (tx : Session U) r tx' :
  known_failed p d err tx = (r, tx') ->
  committed tx' = committed tx /\ done_ tx' = done_ tx.
Proof. unfold known_failed. intros H; inversion H; subst; auto. Qed.

Lemma check_entry_frame migrations known p d err (tx : Session U) r tx' :
  check_entry migrations known p d err tx = (r, tx') ->
  committed tx' = committed tx /\ done_ tx' = done_ tx.
Proof. intros H. apply check_entry_pure in H as ->. auto. Qed.

Lemma checkIfMigrationsAreAltered_frame (tx : Session U) migrations fn (tx' : Session U) :
  checkIfMigrationsAreAltered faults tx migrations = (fn, tx') ->
  (committed tx' = committed tx /\ done_ tx' = done_ tx) /\
  (forall p d err s r s', fn p d err s = (r, s') ->
     committed s' = committed s /\ done_ s' = done_ s).
Proof.
  unfold checkIfMigrationsAreAltered. intros H.
  destruct (getMigrationsKnownToDb faults tx) as [[e|known] s1] eqn:E;
    apply getMigrationsKnownToDb_frame in E as (? & ? & _);
    inversion H; subst; split; auto.
  - apply known_failed_frame.
  - apply check_entry_frame.
Qed.

Lemma handleMigration_frame (tx : Session U) migrations fn (tx' : Session U) :
  handleMigration sql faults tx migrations = (fn, tx') ->
  (committed tx' = committed tx /\ done_ tx' = done_ tx) /\
  (forall p d err s r s', fn p d err s = (r, s') ->
     committed s' = committed s /\ done_ s' = done_ s).
Proof.
  unfold handleMigration. intros H.
  destruct (getMigrationsKnownToDb faults tx) as [[e|known] s1] eqn:E;
    apply getMigrationsKnownToDb_frame in E as (? & ? & _);
    inversion H; subst; split; auto.
  - apply known_failed_frame.
  - apply handle_entry_frame.
Qed.

(** A transaction that ends in an error has committed nothing and is
    still open when the deferred rollback runs. *)
Lemma Migrate_tx_error migrations (tx : Session U) e (tx' : Session U) :
  Migrate_tx sql faults migrations tx = (Some e, tx') ->
  committed tx' = committed tx /\ done_ tx' = done_ tx.
Proof.
  unfold Migrate_tx, tx_Exec_migrationTableQuery, WalkDir. intros H.
  destruct (call _ _ tx) as [[e0|[]] s1] eqn:E1; apply call_frame in E1 as (? & ? & _).
  { inversion H; subst; auto. }
  destruct (checkIfMigrationsAreAltered faults s1 migrations) as [fn s2] eqn:E2.
  apply checkIfMigrationsAreAltered_frame in E2 as [[? ?] Hfn].
  destruct (walk fn _ s2) as [[e3|] s3] eqn:E3;
    apply (walk_frame _ _ Hfn) in E3 as [? ?].
  { inversion H; subst; split; congruence. }
  destruct (handleMigration sql faults s3 migrations) as [fn' s4] eqn:E4.
  apply handleMigration_frame in E4 as [[? ?] Hfn'].
  destruct (walk fn' _ s4) as [[e5|] s5] eqn:E5;
    apply (walk_frame _ _ Hfn') in E5 as [? ?].
  { inversion H; subst; split; congruence. }
  unfold tx_Commit in H. destruct (faults (calls s5)); inversion H; subst; cbn.
  split; congruence.
Qed.

Lemma tx_Rollback_committed (s : Session U) : committed (tx_Rollback s) = committed s.
Proof. unfold tx_Rollback. destruct (done_ s); reflexivity. Qed.

Lemma tx_Rollback_log (s : Session U) : log (tx_Rollback s) = log s.
Proof. unfold tx_Rollback. destruct (done_ s); reflexivity. Qed.

End SessionFacts.

(** The deferred rollback: a call of [Migrate] that returns an error
    leaves the committed database as it found it. *)
Lemma Migrate_session_error {U : Type} (sql : string -> U -> string + U)
    (faults : nat -> option string) (migrations : FS) (s s' : Session U) (e : error) :
  Migrate_session sql faults migrations s = (Some e, s') ->
  committed s' = committed s.
Proof.
  unfold Migrate_session, db_Conn, conn_BeginTx. intros H.
  destruct (call faults _ s) as [[e0|[]] s1] eqn:E1;
    apply call_frame in E1 as (Hc1 & _).
  { inversion H; subst. exact Hc1. }
  destruct (call faults _ s1) as [[e1|[]] s2] eqn:E2;
    apply call_frame in E2 as (Hc2 & _).
  { inversion H; subst. congruence. }
  destruct (Migrate_tx sql faults migrations s2) as [err s3] eqn:E3.
  inversion H; subst. apply Migrate_tx_error in E3 as [Hc3 _].
  rewrite tx_Rollback_committed. congruence.
Qed.

(** C3: every run of [Migrate] that returns an error, whatever its cause
    (no connection, no transaction, the table query, the integrity
    check, a script, the upsert, the commit), leaves the database, and so
    the ledger, exactly as it was before the run. *)
Theorem Migrate_error_leaves_database {U : Type} (sql : string -> U -> string + U)
    (faults : nat -> option string) (migrations : FS) (db db' : Database U)
    (e : error) (tr : list event) :
  Migrate sql faults migrations db = (Some e, db', tr) ->
  db' = db /\ ledger db' = ledger db.
Proof.
  unfold Migrate. intros H.
  destruct (Migrate_session sql faults migrations (open_session db)) as [err s] eqn:E.
  inversion H; subst err db' tr.
  apply Migrate_session_error in E. cbn [open_session committed] in E.
  rewrite E. split; reflexivity.
Qed.

Lemma Migrate_error_leaves_database_witness :
  Migrate demo_sql no_faults second_invalid empty_db
  = (Some (Errorf "walk migrations: %w"
             [W (Errorf "execute migration %q: %w: %w"
                   [Q "002_bad.sql"; W (DriverError "syntax error at or near INVALID");
                    W ErrMigrationFailed])]),
     empty_db,
     [Executed ["001_init.sql"] "001_init.sql" "CREATE TABLE t(id int);" None;
      Upserted {| MigrationName := "001_init.sql";
                  MigrationHash := hashFile (bytes "CREATE TABLE t(id int);");
                  IsApplied := true |};
      Executed ["002_bad.sql"] "002_bad.sql" "INVALID;"
        (Some "syntax error at or near INVALID")])
  /\ ledger empty_db = ledger empty_db.
Proof.
  assert (H : Migrate demo_sql no_faults second_invalid empty_db
    = (Some (Errorf "walk migrations: %w"
             [W (Errorf "execute migration %q: %w: %w"
                   [Q "002_bad.sql"; W (DriverError "syntax error at or near INVALID");
                    W ErrMigrationFailed])]),
     empty_db,
     [Executed ["001_init.sql"] "001_init.sql" "CREATE TABLE t(id int);" None;
      Upserted {| MigrationName := "001_init.sql";
                  MigrationHash := hashFile (bytes "CREATE TABLE t(id int);");
                  IsApplied := true |};
      Executed ["002_bad.sql"] "002_bad.sql" "INVALID;"
        (Some "syntax error at or near INVALID")])) by (vm_compute; reflexivity).
  split; [exact H|].
  exact (proj2 (Migrate_error_leaves_database demo_sql no_faults second_invalid
                  empty_db _ _ _ H)).
Defined.

(** ** The file tree *)

Lemma node_induction (P : node -> Prop) :
  (forall name data, P (File name data)) ->
  (forall name entries, Forall P entries -> P (Dir name entries)) ->
  forall d, P d.
Proof.
  intros HF HD. fix IH 1. intros [name data|name entries].
  - apply HF.
  - apply HD. induction entries as [|d entries IHes]; constructor.
    + apply IH.
    + exact IHes.
Qed.

Lemma insert_by_Permutation {A : Type} (key : A -> string) x l :
  Permutation (insert_by key x l) (x :: l).
Proof.
  induction l as [|y l IH]; cbn; [reflexivity|].
  destruct (name_leb (key x) (key y)); [reflexivity|].
  rewrite IH. apply perm_swap.
Qed.

Lemma sort_by_Permutation {A : Type} (key : A -> string) (l : list A) :
  Permutation (sort_by key l) l.
Proof.
  induction l as [|x l IH]; cbn; [reflexivity|].
  rewrite insert_by_Permutation. now constructor.
Qed.

Lemma insert_by_map {A B : Type} (key : A -> string) (key' : B -> string)
    (g : A -> B) x l :
  (forall a, key' (g a) = key a) ->
  insert_by key' (g x) (List.map g l) = List.map g (insert_by key x l).
Proof.
  intros Hk. induction l as [|y l IH]; cbn; [reflexivity|].
  rewrite !Hk. destruct (name_leb (key x) (key y)); cbn; [reflexivity|].
  now rewrite IH.
Qed.

Lemma sort_by_map {A B : Type} (key : A -> string) (key' : B -> string)
    (g : A -> B) l :
  (forall a, key' (g a) = key a) ->
  sort_by key' (List.map g l) = List.map g (sort_by key l).
Proof.
  intros Hk. induction l as [|x l IH]; cbn; [reflexivity|].
  unfold sort_by in IH. rewrite IH. now apply insert_by_map.
Qed.

(** The walk as Go's [walkDir] runs it: the directory, then each entry
    of [ReadDir] in turn, under the joined path. *)
Lemma walkDir_Dir p name entries :
  walkDir p (Dir name entries)
  = (p, Dir name entries)
    :: List.flat_map (fun d1 => walkDir (p ++ [Name d1]) d1) (ReadDir entries).
Proof.
  cbn [walkDir]. f_equal. unfold ReadDir.
  rewrite (sort_by_map Name fst (fun d1 => (Name d1, walkDir (p ++ [Name d1]) d1)))
    by reflexivity.
  rewrite List.map_map. cbn. now rewrite List.flat_map_concat_map.
Qed.

Lemma walkDir_File p name data : walkDir p (File name data) = [(p, File name data)].
Proof. reflexivity. Qed.

Lemma In_ReadDir d entries : In d (ReadDir entries) <-> In d entries.
Proof.
  unfold ReadDir. split; apply Permutation_in;
    [|symmetry]; apply sort_by_Permutation.
Qed.

Lemma distinct_NoDup names : distinct names = true <-> List.NoDup names.
Proof.
  induction names as [|n rest IH]; cbn.
  - split; [constructor|reflexivity].
  - rewrite andb_true_iff, negb_true_iff, IH. split.
    + intros [Hn Hrest]. constructor; [|assumption].
      intros Hin. assert (List.existsb (String.eqb n) rest = true); [|congruence].
      apply List.existsb_exists. exists n. split; [assumption|apply String.eqb_refl].
    + intros Hnd. inversion Hnd as [|? ? Hn Hrest]; subst. split; [|assumption].
      destruct (List.existsb (String.eqb n) rest) eqn:E; [|reflexivity].
      apply List.existsb_exists in E as (x & Hx & Heq).
      apply String.eqb_eq in Heq. subst. contradiction.
Qed.

Lemma find_entry_In d entries :
  List.NoDup (List.map Name entries) -> In d entries ->
  find_entry (Name d) entries = Some d.
Proof.
  induction entries as [|x rest IH]; cbn; [contradiction|].
  intros Hnd [->|Hin]; inversion Hnd as [|? ? Hx Hrest]; subst.
  - now rewrite String.eqb_refl.
  - destruct (String.eqb_spec (Name x) (Name d)) as [Heq|_]; [|now apply IH].
    exfalso. apply Hx. rewrite Heq. now apply List.in_map.
Qed.

(** Every path of a walk extends the path the walk started from. *)
Lemma walkDir_prefix d : forall p q x,
  In (q, x) (walkDir p d) -> exists r, q = p ++ r.
Proof.
  induction d as [name data|name entries IH] using node_induction; intros p q x.
  - cbn. intros [[= <- <-]|[]]. exists []. now rewrite List.app_nil_r.
  - rewrite walkDir_Dir. intros [[= <- <-]|Hin].
    + exists []. now rewrite List.app_nil_r.
    + apply List.in_flat_map in Hin as (d1 & Hd1 & Hin).
      apply (proj1 (In_ReadDir _ _)) in Hd1. rewrite List.Forall_forall in IH.
      destruct (IH d1 Hd1 _ _ _ Hin) as [r ->].
      exists (Name d1 :: r). now rewrite <- List.app_assoc.
Qed.

(** Reading a file at the path the walk reports gives that file. *)
Lemma ReadFile_from_walk whole d : wf_node d = true ->
  forall p q name data, In (q, File name data) (walkDir p d) ->
  exists r, q = p ++ r /\
    match d with
    | File _ _ => r = [] /\ d = File name data
    | Dir _ entries => r <> [] /\ ReadFile_from entries whole r = inr data
    end.
Proof.
  induction d as [n0 data0|n0 entries IH] using node_induction;
    intros Hwf p q name data.
  - cbn. intros [[= <- <- <-]|[]]. exists []. now rewrite List.app_nil_r.
  - rewrite walkDir_Dir. intros [[=]|Hin].
    cbn in Hwf. apply andb_true_iff in Hwf as [Hnd Hall].
    apply distinct_NoDup in Hnd. rewrite List.forallb_forall in Hall.
    apply List.in_flat_map in Hin as (d1 & Hd1 & Hin).
    apply (proj1 (In_ReadDir _ _)) in Hd1. rewrite List.Forall_forall in IH.
    destruct (IH d1 Hd1 (Hall d1 Hd1) _ _ _ _ Hin) as (r & -> & Hr).
    exists (Name d1 :: r). split; [now rewrite <- List.app_assoc|].
    split; [discriminate|]. cbn [ReadFile_from].
    rewrite (find_entry_In d1 entries Hnd Hd1).
    destruct d1 as [n1 data1|n1 entries1].
    + destruct Hr as [-> [= <- <-]]. reflexivity.
    + destruct Hr as [Hne Hr]. destruct r; [contradiction|exact Hr].
Qed.

Lemma ReadFile_walk fsys p name data :
  wf_fs fsys = true ->
  In (p, File name data) (walkDir [] (root fsys)) ->
  ReadFile fsys p = inr data.
Proof.
  intros Hwf Hin. unfold ReadFile.
  destruct (ReadFile_from_walk p (root fsys) Hwf [] p name data Hin)
    as (r & Heq & _ & Hr).
  cbn in Heq. now subst.
Qed.

Lemma Permutation_flat_map_pointwise {A B : Type} (f g : A -> list B) (l : list A) :
  (forall x, In x l -> Permutation (f x) (g x)) ->
  Permutation (List.flat_map f l) (List.flat_map g l).
Proof.
  induction l as [|x l IH]; intros H; cbn; [reflexivity|].
  apply Permutation_app; [apply H; now left|]. apply IH. intros y Hy. apply H. now right.
Qed.

(** The walk visits every entry of the tree once. *)
Lemma walkDir_nodes d : forall p, Permutation (List.map snd (walkDir p d)) (nodes d).
Proof.
  induction d as [name data|name entries IH] using node_induction; intros p.
  - reflexivity.
  - rewrite walkDir_Dir. cbn [List.map snd nodes]. constructor.
    rewrite List.flat_map_concat_map, List.concat_map, List.map_map,
      <- List.flat_map_concat_map.
    rewrite (Permutation_flat_map _ (sort_by_Permutation Name entries)).
    apply Permutation_flat_map_pointwise. rewrite List.Forall_forall in IH.
    intros d1 Hd1. apply IH, Hd1.
Qed.

Lemma In_artifacts fsys p name data :
  In (p, name, data) (artifacts fsys) <-> In (p, File name data) (walkDir [] (root fsys)).
Proof.
  unfold artifacts. rewrite List.in_flat_map. split.
  - intros ([q d] & Hin & Ha). destruct d; cbn in Ha; [|contradiction].
    destruct Ha as [[= <- <- <-]|[]]. exact Hin.
  - intros Hin. exists (p, File name data). split; [exact Hin|now left].
Qed.

(** ** The ledger as the engine reads it *)

Lemma scan_rows_find rows : forall known name,
  NoDup rows.*1 -> scan_rows rows = inr known ->
  (forall v, (name, v) ∈ rows -> findMigrationByName known name = scanned name v) /\
  (name ∉ rows.*1 -> findMigrationByName known name = (zero_row, false)).
Proof.
  induction rows as [|[n v] rest IH]; intros known name Hnd Hscan.
  - cbn in Hscan. inversion Hscan; subst. split.
    + intros v Hv. inversion Hv.
    + reflexivity.
  - cbn [scan_rows] in Hscan. cbn in Hnd. apply NoDup_cons in Hnd as [Hn Hnd].
    destruct v as [[h|] [a|]]; cbn in Hscan; try discriminate.
    destruct (scan_rows rest) as [|known'] eqn:E; [discriminate|].
    inversion Hscan; subst. destruct (IH known' name Hnd eq_refl) as [IHin IHout].
    cbn [findMigrationByName MigrationName].
    destruct (String.eqb_spec n name) as [->|Hne].
    + split.
      * intros v Hv. apply elem_of_cons in Hv as [[= ->]|Hv]; [reflexivity|].
        exfalso. apply Hn. apply list_elem_of_fmap. exists (name, v). auto.
      * intros Hout. exfalso. apply Hout. cbn. left.
    + split.
      * intros v Hv. apply elem_of_cons in Hv as [[= ? ?]|Hv]; [congruence|auto].
      * intros Hout. apply IHout. intros Hin. apply Hout. cbn. now right.
Qed.

(** Looking a name up in the rows read from the table is looking it up
    in the table. *)
Lemma known_lookup (t : table) known name :
  scan_rows (map_to_list t) = inr known ->
  findMigrationByName known name =
    match t !! name with
    | Some v => scanned name v
    | None => (zero_row, false)
    end.
Proof.
  intros Hscan.
  destruct (scan_rows_find (map_to_list t) known name
              (NoDup_fst_map_to_list t) Hscan) as [Hin Hout].
  destruct (t !! name) as [v|] eqn:E.
  - apply Hin. now apply elem_of_map_to_list.
  - apply Hout. intros Hel. apply list_elem_of_fmap in Hel as ([n v] & Hn & Hel).
    cbn in Hn. subst n. apply elem_of_map_to_list in Hel. congruence.
Qed.

(** ** The integrity check *)

Section IntegrityFacts.

Context {U : Type}.
Variable sql : string -> U -> string + U.
Variable faults : nat -> option string.

Lemma walk_known_failed visits (tx : Session U) :
  visits <> [] -> exists e, walk known_failed visits tx = (Some e, tx).
Proof. destruct visits as [|[p d] rest]; [contradiction|]. cbn. eauto. Qed.

Lemma walkDir_nonempty p d : walkDir p d <> [].
Proof. destruct d; discriminate. Qed.

Lemma walk_check_pure migrations known visits : forall (tx : Session U) r tx',
  walk (check_entry migrations known) visits tx = (r, tx') -> tx' = tx.
Proof.
  induction visits as [|[p d] rest IH]; intros tx r tx' H; cbn [walk] in H.
  - now inversion H.
  - destruct (check_entry migrations known p d None tx) as [[e|] s1] eqn:E;
      apply check_entry_pure in E as ->.
    + now inversion H.
    + eauto.
Qed.

(** The check on a file whose name is known: the hash of the file as it
    is now is compared with the stored one, whatever the applied flag. *)
Lemma check_entry_known migrations known p name data migration (tx : Session U) :
  findMigrationByName known name = (migration, true) ->
  ReadFile migrations p = inr data ->
  check_entry migrations known p (File name data) None tx
  = (if String.eqb (hashFile data) (MigrationHash migration) then None
     else Some (Errorf "migration %q has been altered" [Q name]), tx).
Proof.
  intros Hfind Hread. unfold check_entry. cbn [IsDir Name].
  rewrite Hfind, Hread. cbn.
  destruct (String.eqb (hashFile data) (MigrationHash migration)); reflexivity.
Qed.

Lemma walk_check_altered migrations known p name data migration visits (tx : Session U) :
  In (p, File name data) visits ->
  findMigrationByName known name = (migration, true) ->
  ReadFile migrations p = inr data ->
  hashFile data <> MigrationHash migration ->
  exists e, walk (check_entry migrations known) visits tx = (Some e, tx).
Proof.
  intros Hin Hfind Hread Hne. induction visits as [|[q d] rest IH]; [contradiction|].
  cbn [walk].
  destruct (check_entry migrations known q d None tx) as [[e|] s1] eqn:E;
    pose proof (check_entry_pure _ _ _ _ _ _ _ _ E); subst s1; [eauto|].
  destruct Hin as [[= -> ->]|Hin]; [|auto].
  rewrite (check_entry_known _ _ _ _ _ _ _ Hfind Hread) in E.
  destruct (String.eqb_spec (hashFile data) (MigrationHash migration));
    [contradiction|discriminate].
Qed.

(** With the table in place, a known record whose stored hash is not the
    hash of the file of that name ends the transaction in
    [ErrMigrationFileChanged] before the apply step is entered. *)
Lemma Migrate_tx_altered migrations (tx : Session U) (t : table) p name data h a :
  faults (calls tx) = None ->
  ledger (view tx) = Some t ->
  t !! name = Some (Some h, Some a) ->
  In (p, name, data) (artifacts migrations) ->
  wf_fs migrations = true ->
  hashFile data <> h ->
  exists tx', Migrate_tx sql faults migrations tx = (Some ErrMigrationFileChanged, tx')
    /\ committed tx' = committed tx /\ done_ tx' = done_ tx /\ log tx' = log tx.
Proof.
  intros Hf Hl Ht Hin Hwf Hne. apply In_artifacts in Hin.
  unfold Migrate_tx, tx_Exec_migrationTableQuery.
  destruct (call faults _ tx) as [[e0|[]] s1] eqn:E1.
  { unfold call in E1. rewrite Hf in E1. discriminate. }
  pose proof (call_done _ _ _ _ _ E1) as [_ Hv1]. inversion Hv1 as [Hview1].
  apply call_frame in E1 as (Hc1 & Hd1 & Hl1 & _).
  unfold checkIfMigrationsAreAltered.
  destruct (getMigrationsKnownToDb faults s1) as [[e2|known] s2] eqn:E2.
  - apply getMigrationsKnownToDb_frame in E2 as (Hc2 & Hd2 & Hl2 & _).
    unfold WalkDir.
    destruct (walk_known_failed (walkDir [] (root migrations)) s2
                (walkDir_nonempty _ _)) as [e ->].
    exists s2. repeat split; congruence.
  - assert (Hfind : findMigrationByName known name
                    = ({| MigrationName := name; MigrationHash := h; IsApplied := a |}, true)).
    { unfold getMigrationsKnownToDb, tx_Query_migrations in E2.
      destruct (call faults _ s1) as [[e|rows] s] eqn:E; [discriminate|].
      apply call_done in E as [_ Hop]. rewrite <- Hview1 in Hop. cbn in Hop.
      rewrite Hl in Hop. cbn in Hop. inversion Hop; subst rows.
      destruct (scan_rows (map_to_list t)) as [|known0] eqn:Es; [discriminate|].
      inversion E2; subst. rewrite (known_lookup t known name Es), Ht. reflexivity. }
    apply getMigrationsKnownToDb_frame in E2 as (Hc2 & Hd2 & Hl2 & _).
    unfold WalkDir.
    destruct (walk_check_altered migrations known p name data _
                (walkDir [] (root migrations)) s2 Hin Hfind
                (ReadFile_walk _ _ _ _ Hwf Hin) Hne) as [e ->].
    exists s2. repeat split; congruence.
Qed.

(** The same at the level of [Migrate]: once the connection, the
    transaction and the table are there, the run returns
    [ErrMigrationFileChanged], the database is as before and nothing was
    executed. *)
Lemma Migrate_altered migrations (db : Database U) (t : table) p name data h a :
  faults 0 = None -> faults 1 = None -> faults 2 = None ->
  ledger db = Some t ->
  t !! name = Some (Some h, Some a) ->
  In (p, name, data) (artifacts migrations) ->
  wf_fs migrations = true ->
  hashFile data <> h ->
  Migrate sql faults migrations db = (Some ErrMigrationFileChanged, db, []).
Proof.
  intros F0 F1 F2 Hl Ht Hin Hwf Hne.
  unfold Migrate, Migrate_session, db_Conn, conn_BeginTx, call. cbn [open_session calls view].
  rewrite F0. cbn. rewrite F1. cbn.
  match goal with |- context [Migrate_tx sql faults migrations ?s] =>
    destruct (Migrate_tx_altered migrations s t p name data h a F2 Hl Ht Hin Hwf Hne)
      as (tx' & -> & Hc & _ & Hlog) end.
  rewrite tx_Rollback_committed, tx_Rollback_log, Hc, Hlog. reflexivity.
Qed.

End IntegrityFacts.

(** C1: when the ledger holds an applied record for a name with hash [h]
    and the tree presents a file of that name whose content hashes to
    something else, [Migrate] (connected, in its transaction, past the
    table query) returns [ErrMigrationFileChanged], executes no artifact
    and leaves the database, ledger included, unchanged. *)
Theorem tamper_detection {U : Type} (sql : string -> U -> string + U)
    (faults : nat -> option string) (migrations : FS) (db : Database U)
    (t : table) (p : path) (name : string) (data : list byte) (h : string) :
  faults 0 = None -> faults 1 = None -> faults 2 = None ->
  wf_fs migrations = true ->
  ledger db = Some t ->
  t !! name = Some (Some h, Some true) ->
  In (p, name, data) (artifacts migrations) ->
  hashFile data <> h ->
  exists db' tr,
    Migrate sql faults migrations db = (Some ErrMigrationFileChanged, db', tr)
    /\ executions tr = [] /\ db' = db /\ ledger db' = Some t.
Proof.
  intros F0 F1 F2 Hwf Hl Ht Hin Hne. exists db, [].
  rewrite (Migrate_altered sql faults migrations db t p name data h true); auto.
Qed.

Lemma tamper_detection_witness :
  exists db' tr,
    Migrate demo_sql no_faults two_files_changed migrated_db
    = (Some ErrMigrationFileChanged, db', tr)
    /\ executions tr = [] /\ db' = migrated_db /\ ledger db' = Some migrated_ledger.
Proof.
  apply (tamper_detection demo_sql no_faults two_files_changed migrated_db
           migrated_ledger ["migrations"; "001_init.sql"] "001_init.sql"
           (bytes "CREATE TABLE t(id bigint);")
           (hashFile (bytes "CREATE TABLE t(id int);"))).
  - reflexivity.
  - reflexivity.
  - reflexivity.
  - reflexivity.
  - reflexivity.
  - vm_compute. reflexivity.
  - vm_compute. left. reflexivity.
  - vm_compute. discriminate.
Defined.

(** C10: a record with applied=false whose stored hash is not the hash
    of the file of the same name fails the integrity check like an
    applied one: the check compares the hashes of every known record,
    the callback reports the file as altered, and [Migrate] returns
    [ErrMigrationFileChanged] without executing anything. *)
Theorem unapplied_record_is_checked {U : Type} (sql : string -> U -> string + U)
    (faults : nat -> option string) (migrations : FS) (db : Database U)
    (t : table) (p : path) (name : string) (data : list byte) (h : string) :
  faults 0 = None -> faults 1 = None -> faults 2 = None ->
  wf_fs migrations = true ->
  ledger db = Some t ->
  t !! name = Some (Some h, Some false) ->
  In (p, name, data) (artifacts migrations) ->
  hashFile data <> h ->
  (forall known (tx : Session U), scan_rows (map_to_list t) = inr known ->
     check_entry migrations known p (File name data) None tx
     = (Some (Errorf "migration %q has been altered" [Q name]), tx))
  /\ exists tr,
       Migrate sql faults migrations db = (Some ErrMigrationFileChanged, db, tr)
       /\ executions tr = [].
Proof.
  intros F0 F1 F2 Hwf Hl Ht Hin Hne. split.
  - intros known tx Hscan.
    rewrite (check_entry_known migrations known p name data
               {| MigrationName := name; MigrationHash := h; IsApplied := false |}).
    + cbn. destruct (String.eqb_spec (hashFile data) h); [contradiction|reflexivity].
    + rewrite (known_lookup t known name Hscan), Ht. reflexivity.
    + apply (ReadFile_walk _ _ name); [exact Hwf|now apply In_artifacts].
  - exists []. split; [|reflexivity].
    apply (Migrate_altered sql faults migrations db t p name data h false); assumption.
Qed.

Lemma unapplied_record_is_checked_witness :
  (forall known (tx : Session (list string)),
     scan_rows (map_to_list unapplied_ledger) = inr known ->
     check_entry two_files_changed known ["migrations"; "001_init.sql"]
       (File "001_init.sql" (bytes "CREATE TABLE t(id bigint);")) None tx
     = (Some (Errorf "migration %q has been altered" [Q "001_init.sql"]), tx))
  /\ exists tr,
       Migrate demo_sql no_faults two_files_changed unapplied_db
       = (Some ErrMigrationFileChanged, unapplied_db, tr)
       /\ executions tr = [].
Proof.
  apply (unapplied_record_is_checked demo_sql no_faults two_files_changed unapplied_db
           unapplied_ledger ["migrations"; "001_init.sql"] "001_init.sql"
           (bytes "CREATE TABLE t(id bigint);")
           (hashFile (bytes "CREATE TABLE t(id int);"))).
  - reflexivity.
  - reflexivity.
  - reflexivity.
  - reflexivity.
  - reflexivity.
  - vm_compute. reflexivity.
  - vm_compute. left. reflexivity.
  - vm_compute. discriminate.
Defined.

(** ** The apply step *)

Section ApplyFacts.

Context {U : Type}.
Variable sql : string -> U -> string + U.
Variable faults : nat -> option string.

Lemma handle_entry_Dir migrations known p name entries (tx : Session U) :
  handle_entry sql faults migrations known p (Dir name entries) None tx = (None, tx).
Proof. reflexivity. Qed.

(** A file that is not pending is skipped: the session is untouched. *)
Lemma handle_entry_skip migrations known p d (tx : Session U) :
  pending known d = false ->
  handle_entry sql faults migrations known p d None tx = (None, tx).
Proof.
  unfold pending, handle_entry. intros Hp.
  destruct (IsDir d); [reflexivity|]. cbn in Hp.
  destruct (findMigrationByName known (Name d)) as [migration ok].
  apply negb_false_iff in Hp. now rewrite Hp.
Qed.

(** A pending file is read and its script is handed to the server. *)
Lemma handle_entry_pending migrations known p name data (tx : Session U) :
  pending known (File name data) = true ->
  ReadFile migrations p = inr data ->
  handle_entry sql faults migrations known p (File name data) None tx
  = match tx_Exec_script sql faults (string_of_list_byte data) tx with
    | (inl err, tx) =>
        (Some (Errorf "execute migration %q: %w: %w"
                 [Q name; W (DriverError err); W ErrMigrationFailed]),
         note (Executed p name (string_of_list_byte data) (Some err)) tx)
    | (inr _, tx) =>
        upsertMigration faults
          {| MigrationName := name; MigrationHash := hashFile data; IsApplied := true |}
          (note (Executed p name (string_of_list_byte data) None) tx)
    end.
Proof.
  unfold pending, handle_entry. cbn [IsDir Name negb andb]. intros Hp Hread.
  destruct (findMigrationByName known name) as [migration ok].
  apply negb_true_iff in Hp. now rewrite Hp, Hread.
Qed.

(** The four ways one call of the callback can end. *)
Lemma handle_entry_cases migrations known p d (tx : Session U) r tx' :
  handle_entry sql faults migrations known p d None tx = (r, tx') ->
  (log tx' = log tx /\
   (r = None \/ exists e, r = Some (Errorf "read migration file %q: %w" [Q (Name d); W e])))
  \/ (exists script row, r = None /\
        log tx' = log tx ++ [Executed p (Name d) script None; Upserted row])
  \/ (exists script e, r = Some (Errorf "upsert migration: %w" [W (DriverError e)]) /\
        log tx' = log tx ++ [Executed p (Name d) script None])
  \/ (exists script e,
        r = Some (Errorf "execute migration %q: %w: %w"
                    [Q (Name d); W (DriverError e); W ErrMigrationFailed]) /\
        log tx' = log tx ++ [Executed p (Name d) script (Some e)]).
Proof.
  unfold handle_entry, tx_Exec_script, upsertMigration, tx_Exec_upsert. intros H.
  destruct (IsDir d); [inversion H; subst; auto|].
  destruct (findMigrationByName known (Name d)) as [migration ok].
  destruct (ok && IsApplied migration); [inversion H; subst; auto|].
  destruct (ReadFile migrations p) as [e|data]; [inversion H; subst; eauto|].
  destruct (call faults _ tx) as [[e|[]] s1] eqn:E1;
    apply call_frame in E1 as (_ & _ & Hl1 & _).
  - inversion H; subst. right. right. right. do 2 eexists. split; [reflexivity|].
    cbn. now rewrite Hl1.
  - destruct (call faults _ (note _ s1)) as [[e|[]] s2] eqn:E2;
      apply call_frame in E2 as (_ & _ & Hl2 & _); cbn in Hl2;
      inversion H; subst; cbn; rewrite Hl2, Hl1.
    + right. right. left. do 2 eexists. split; reflexivity.
    + right. left. do 2 eexists. split; [reflexivity|].
      now rewrite <- List.app_assoc.
Qed.

(** One call that succeeds on a pending file: the table gains the row of
    the file, the log gains its two events. *)
Lemma handle_entry_success migrations known p name data (tx : Session U) tx' (t : table) :
  pending known (File name data) = true ->
  ReadFile migrations p = inr data ->
  ledger (view tx) = Some t ->
  handle_entry sql faults migrations known p (File name data) None tx = (None, tx') ->
  ledger (view tx') = Some (<[name := applied_row data]> t) /\
  log tx' = log tx ++ events_of (p, File name data).
Proof.
  intros Hp Hread Hl. rewrite (handle_entry_pending _ _ _ _ _ _ Hp Hread).
  unfold tx_Exec_script, upsertMigration, tx_Exec_upsert. intros H.
  destruct (call faults _ tx) as [[e|[]] s1] eqn:E1; [discriminate|].
  pose proof (call_done _ _ _ _ _ E1) as [_ Hop1].
  apply call_frame in E1 as (_ & _ & Hl1 & _).
  destruct (sql (string_of_list_byte data) (schema (view tx))); [discriminate|].
  inversion Hop1 as [Hv1].
  destruct (call faults _ (note _ s1)) as [[e|[]] s2] eqn:E2; [discriminate|].
  pose proof (call_done _ _ _ _ _ E2) as [_ Hop2].
  apply call_frame in E2 as (_ & _ & Hl2 & _).
  cbn in Hop2, Hl2. rewrite <- Hv1 in Hop2. cbn in Hop2. rewrite Hl in Hop2.
  inversion Hop2 as [Hv2]. inversion H as [Htx]. cbn.
  split; [now rewrite <- Hv2|]. rewrite Hl2, Hl1, <- List.app_assoc. reflexivity.
Qed.

Lemma record_all_app vs ws (t : table) :
  record_all (vs ++ ws) t = record_all ws (record_all vs t).
Proof. unfold record_all. apply List.fold_left_app. Qed.

(** A walk of the apply step that succeeds has run every pending file in
    turn and recorded each. *)
Lemma walk_handle_success migrations known visits :
  (forall p name data, In (p, File name data) visits -> ReadFile migrations p = inr data) ->
  forall (tx : Session U) tx' (t : table),
    ledger (view tx) = Some t ->
    walk (handle_entry sql faults migrations known) visits tx = (None, tx') ->
    ledger (view tx')
    = Some (record_all (List.filter (fun v => pending known (snd v)) visits) t) /\
    log tx'
    = log tx ++ List.flat_map events_of (List.filter (fun v => pending known (snd v)) visits).
Proof.
  induction visits as [|[p d] rest IH]; intros Hread tx tx' t Hl H; cbn [walk] in H.
  - inversion H; subst. cbn. now rewrite List.app_nil_r.
  - destruct (handle_entry sql faults migrations known p d None tx) as [[e|] s1] eqn:E;
      [discriminate|].
    cbn [List.filter snd]. destruct (pending known d) eqn:Hp.
    + destruct d as [name data|name entries]; [|discriminate].
      destruct (handle_entry_success _ _ _ _ _ _ _ t Hp
                  (Hread p name data (or_introl eq_refl)) Hl E) as [Hl1 Hlog1].
      destruct (IH (fun q n b Hin => Hread q n b (or_intror Hin)) s1 tx' _ Hl1 H)
        as [Hl2 Hlog2].
      split; [exact Hl2|].
      rewrite Hlog2, Hlog1. cbn [List.flat_map]. now rewrite <- List.app_assoc.
    + rewrite (handle_entry_skip _ _ _ _ _ Hp) in E. inversion E; subst s1.
      apply (IH (fun q n b Hin => Hread q n b (or_intror Hin)) tx tx' t Hl H).
Qed.

(** When nothing is pending the walk leaves the session as it was. *)
Lemma walk_handle_nothing_pending migrations known visits (tx : Session U) :
  (forall v, In v visits -> pending known (snd v) = false) ->
  walk (handle_entry sql faults migrations known) visits tx = (None, tx).
Proof.
  induction visits as [|[p d] rest IH]; intros Hnp; cbn [walk]; [reflexivity|].
  rewrite (handle_entry_skip _ _ _ _ _ (Hnp (p, d) (or_introl eq_refl))).
  apply IH. intros v Hv. apply Hnp. now right.
Qed.

End ApplyFacts.

(** ** A run that succeeds *)

Section SuccessFacts.

Context {U : Type}.
Variable sql : string -> U -> string + U.
Variable faults : nat -> option string.

Lemma getMigrationsKnownToDb_ok (tx : Session U) known tx' :
  getMigrationsKnownToDb faults tx = (inr known, tx') ->
  exists t : table, ledger (view tx) = Some t /\ scan_rows (map_to_list t) = inr known.
Proof.
  unfold getMigrationsKnownToDb, tx_Query_migrations. intros H.
  destruct (call faults _ tx) as [[e|rows] s1] eqn:E; [discriminate|].
  apply call_done in E as [_ Hop].
  destruct (ledger (view tx)) as [t|]; [|discriminate].
  inversion Hop; subst rows. exists t. split; [reflexivity|].
  destruct (scan_rows (map_to_list t)); inversion H; subst; reflexivity.
Qed.

Lemma ensure_table_view (tx : Session U) tx' :
  tx_Exec_migrationTableQuery faults tx = (inr tt, tx') ->
  view tx' = {| ledger := Some (default ∅ (ledger (view tx))); schema := schema (view tx) |}.
Proof.
  unfold tx_Exec_migrationTableQuery. intros H.
  apply call_done in H as [_ Hop]. now inversion Hop.
Qed.

(** The transaction of a run that returns nil: the known migrations were
    read from the table as it was (created empty if it was missing), the
    pending files were run and recorded in walk order, and the view was
    committed. *)
Lemma Migrate_tx_success migrations (tx : Session U) tx' :
  wf_fs migrations = true ->
  Migrate_tx sql faults migrations tx = (None, tx') ->
  exists known,
    scan_rows (map_to_list (default (∅ : table) (ledger (view tx)))) = inr known /\
    committed tx' = view tx' /\ done_ tx' = true /\
    ledger (view tx')
    = Some (record_all
              (List.filter (fun v => pending known (snd v)) (walkDir [] (root migrations)))
              (default ∅ (ledger (view tx)))) /\
    log tx'
    = log tx ++ List.flat_map events_of
        (List.filter (fun v => pending known (snd v)) (walkDir [] (root migrations))).
Proof.
  intros Hwf. unfold Migrate_tx, WalkDir. intros H.
  destruct (tx_Exec_migrationTableQuery faults tx) as [[e0|[]] s1] eqn:E1; [discriminate|].
  pose proof (ensure_table_view _ _ E1) as Hv1.
  apply call_frame in E1 as (_ & _ & Hl1 & _).
  unfold checkIfMigrationsAreAltered in H.
  destruct (getMigrationsKnownToDb faults s1) as [[e2|known] s2] eqn:E2.
  { destruct (walk_known_failed (walkDir [] (root migrations)) s2
                (walkDir_nonempty _ _)) as [e He].
    rewrite He in H. discriminate. }
  pose proof (getMigrationsKnownToDb_ok _ _ _ E2) as (t & Ht & Hscan).
  apply getMigrationsKnownToDb_frame in E2 as (_ & _ & Hl2 & Hv2 & _).
  destruct (walk (check_entry migrations known) _ s2) as [[e3|] s3] eqn:E3; [discriminate|].
  apply walk_check_pure in E3 as ->.
  unfold handleMigration in H.
  destruct (getMigrationsKnownToDb faults s2) as [[e4|known'] s4] eqn:E4.
  { destruct (walk_known_failed (walkDir [] (root migrations)) s4
                (walkDir_nonempty _ _)) as [e He].
    rewrite He in H. discriminate. }
  pose proof (getMigrationsKnownToDb_ok _ _ _ E4) as (t' & Ht' & Hscan').
  apply getMigrationsKnownToDb_frame in E4 as (_ & _ & Hl4 & Hv4 & _).
  rewrite Hv2 in Ht'. rewrite Ht in Ht'. inversion Ht'; subst t'.
  rewrite Hscan in Hscan'. inversion Hscan'; subst known'.
  destruct (walk (handle_entry sql faults migrations known) _ s4) as [[e5|] s5] eqn:E5;
    [discriminate|].
  assert (Hl4' : ledger (view s4) = Some t) by (rewrite Hv4, Hv2; exact Ht).
  destruct (walk_handle_success sql faults migrations known _
              (fun p n b Hin => ReadFile_walk migrations p n b Hwf Hin)
              s4 s5 t Hl4' E5) as [Hl5 Hlog5].
  rewrite Hv1 in Ht. cbn in Ht. inversion Ht as [Ht0].
  exists known. unfold tx_Commit in H.
  destruct (faults (calls s5)); inversion H; subst tx'; cbn [committed view done_ log].
  subst t. repeat split; auto.
  rewrite Hlog5, Hl4, Hl2, Hl1. reflexivity.
Qed.

Lemma Migrate_success migrations (db db' : Database U) tr :
  wf_fs migrations = true ->
  Migrate sql faults migrations db = (None, db', tr) ->
  exists known,
    scan_rows (map_to_list (default (∅ : table) (ledger db))) = inr known /\
    ledger db'
    = Some (record_all
              (List.filter (fun v => pending known (snd v)) (walkDir [] (root migrations)))
              (default ∅ (ledger db))) /\
    tr = List.flat_map events_of
           (List.filter (fun v => pending known (snd v)) (walkDir [] (root migrations))).
Proof.
  intros Hwf. unfold Migrate, Migrate_session, db_Conn, conn_BeginTx. intros H.
  destruct (call faults _ (open_session db)) as [[e0|[]] s1] eqn:E1; [discriminate|].
  pose proof (call_done _ _ _ _ _ E1) as [_ Hop1].
  apply call_frame in E1 as (_ & _ & Hl1 & _).
  destruct (call faults _ s1) as [[e1|[]] s2] eqn:E2; [discriminate|].
  pose proof (call_done _ _ _ _ _ E2) as [_ Hop2].
  apply call_frame in E2 as (_ & _ & Hl2 & _).
  assert (Hdb : view s2 = db) by (cbn [open_session view] in Hop1; congruence).
  destruct (Migrate_tx sql faults migrations s2) as [err s3] eqn:E3.
  destruct (Migrate_tx_success migrations s2 s3 Hwf) as (known & Hscan & Hc & Hd & Hl & Hlog).
  { inversion H; subst err; exact E3. }
  rewrite Hdb in Hscan, Hl.
  exists known. inversion H as [[He Hdb' Htr]].
  unfold tx_Rollback. rewrite Hd, Hc, Hl, Hlog, Hl2, Hl1. auto.
Qed.

End SuccessFacts.

(** ** The table after a list of files was recorded *)

Lemma record_all_cons v vs (t : table) :
  record_all (v :: vs) t = record_all vs (record t v).
Proof. reflexivity. Qed.

Lemma file_names_cons_File p name data vs :
  file_names ((p, File name data) :: vs) = name :: file_names vs.
Proof. reflexivity. Qed.

Lemma file_names_cons_Dir p name entries vs :
  file_names ((p, Dir name entries) :: vs) = file_names vs.
Proof. reflexivity. Qed.

Lemma In_file_names p name data vs :
  In (p, File name data) vs -> In name (file_names vs).
Proof.
  induction vs as [|[q [n b|n es]] vs IH]; [contradiction| |].
  - intros [[= -> -> ->]|Hin]; rewrite file_names_cons_File; [now left|right; auto].
  - intros [[=]|Hin]. rewrite file_names_cons_Dir. auto.
Qed.

Lemma record_all_notin vs : forall (t : table) name,
  ~ In name (file_names vs) -> record_all vs t !! name = t !! name.
Proof.
  induction vs as [|[q [n b|n es]] vs IH]; intros t name Hni; [reflexivity| |].
  - rewrite record_all_cons, file_names_cons_File in *.
    rewrite IH by (intros Hin; apply Hni; now right).
    unfold record; cbn [snd]. apply lookup_insert_ne. intros ->. apply Hni. now left.
  - rewrite record_all_cons, file_names_cons_Dir in *. now apply IH.
Qed.

(** Every row of the table is a row that was there or the row of one of
    the files. *)
Lemma record_all_inv vs : forall (t : table) name row,
  record_all vs t !! name = Some row ->
  t !! name = Some row \/
  exists p data, In (p, File name data) vs /\ row = applied_row data.
Proof.
  induction vs as [|[q [n b|n es]] vs IH]; intros t name row H; [now left| |].
  - rewrite record_all_cons in H. apply IH in H as [H|(p & data & Hin & ->)].
    + unfold record in H; cbn [snd] in H.
      destruct (decide (n = name)) as [->|Hne].
      * rewrite lookup_insert_eq in H. inversion H; subst.
        right. exists q, b. split; [now left|reflexivity].
      * rewrite lookup_insert_ne in H by exact Hne. now left.
    + right. exists p, data. split; [now right|reflexivity].
  - rewrite record_all_cons in H. apply IH in H as [H|(p & data & Hin & ->)].
    + now left.
    + right. exists p, data. split; [now right|reflexivity].
Qed.

(** Every file has a row, applied, with the hash of a file of its name. *)
Lemma record_all_In vs : forall (t : table) p name data,
  In (p, File name data) vs ->
  exists q data', In (q, File name data') vs /\
    record_all vs t !! name = Some (applied_row data').
Proof.
  induction vs as [|[q [n b|n es]] vs IH]; intros t p name data Hin; [contradiction| |].
  - rewrite record_all_cons.
    destruct (List.in_dec string_dec name (file_names vs)) as [Hn|Hn].
    + destruct Hin as [[= -> -> ->]|Hin].
      * unfold file_names in Hn. apply List.in_map_iff in Hn as ([[q' n'] b'] & Heq & Hn).
        cbn in Heq. subst n'. apply List.in_flat_map in Hn as ([q2 d2] & Hin2 & Ha).
        destruct d2; cbn in Ha; [|contradiction]. destruct Ha as [[= -> -> ->]|[]].
        destruct (IH (record t (p, File name data)) _ _ _ Hin2) as (q3 & d3 & Hin3 & Hl).
        exists q3, d3. split; [now right|exact Hl].
      * destruct (IH (record t (q, File n b)) _ _ _ Hin) as (q3 & d3 & Hin3 & Hl).
        exists q3, d3. split; [now right|exact Hl].
    + destruct Hin as [[= -> -> ->]|Hin].
      * exists p, data. split; [now left|].
        rewrite record_all_notin by exact Hn. apply lookup_insert_eq.
      * exfalso. apply Hn. eapply In_file_names; eauto.
  - rewrite record_all_cons. destruct Hin as [[=]|Hin].
    destruct (IH (record t (q, Dir n es)) _ _ _ Hin) as (q3 & d3 & Hin3 & Hl).
    exists q3, d3. split; [now right|exact Hl].
Qed.

Lemma record_all_unique vs : forall (t : table) p name data,
  List.NoDup (file_names vs) ->
  In (p, File name data) vs ->
  record_all vs t !! name = Some (applied_row data).
Proof.
  induction vs as [|[q [n b|n es]] vs IH]; intros t p name data Hnd Hin; [contradiction| |].
  - rewrite record_all_cons. rewrite file_names_cons_File in Hnd.
    inversion Hnd as [|? ? Hn Hnd']; subst.
    destruct Hin as [[= -> -> ->]|Hin].
    + rewrite record_all_notin by exact Hn. apply lookup_insert_eq.
    + eapply IH; eauto.
  - rewrite record_all_cons. rewrite file_names_cons_Dir in Hnd.
    destruct Hin as [[=]|Hin]. eapply IH; eauto.
Qed.

Lemma record_all_size vs : forall (t : table),
  List.NoDup (file_names vs) ->
  (forall name, In name (file_names vs) -> t !! name = None) ->
  size (record_all vs t) = size t + length (file_names vs).
Proof.
  induction vs as [|[q [n b|n es]] vs IH]; intros t Hnd Hfresh.
  - cbn. lia.
  - rewrite record_all_cons. rewrite file_names_cons_File in *.
    inversion Hnd as [|? ? Hn Hnd']; subst.
    rewrite IH; [|exact Hnd'|].
    + unfold record; cbn [snd].
      rewrite map_size_insert_None by (apply Hfresh; now left). cbn. lia.
    + intros name Hin. unfold record; cbn [snd].
      rewrite lookup_insert_ne by (intros ->; contradiction).
      apply Hfresh. now right.
  - rewrite record_all_cons. rewrite file_names_cons_Dir in *. now apply IH.
Qed.

(** With no known migration, every file is pending. *)
Lemma pending_nil d : pending [] d = negb (IsDir d).
Proof. destruct d; reflexivity. Qed.

Lemma filter_pending_nil vs :
  file_names (List.filter (fun v => pending [] (snd v)) vs) = file_names vs /\
  (forall p name data,
     In (p, File name data) (List.filter (fun v => pending [] (snd v)) vs)
     <-> In (p, File name data) vs).
Proof.
  split.
  - induction vs as [|[q [n b|n es]] vs IH]; [reflexivity| |];
      cbn [List.filter snd]; rewrite pending_nil; cbn [IsDir negb].
    + rewrite !file_names_cons_File. now f_equal.
    + rewrite file_names_cons_Dir. exact IH.
  - intros p name data. rewrite List.filter_In, pending_nil. cbn. tauto.
Qed.

Lemma artifact_names_file_names fsys :
  artifact_names fsys = file_names (walkDir [] (root fsys)).
Proof. reflexivity. Qed.

Lemma length_artifacts fsys : length (artifacts fsys) = length (artifact_names fsys).
Proof. unfold artifact_names. now rewrite List.length_map. Qed.

(** C4: from an empty ledger (the table missing or without rows), a run
    of [Migrate] over a well-formed tree of N artifacts with distinct
    names that returns nil leaves a ledger of exactly N records: the
    record of each artifact's name is applied and holds the hash of its
    content, and there is no other record. *)
Theorem completeness {U : Type} (sql : string -> U -> string + U)
    (faults : nat -> option string) (migrations : FS) (db db' : Database U)
    (tr : list event) :
  ledger db = None \/ ledger db = Some ∅ ->
  wf_fs migrations = true ->
  distinct (artifact_names migrations) = true ->
  Migrate sql faults migrations db = (None, db', tr) ->
  exists t' : table,
    ledger db' = Some t' /\
    size t' = length (artifacts migrations) /\
    (forall p name data, In (p, name, data) (artifacts migrations) ->
       t' !! name = Some (Some (hashFile data), Some true)) /\
    (forall name row, t' !! name = Some row ->
       snd row = Some true /\
       exists p data, In (p, name, data) (artifacts migrations) /\
                      fst row = Some (hashFile data)).
Proof.
  intros Hempty Hwf Hnd H.
  destruct (Migrate_success sql faults migrations db db' tr Hwf H)
    as (known & Hscan & Hl & _).
  assert (Ht0 : default (∅ : table) (ledger db) = ∅)
    by (destruct Hempty as [-> | ->]; reflexivity).
  rewrite Ht0 in Hscan, Hl. rewrite map_to_list_empty in Hscan.
  inversion Hscan; subst known.
  destruct (filter_pending_nil (walkDir [] (root migrations))) as [Hnames Hfiles].
  apply distinct_NoDup in Hnd. rewrite artifact_names_file_names in Hnd.
  eexists. split; [exact Hl|]. split; [|split].
  - rewrite record_all_size.
    + rewrite Hnames, length_artifacts, map_size_empty. reflexivity.
    + now rewrite Hnames.
    + intros name _. apply lookup_empty.
  - intros p name data Hin. apply In_artifacts in Hin.
    apply (record_all_unique _ _ p); [now rewrite Hnames|now apply Hfiles].
  - intros name row Hrow.
    apply record_all_inv in Hrow as [Hrow|(p & data & Hin & ->)].
    + rewrite lookup_empty in Hrow. discriminate.
    + split; [reflexivity|]. exists p, data. split; [|reflexivity].
      apply In_artifacts. now apply Hfiles.
Qed.

Lemma completeness_witness :
  exists t' : table,
    ledger migrated_db = Some t' /\
    size t' = length (artifacts two_files) /\
    (forall p name data, In (p, name, data) (artifacts two_files) ->
       t' !! name = Some (Some (hashFile data), Some true)) /\
    (forall name row, t' !! name = Some row ->
       snd row = Some true /\
       exists p data, In (p, name, data) (artifacts two_files) /\
                      fst row = Some (hashFile data)).
Proof.
  apply (completeness demo_sql no_faults two_files empty_db migrated_db
           (List.flat_map events_of (List.skipn 2 (walkDir [] (root two_files))))).
  - left. reflexivity.
  - reflexivity.
  - reflexivity.
  - vm_compute. reflexivity.
Defined.

(** C4 without the distinct names fails: [same_name_twice] holds two
    artifacts, the run from the empty database returns nil, and the
    ledger it leaves has one record, not two; the record does not hold
    the hash of the artifact walked first. *)
Lemma completeness_counterexample :
  exists (db' : Database (list string)) (tr : list event) (t' : table),
    wf_fs same_name_twice = true /\
    ledger empty_db = None /\
    Migrate demo_sql no_faults same_name_twice empty_db = (None, db', tr) /\
    ledger db' = Some t' /\
    length (artifacts same_name_twice) = 2 /\
    size t' = 1 /\
    In (["a"; "x.sql"], "x.sql", bytes "CREATE TABLE a(id int);")
       (artifacts same_name_twice) /\
    t' !! "x.sql" <> Some (Some (hashFile (bytes "CREATE TABLE a(id int);")), Some true).
Proof.
  exists {| ledger := Some (<["x.sql" := applied_row (bytes "CREATE TABLE b(id int);")]> ∅);
            schema := ["CREATE TABLE a(id int);"; "CREATE TABLE b(id int);"] |},
         (snd (Migrate demo_sql no_faults same_name_twice empty_db)),
         (<["x.sql" := applied_row (bytes "CREATE TABLE b(id int);")]> ∅).
  split; [reflexivity|]. split; [reflexivity|].
  split; [vm_compute; reflexivity|]. split; [reflexivity|].
  split; [reflexivity|]. split; [vm_compute; reflexivity|].
  split; [vm_compute; left; reflexivity|].
  vm_compute. discriminate.
Qed.

(** ** A run over a ledger that already lists every file as applied *)

Section RerunFacts.

Context {U : Type}.
Variable sql : string -> U -> string + U.
Variable faults : nat -> option string.

Lemma ensure_table_noop (v : Database U) (t : table) :
  ledger v = Some t ->
  {| ledger := Some (default ∅ (ledger v)); schema := schema v |} = v.
Proof. destruct v as [l u]. cbn. now intros ->. Qed.

Lemma pending_applied (t : table) known d :
  scan_rows (map_to_list t) = inr known ->
  (exists h, t !! Name d = Some (Some h, Some true)) ->
  pending known d = false.
Proof.
  intros Hscan [h Ht]. unfold pending.
  rewrite (known_lookup t known (Name d) Hscan), Ht. cbn.
  now rewrite andb_false_r.
Qed.

Lemma pending_Dir known name entries : pending known (Dir name entries) = false.
Proof. reflexivity. Qed.

Lemma Migrate_tx_nothing_pending migrations (tx : Session U) (t : table) :
  ledger (view tx) = Some t ->
  (forall p name data, In (p, File name data) (walkDir [] (root migrations)) ->
     exists h, t !! name = Some (Some h, Some true)) ->
  exists err tx',
    Migrate_tx sql faults migrations tx = (err, tx') /\ log tx' = log tx /\
    match err with
    | None => committed tx' = view tx /\ done_ tx' = true
    | Some _ => committed tx' = committed tx /\ done_ tx' = done_ tx
    end.
Proof.
  intros Hl Hall. unfold Migrate_tx, WalkDir.
  destruct (tx_Exec_migrationTableQuery faults tx) as [[e0|[]] s1] eqn:E1.
  { apply call_frame in E1 as (? & ? & ? & _). eauto 6. }
  pose proof (ensure_table_view _ _ _ E1) as Hv1.
  rewrite (ensure_table_noop _ _ Hl) in Hv1.
  apply call_frame in E1 as (Hc1 & Hd1 & Hl1 & _).
  unfold checkIfMigrationsAreAltered.
  destruct (getMigrationsKnownToDb faults s1) as [[e2|known] s2] eqn:E2;
    apply getMigrationsKnownToDb_frame in E2 as (Hc2 & Hd2 & Hl2 & Hv2 & _).
  { destruct (walk_known_failed (walkDir [] (root migrations)) s2
                (walkDir_nonempty _ _)) as [e ->].
    do 2 eexists. split; [reflexivity|]. split; [|split]; congruence. }
  destruct (walk (check_entry migrations known) _ s2) as [[e3|] s3] eqn:E3;
    apply walk_check_pure in E3 as ->.
  { do 2 eexists. split; [reflexivity|]. split; [|split]; congruence. }
  unfold handleMigration.
  destruct (getMigrationsKnownToDb faults s2) as [[e4|known'] s4] eqn:E4.
  { apply getMigrationsKnownToDb_frame in E4 as (Hc4 & Hd4 & Hl4 & Hv4 & _).
    destruct (walk_known_failed (walkDir [] (root migrations)) s4
                (walkDir_nonempty _ _)) as [e ->].
    do 2 eexists. split; [reflexivity|]. split; [|split]; congruence. }
  pose proof (getMigrationsKnownToDb_ok _ _ _ _ E4) as (t' & Ht' & Hscan).
  apply getMigrationsKnownToDb_frame in E4 as (Hc4 & Hd4 & Hl4 & Hv4 & _).
  assert (t' = t) by congruence. subst t'.
  rewrite (walk_handle_nothing_pending sql faults migrations known').
  - unfold tx_Commit. destruct (faults (calls s4)).
    + do 2 eexists. split; [reflexivity|]. cbn. split; [|split]; congruence.
    + do 2 eexists. split; [reflexivity|]. cbn. split; [|split]; congruence.
  - intros [p [name data|name entries]] Hin; cbn [snd].
    + apply (pending_applied t); [exact Hscan|]. cbn [Name]. eauto.
    + apply pending_Dir.
Qed.

(** Whatever else happens to such a run, it changes nothing and executes
    nothing. *)
Lemma Migrate_nothing_pending migrations (db : Database U) (t : table) :
  ledger db = Some t ->
  (forall p name data, In (p, File name data) (walkDir [] (root migrations)) ->
     exists h, t !! name = Some (Some h, Some true)) ->
  exists err, Migrate sql faults migrations db = (err, db, []).
Proof.
  intros Hl Hall. unfold Migrate, Migrate_session, db_Conn, conn_BeginTx.
  destruct (call faults _ (open_session db)) as [[e0|[]] s1] eqn:E1.
  { apply call_frame in E1 as (Hc & _ & Hlog & _). rewrite Hc, Hlog. eauto. }
  pose proof (call_done _ _ _ _ _ E1) as [_ Hop1].
  apply call_frame in E1 as (Hc1 & _ & Hl1 & _).
  destruct (call faults _ s1) as [[e1|[]] s2] eqn:E2.
  { apply call_frame in E2 as (Hc & _ & Hlog & _). rewrite Hc, Hlog, Hc1, Hl1. eauto. }
  pose proof (call_done _ _ _ _ _ E2) as [_ Hop2].
  apply call_frame in E2 as (Hc2 & _ & Hl2 & _).
  assert (Hdb : view s2 = db) by (cbn [open_session view] in Hop1; congruence).
  assert (Hl' : ledger (view s2) = Some t) by now rewrite Hdb.
  destruct (Migrate_tx_nothing_pending migrations s2 t Hl' Hall)
    as (err & s3 & -> & Hlog & Hres).
  exists err. rewrite tx_Rollback_log, Hlog, Hl2, Hl1. cbn [open_session log].
  unfold tx_Rollback. destruct err as [e|].
  - destruct Hres as [Hc3 Hd3]. destruct (done_ s3); cbn; rewrite Hc3, Hc2, Hc1; reflexivity.
  - destruct Hres as [Hc3 Hd3]. rewrite Hd3, Hc3, Hdb. reflexivity.
Qed.

End RerunFacts.

Section UpToDateFacts.

Context {U : Type}.
Variable sql : string -> U -> string + U.
Variable faults : nat -> option string.
Hypothesis no_fault : forall k, faults k = None.

Lemma scan_rows_total rows :
  (forall r, In r rows -> exists h a, snd r = (Some h, Some a)) ->
  exists known, scan_rows rows = inr known.
Proof.
  induction rows as [|[n v] rest IH]; intros Hrows; cbn [scan_rows]; [eauto|].
  destruct (Hrows (n, v) (or_introl eq_refl)) as (h & a & Hv). cbn in Hv. subst v.
  destruct IH as [known ->]; [intros r Hr; apply Hrows; now right|].
  cbn. eauto.
Qed.


Lemma getMigrationsKnownToDb_runs (tx : Session U) (t : table) known :
  ledger (view tx) = Some t ->
  scan_rows (map_to_list t) = inr known ->
  exists tx', getMigrationsKnownToDb faults tx = (inr known, tx') /\
    view tx' = view tx /\ log tx' = log tx /\ committed tx' = committed tx /\
    done_ tx' = done_ tx.
Proof.
  intros Hl Hscan. unfold getMigrationsKnownToDb, tx_Query_migrations, call.
  rewrite no_fault, Hl, Hscan. eexists. split; [reflexivity|]. cbn. auto.
Qed.

Lemma walk_check_passes migrations known visits (tx : Session U) :
  (forall p name data, In (p, File name data) visits ->
     ReadFile migrations p = inr data /\
     forall migration, findMigrationByName known name = (migration, true) ->
                       MigrationHash migration = hashFile data) ->
  walk (check_entry migrations known) visits tx = (None, tx).
Proof.
  induction visits as [|[p d] rest IH]; intros Hok; cbn [walk]; [reflexivity|].
  assert (E : check_entry migrations known p d None tx = (None, tx)).
  { destruct d as [name data|name entries]; [|reflexivity].
    destruct (Hok p name data (or_introl eq_refl)) as [Hread Hhash].
    destruct (findMigrationByName known name) as [migration ok] eqn:Hfind.
    destruct ok.
    - rewrite (check_entry_known _ _ _ _ _ _ _ Hfind Hread).
      rewrite (Hhash migration eq_refl), String.eqb_refl. reflexivity.
    - unfold check_entry. cbn [IsDir Name]. rewrite Hfind. reflexivity. }
  rewrite E. apply IH. intros q n b Hin. apply Hok. now right.
Qed.


End UpToDateFacts.


(** ** The order of the walk *)

Lemma compare_refl x : String_as_OT.compare x x = Eq.
Proof.
  destruct (String_as_OT.compare_spec x x) as [_|H|H]; [reflexivity| |];
    exfalso; exact (irreflexivity String_as_OT.lt x H).
Qed.

Lemma compare_Eq x y : String_as_OT.compare x y = Eq -> x = y.
Proof.
  destruct (String_as_OT.compare_spec x y) as [H|_|_]; [auto|discriminate..].
Qed.

Lemma compare_Gt x y : String_as_OT.compare x y = Gt -> String_as_OT.lt y x.
Proof.
  destruct (String_as_OT.compare_spec x y) as [_|_|H]; [discriminate..|auto].
Qed.

Lemma name_leb_total x y : name_leb x y = false -> name_leb y x = true.
Proof.
  unfold name_leb. destruct (String_as_OT.compare x y) eqn:E; try discriminate.
  intros _. apply compare_Gt in E. unfold String_as_OT.lt in E. now rewrite E.
Qed.

Lemma name_leb_spec x y : name_leb x y = true <-> x = y \/ String_as_OT.lt x y.
Proof.
  unfold name_leb. destruct (String_as_OT.compare x y) eqn:E.
  - apply compare_Eq in E. tauto.
  - unfold String_as_OT.lt. tauto.
  - split; [discriminate|]. apply compare_Gt in E. intros [->|H].
    + exfalso. exact (irreflexivity String_as_OT.lt y E).
    + exfalso. exact (irreflexivity String_as_OT.lt y (transitivity E H)).
Qed.

Lemma name_leb_trans x y z :
  name_leb x y = true -> name_leb y z = true -> name_leb x z = true.
Proof.
  rewrite !name_leb_spec. intros [->|Hxy] [->|Hyz]; auto.
  right. exact (transitivity Hxy Hyz).
Qed.

Lemma insert_by_sorted {A : Type} (key : A -> string) x l :
  StronglySorted (fun a b => name_leb (key a) (key b) = true) l ->
  StronglySorted (fun a b => name_leb (key a) (key b) = true) (insert_by key x l).
Proof.
  induction l as [|y l IH]; intros Hs; cbn [insert_by].
  - constructor; constructor.
  - apply StronglySorted_inv in Hs as [Hs Hy].
    destruct (name_leb (key x) (key y)) eqn:E.
    + constructor; [constructor; assumption|].
      constructor; [exact E|].
      rewrite List.Forall_forall in *. intros z Hz.
      exact (name_leb_trans _ _ _ E (Hy z Hz)).
    + constructor; [auto|].
      rewrite List.Forall_forall in *. intros z Hz.
      apply (Permutation_in _ (insert_by_Permutation key x l)) in Hz as [<-|Hz].
      * now apply name_leb_total.
      * auto.
Qed.

Lemma sort_by_sorted {A : Type} (key : A -> string) (l : list A) :
  StronglySorted (fun a b => name_leb (key a) (key b) = true) (sort_by key l).
Proof.
  induction l as [|x l IH]; cbn; [constructor|]. now apply insert_by_sorted.
Qed.

(** In a directory whose names are distinct, [ReadDir] lists the entries
    in strictly ascending order of name. *)
Lemma ReadDir_sorted entries :
  List.NoDup (List.map Name entries) ->
  StronglySorted (fun a b => String_as_OT.lt (Name a) (Name b)) (ReadDir entries).
Proof.
  intros Hnd.
  assert (Hnd' : List.NoDup (List.map Name (ReadDir entries))).
  { eapply Permutation_NoDup; [|exact Hnd].
    apply Permutation_map. symmetry. apply sort_by_Permutation. }
  pose proof (sort_by_sorted Name entries) as Hs. fold (ReadDir entries) in Hs.
  induction Hs as [|a l Hs IH Ha]; [constructor|].
  cbn in Hnd'. inversion Hnd' as [|? ? Hn Hnd'']; subst.
  constructor; [auto|].
  rewrite List.Forall_forall in *. intros b Hb.
  pose proof (Ha b Hb) as Hle. apply name_leb_spec in Hle as [Heq|Hlt]; [|exact Hlt].
  exfalso. apply Hn. rewrite Heq. now apply List.in_map.
Qed.

Lemma path_compare_refl a : path_compare a a = Eq.
Proof. induction a as [|x a IH]; cbn; [reflexivity|]. now rewrite compare_refl. Qed.

Lemma path_lt_irrefl a : ~ path_lt a a.
Proof. unfold path_lt. now rewrite path_compare_refl. Qed.

Lemma path_lt_trans a : forall b c, path_lt a b -> path_lt b c -> path_lt a c.
Proof.
  unfold path_lt. induction a as [|x a IH]; intros [|y b] [|z c]; cbn; try congruence.
  destruct (String_as_OT.compare x y) eqn:Exy; try discriminate.
  - apply compare_Eq in Exy. subst y.
    destruct (String_as_OT.compare x z); try congruence. apply IH.
  - destruct (String_as_OT.compare y z) eqn:Eyz; try discriminate.
    + apply compare_Eq in Eyz. subst z. now rewrite Exy.
    + intros _ _.
      assert (H : String_as_OT.lt x z) by exact (transitivity Exy Eyz).
      unfold String_as_OT.lt in H. now rewrite H.
Qed.

Lemma path_lt_extend p r : r <> [] -> path_lt p (p ++ r).
Proof.
  unfold path_lt. intros Hr. induction p as [|x p IH]; cbn.
  - destruct r; [contradiction|reflexivity].
  - now rewrite compare_refl.
Qed.

Lemma path_lt_under p a b : path_lt a b -> path_lt (p ++ a) (p ++ b).
Proof.
  unfold path_lt. intros H. induction p as [|x p IH]; cbn; [exact H|].
  now rewrite compare_refl.
Qed.

Lemma path_lt_names x y a b : String_as_OT.lt x y -> path_lt (x :: a) (y :: b).
Proof. unfold path_lt, String_as_OT.lt. cbn. now intros ->. Qed.

Lemma StronglySorted_flat_map {A B : Type} (R : B -> B -> Prop) (S : A -> A -> Prop)
    (f : A -> list B) (l : list A) :
  StronglySorted S l ->
  (forall a, In a l -> StronglySorted R (f a)) ->
  (forall a b x y, S a b -> In x (f a) -> In y (f b) -> R x y) ->
  StronglySorted R (List.flat_map f l).
Proof.
  intros Hs Hblock Hcross. induction Hs as [|a l Hs IH Ha]; cbn; [constructor|].
  apply StronglySorted_app_2.
  - intros x y Hx Hy. apply list_elem_of_In in Hx, Hy.
    apply List.in_flat_map in Hy as (b & Hb & Hy).
    rewrite List.Forall_forall in Ha. exact (Hcross a b x y (Ha b Hb) Hx Hy).
  - apply Hblock. now left.
  - apply IH. intros b Hb. apply Hblock. now right.
Qed.

(** The walk of a well-formed tree visits paths in strictly ascending
    order. *)
Lemma walkDir_sorted d : wf_node d = true ->
  forall p, StronglySorted path_lt (List.map fst (walkDir p d)).
Proof.
  induction d as [name data|name entries IH] using node_induction; intros Hwf p.
  - cbn. constructor; constructor.
  - rewrite walkDir_Dir. cbn [List.map fst].
    cbn in Hwf. apply andb_true_iff in Hwf as [Hnd Hall].
    apply distinct_NoDup in Hnd. rewrite List.forallb_forall in Hall.
    rewrite List.Forall_forall in IH.
    constructor.
    + rewrite List.flat_map_concat_map, List.concat_map, List.map_map,
        <- List.flat_map_concat_map.
      apply (StronglySorted_flat_map _ _ _ _ (ReadDir_sorted entries Hnd)).
      * intros d1 Hd1. apply (proj1 (In_ReadDir _ _)) in Hd1. auto.
      * intros d1 d2 x y Hlt Hx Hy.
        apply List.in_map_iff in Hx as ([q1 n1] & <- & Hx).
        apply List.in_map_iff in Hy as ([q2 n2] & <- & Hy).
        apply walkDir_prefix in Hx as [r1 ->]. apply walkDir_prefix in Hy as [r2 ->].
        cbn [fst]. rewrite <- !List.app_assoc. apply path_lt_under.
        now apply path_lt_names.
    + rewrite List.Forall_forall. intros q Hq.
      apply List.in_map_iff in Hq as ([q' x] & <- & Hq).
      apply List.in_flat_map in Hq as (d1 & _ & Hq).
      apply walkDir_prefix in Hq as [r ->]. cbn [fst].
      rewrite <- List.app_assoc. apply path_lt_extend. discriminate.
Qed.

Lemma StronglySorted_sublist {A : Type} (R : A -> A -> Prop) (l1 l2 : list A) :
  l1 `sublist_of` l2 -> StronglySorted R l2 -> StronglySorted R l1.
Proof.
  induction 1 as [|x l1 l2 Hsub IH|x l1 l2 Hsub IH]; intros Hs.
  - constructor.
  - apply StronglySorted_inv in Hs as [Hs Hx]. constructor; [auto|].
    rewrite List.Forall_forall in *. intros y Hy. apply Hx.
    apply list_elem_of_In. apply (sublist_subseteq _ _ Hsub). now apply list_elem_of_In.
  - apply StronglySorted_inv in Hs as [Hs _]. auto.
Qed.

Lemma StronglySorted_lookup_lt {A : Type} (R : A -> A -> Prop) (l : list A) :
  StronglySorted R l ->
  forall i j a b, i < j -> l !! i = Some a -> l !! j = Some b -> R a b.
Proof.
  induction 1 as [|x l Hs IH Hx]; intros i j a b Hij Hi Hj; [discriminate|].
  destruct j as [|j]; [lia|]. cbn in Hj.
  destruct i as [|i]; cbn in Hi.
  - inversion Hi; subst. rewrite List.Forall_forall in Hx. apply Hx.
    apply list_elem_of_In. eapply list_elem_of_lookup_2. exact Hj.
  - apply (IH i j); [lia|assumption..].
Qed.

(** ** The log of a run *)

Section LogFacts.

Context {U : Type}.
Variable sql : string -> U -> string + U.
Variable faults : nat -> option string.

Lemma executions_app tr1 tr2 : executions (tr1 ++ tr2) = executions tr1 ++ executions tr2.
Proof. unfold executions. apply List.flat_map_app. Qed.

(** What a walk of the apply step adds to the log: executions in the
    order of the walk, and a failed execution only as the last event,
    with the error that names it. *)
Lemma walk_handle_log migrations known visits : forall (tx : Session U) r tx',
  walk (handle_entry sql faults migrations known) visits tx = (r, tx') ->
  exists evs,
    log tx' = log tx ++ evs /\
    executions evs `sublist_of` List.map (fun v => (fst v, Name (snd v))) visits /\
    forall p name script e, In (Executed p name script (Some e)) evs ->
      r = Some (Errorf "execute migration %q: %w: %w"
                  [Q name; W (DriverError e); W ErrMigrationFailed]) /\
      exists pre, evs = pre ++ [Executed p name script (Some e)].
Proof.
  induction visits as [|[p d] rest IH]; intros tx r tx' H; cbn [walk] in H.
  - inversion H; subst. exists []. rewrite List.app_nil_r.
    split; [reflexivity|]. split; [constructor|]. intros ? ? ? ? [].
  - destruct (handle_entry sql faults migrations known p d None tx) as [r1 s1] eqn:E.
    apply handle_entry_cases in E.
    destruct r1 as [e1|].
    + inversion H; subst r tx'. clear H IH.
      destruct E as [[Hlog _]|[(sc & row & Hr & _)|[(sc & e & Hr & Hlog)|(sc & e & Hr & Hlog)]]].
      * exists []. rewrite List.app_nil_r. split; [exact Hlog|].
        split; [apply sublist_nil_l|]. intros ? ? ? ? [].
      * discriminate.
      * exists [Executed p (Name d) sc None]. split; [exact Hlog|]. split.
        -- cbn. apply sublist_skip, sublist_nil_l.
        -- intros ? ? ? ? [[=]|[]].
      * exists [Executed p (Name d) sc (Some e)]. split; [exact Hlog|]. split.
        -- cbn. apply sublist_skip, sublist_nil_l.
        -- intros p' n' sc' e' [[= <- <- <- <-]|[]]. split; [exact Hr|].
           exists []. reflexivity.
    + destruct (IH _ _ _ H) as (evs & Hlog2 & Hsub & Hfail).
      destruct E as [[Hlog _]|[(sc & row & _ & Hlog)|[(sc & e & Hr & _)|(sc & e & Hr & _)]]];
        try discriminate.
      * exists evs. split; [congruence|]. split.
        -- cbn [List.map]. now apply sublist_cons.
        -- exact Hfail.
      * exists ([Executed p (Name d) sc None; Upserted row] ++ evs). split; [|split].
        -- rewrite Hlog2, Hlog, <- List.app_assoc. reflexivity.
        -- rewrite executions_app. cbn [List.map]. cbn. now apply sublist_skip.
        -- intros p' n' sc' e' Hin. apply List.in_app_or in Hin as [Hin|Hin].
           { destruct Hin as [[=]|[[=]|[]]]. }
           destruct (Hfail _ _ _ _ Hin) as [Hr [pre ->]]. split; [exact Hr|].
           eexists. rewrite List.app_assoc. reflexivity.
Qed.

(** The log of a run is empty, or it is the log of the walk of the apply
    step, whose error, if any, [Migrate] wraps. *)
Lemma Migrate_log migrations (db db' : Database U) err tr :
  Migrate sql faults migrations db = (err, db', tr) ->
  tr = [] \/
  exists known r (tx tx' : Session U),
    walk (handle_entry sql faults migrations known) (walkDir [] (root migrations)) tx
    = (r, tx') /\
    log tx = [] /\ log tx' = tr /\
    forall e, r = Some e -> err = Some (Errorf "walk migrations: %w" [W e]).
Proof.
  unfold Migrate, Migrate_session, db_Conn, conn_BeginTx. intros H.
  destruct (call faults _ (open_session db)) as [[e0|[]] s1] eqn:E1;
    apply call_frame in E1 as (_ & _ & Hl1 & _); cbn [open_session log] in Hl1.
  { inversion H; subst. left. exact Hl1. }
  destruct (call faults _ s1) as [[e1|[]] s2] eqn:E2;
    apply call_frame in E2 as (_ & _ & Hl2 & _).
  { inversion H; subst. left. congruence. }
  assert (Hl2' : log s2 = []) by congruence. clear Hl1 Hl2.
  destruct (Migrate_tx sql faults migrations s2) as [err' s3] eqn:E3.
  inversion H; subst err' db' tr. clear H. rewrite tx_Rollback_log.
  unfold Migrate_tx, tx_Exec_migrationTableQuery, WalkDir in E3.
  destruct (call faults _ s2) as [[e3|[]] s4] eqn:E4;
    apply call_frame in E4 as (_ & _ & Hl4 & _).
  { inversion E3; subst. left. congruence. }
  destruct (checkIfMigrationsAreAltered faults s4 migrations) as [fn s5] eqn:E5.
  assert (Hl5 : log s5 = log s4 /\
                forall r s', walk fn (walkDir [] (root migrations)) s5 = (r, s') -> s' = s5).
  { unfold checkIfMigrationsAreAltered in E5.
    destruct (getMigrationsKnownToDb faults s4) as [[e|known] s] eqn:E;
      apply getMigrationsKnownToDb_frame in E as (_ & _ & Hl & _);
      inversion E5; subst fn s; split; auto.
    - intros r s' Hw.
      destruct (walk_known_failed (walkDir [] (root migrations)) s5
                  (walkDir_nonempty _ _)) as [e' He].
      rewrite He in Hw. now inversion Hw.
    - intros r s' Hw. now apply walk_check_pure in Hw. }
  destruct Hl5 as [Hl5 Hpure].
  destruct (walk fn _ s5) as [[e6|] s6] eqn:E6;
    specialize (Hpure _ _ eq_refl); subst s6.
  { inversion E3; subst. left. congruence. }
  unfold handleMigration in E3.
  destruct (getMigrationsKnownToDb faults s5) as [[e7|known] s7] eqn:E7;
    apply getMigrationsKnownToDb_frame in E7 as (_ & _ & Hl7 & _).
  { destruct (walk_known_failed (walkDir [] (root migrations)) s7
                (walkDir_nonempty _ _)) as [e' He].
    rewrite He in E3. inversion E3; subst. left. congruence. }
  destruct (walk (handle_entry sql faults migrations known) _ s7) as [r s8] eqn:E8.
  right. exists known, r, s7, s8. split; [exact E8|]. split; [congruence|].
  destruct r as [e|].
  - inversion E3; subst. split; [reflexivity|]. intros e' [= <-]. reflexivity.
  - unfold tx_Commit in E3. destruct (faults (calls s8)); inversion E3; subst; cbn;
      split; try reflexivity; intros ? [=].
Qed.

End LogFacts.

(** C5: when the execution of an artifact's script fails, that is the
    last thing the run does: the failed execution ends the log, so the
    artifact is not recorded and no later artifact is executed; the
    database, ledger included, is as before the run; and the returned
    error is [ErrMigrationFailed], wraps the error of the database and
    quotes the artifact's name. *)
Theorem failed_script_stops_run {U : Type} (sql : string -> U -> string + U)
    (faults : nat -> option string) (migrations : FS) (db db' : Database U)
    (err : option error) (tr : list event)
    (p : path) (name script e : string) :
  Migrate sql faults migrations db = (err, db', tr) ->
  In (Executed p name script (Some e)) tr ->
  (exists pre, tr = pre ++ [Executed p name script (Some e)]) /\
  db' = db /\ ledger db' = ledger db /\
  exists failure,
    err = Some failure /\
    failure = Errorf "walk migrations: %w"
                [W (Errorf "execute migration %q: %w: %w"
                      [Q name; W (DriverError e); W ErrMigrationFailed])] /\
    errors_Is failure ErrMigrationFailed = true /\
    errors_Is failure (DriverError e) = true /\
    In name (quoted failure).
Proof.
  intros H Hin.
  destruct (Migrate_log sql faults migrations db db' err tr H)
    as [->|(known & r & tx & tx' & Hwalk & Hl0 & Hl1 & Herr)]; [contradiction|].
  destruct (walk_handle_log sql faults migrations known _ _ _ _ Hwalk)
    as (evs & Hlog & _ & Hfail).
  rewrite Hl0, Hl1 in Hlog. cbn in Hlog. subst evs.
  destruct (Hfail _ _ _ _ Hin) as [Hr Hpre].
  specialize (Herr _ Hr). subst err.
  assert (Hdb : db' = db).
  { unfold Migrate in H.
    destruct (Migrate_session sql faults migrations (open_session db)) as [err s] eqn:E.
    inversion H; subst err db' tr. now apply Migrate_session_error in E. }
  split; [exact Hpre|]. split; [exact Hdb|]. split; [now rewrite Hdb|].
  eexists. split; [reflexivity|]. split; [reflexivity|].
  cbn. rewrite String.eqb_refl. auto.
Qed.

Lemma failed_script_stops_run_witness :
  (exists pre,
     [Executed ["001_init.sql"] "001_init.sql" "CREATE TABLE t(id int);" None;
      Upserted {| MigrationName := "001_init.sql";
                  MigrationHash := hashFile (bytes "CREATE TABLE t(id int);");
                  IsApplied := true |};
      Executed ["002_bad.sql"] "002_bad.sql" "INVALID;"
        (Some "syntax error at or near INVALID")]
     = pre ++ [Executed ["002_bad.sql"] "002_bad.sql" "INVALID;"
                 (Some "syntax error at or near INVALID")]) /\
  empty_db = empty_db /\ ledger empty_db = ledger empty_db /\
  exists failure,
    Some (Errorf "walk migrations: %w"
            [W (Errorf "execute migration %q: %w: %w"
                  [Q "002_bad.sql"; W (DriverError "syntax error at or near INVALID");
                   W ErrMigrationFailed])])
    = Some failure /\
    failure = Errorf "walk migrations: %w"
                [W (Errorf "execute migration %q: %w: %w"
                      [Q "002_bad.sql"; W (DriverError "syntax error at or near INVALID");
                       W ErrMigrationFailed])] /\
    errors_Is failure ErrMigrationFailed = true /\
    errors_Is failure (DriverError "syntax error at or near INVALID") = true /\
    In "002_bad.sql" (quoted failure).
Proof.
  apply (failed_script_stops_run demo_sql no_faults second_invalid empty_db).
  - vm_compute. reflexivity.
  - right. right. left. reflexivity.
Defined.

Lemma StronglySorted_map_inv {A B : Type} (R : B -> B -> Prop) (f : A -> B) (l : list A) :
  StronglySorted R (List.map f l) -> StronglySorted (fun a b => R (f a) (f b)) l.
Proof.
  induction l as [|x l IH]; cbn; intros Hs; [constructor|].
  apply StronglySorted_inv in Hs as [Hs Hx]. constructor; [auto|].
  rewrite List.Forall_forall in *. intros y Hy. apply Hx. now apply List.in_map.
Qed.

(** The executions of a run over a well-formed tree are strictly
    ascending in path. *)
Lemma executions_sorted {U : Type} (sql : string -> U -> string + U)
    (faults : nat -> option string) (migrations : FS) (db db' : Database U)
    (err : option error) (tr : list event) :
  wf_fs migrations = true ->
  Migrate sql faults migrations db = (err, db', tr) ->
  StronglySorted (fun a b => path_lt (fst a) (fst b)) (executions tr).
Proof.
  intros Hwf H.
  destruct (Migrate_log sql faults migrations db db' err tr H)
    as [->|(known & r & tx & tx' & Hwalk & Hl0 & Hl1 & _)]; [constructor|].
  destruct (walk_handle_log sql faults migrations known _ _ _ _ Hwalk)
    as (evs & Hlog & Hsub & _).
  rewrite Hl0, Hl1 in Hlog. cbn in Hlog. subst evs.
  apply (StronglySorted_sublist _ _ _ Hsub).
  apply StronglySorted_map_inv. rewrite List.map_map. cbn [fst].
  exact (walkDir_sorted (root migrations) Hwf []).
Qed.

(** C9, as the code has it: the apply step executes artifacts in the
    order of [fs.WalkDir], which is ascending order of path, compared
    element by element.  Whenever the path of artifact A precedes the
    path of artifact B, A is executed before B. *)
Theorem executed_in_path_order {U : Type} (sql : string -> U -> string + U)
    (faults : nat -> option string) (migrations : FS) (db db' : Database U)
    (err : option error) (tr : list event)
    (i j : nat) (pa pb : path) (na nb : string) :
  wf_fs migrations = true ->
  Migrate sql faults migrations db = (err, db', tr) ->
  executions tr !! i = Some (pa, na) ->
  executions tr !! j = Some (pb, nb) ->
  path_lt pa pb ->
  i < j.
Proof.
  intros Hwf H Hi Hj Hlt.
  pose proof (executions_sorted sql faults migrations db db' err tr Hwf H) as Hs.
  destruct (Nat.lt_trichotomy i j) as [Hij|[->|Hji]]; [exact Hij| |].
  - rewrite Hi in Hj. inversion Hj; subst. now apply path_lt_irrefl in Hlt.
  - pose proof (StronglySorted_lookup_lt _ _ Hs j i _ _ Hji Hj Hi) as Hlt'.
    cbn in Hlt'. exfalso. exact (path_lt_irrefl _ (path_lt_trans _ _ _ Hlt Hlt')).
Qed.

(** In particular, two artifacts of one directory are executed in
    ascending order of name. *)
Lemma executed_in_name_order_in_a_directory {U : Type} (sql : string -> U -> string + U)
    (faults : nat -> option string) (migrations : FS) (db db' : Database U)
    (err : option error) (tr : list event)
    (i j : nat) (dir : path) (na nb : string) :
  wf_fs migrations = true ->
  Migrate sql faults migrations db = (err, db', tr) ->
  executions tr !! i = Some (dir ++ [na], na) ->
  executions tr !! j = Some (dir ++ [nb], nb) ->
  String_as_OT.lt na nb ->
  i < j.
Proof.
  intros Hwf H Hi Hj Hlt.
  pose proof (executions_sorted sql faults migrations db db' err tr Hwf H) as Hs.
  assert (Hp : path_lt (dir ++ [na]) (dir ++ [nb]))
    by now apply path_lt_under, path_lt_names.
  destruct (Nat.lt_trichotomy i j) as [Hij|[->|Hji]]; [exact Hij| |].
  - rewrite Hi in Hj. inversion Hj; subst. now apply path_lt_irrefl in Hp.
  - pose proof (StronglySorted_lookup_lt _ _ Hs j i _ _ Hji Hj Hi) as Hlt'.
    cbn in Hlt'. exfalso. exact (path_lt_irrefl _ (path_lt_trans _ _ _ Hp Hlt')).
Qed.

Lemma executed_in_path_order_witness :
  executions (snd (Migrate demo_sql no_faults nested empty_db))
  = [(["a"; "b.sql"], "b.sql"); (["a.sql"], "a.sql")] /\
  path_lt ["a"; "b.sql"] ["a.sql"] /\
  0 < 1.
Proof.
  split; [vm_compute; reflexivity|]. split; [reflexivity|].
  apply (executed_in_path_order demo_sql no_faults nested empty_db
           (snd (fst (Migrate demo_sql no_faults nested empty_db)))
           (fst (fst (Migrate demo_sql no_faults nested empty_db)))
           (snd (Migrate demo_sql no_faults nested empty_db))
           0 1 ["a"; "b.sql"] ["a.sql"] "b.sql" "a.sql").
  - reflexivity.
  - vm_compute. reflexivity.
  - vm_compute. reflexivity.
  - vm_compute. reflexivity.
  - reflexivity.
Defined.

(** C9 as stated fails: in [nested], [a.sql] precedes [b.sql] by name
    (and precedes [a/b.sql] as a string), and [a/b.sql] is executed
    first. *)
Lemma name_order_counterexample :
  exists (i j : nat) (pa pb : path) (na nb : string),
    executions (snd (Migrate demo_sql no_faults nested empty_db)) !! i = Some (pa, na) /\
    executions (snd (Migrate demo_sql no_faults nested empty_db)) !! j = Some (pb, nb) /\
    String_as_OT.lt na nb /\
    String_as_OT.lt "a.sql" "a/b.sql" /\
    ~ i < j.
Proof.
  exists 1, 0, ["a.sql"], ["a"; "b.sql"], "a.sql", "b.sql".
  split; [vm_compute; reflexivity|]. split; [vm_compute; reflexivity|].
  split; [reflexivity|]. split; [reflexivity|lia].
Qed.


(** C8: in the apply step, with the known migrations read from the
    ledger, a file whose record is applied is skipped, and the session,
    so its ledger row too, is left as it was; a file whose record is not
    applied is read and its script is executed on the transaction.  When
    the server runs the script and the upsert, the callback returns nil,
    the transaction sees the schema the script produced and the record
    of the file applied with the hash of its content, and the log gains
    the execution and the upsert; when the script fails, the callback
    returns the error of the execution, the transaction's view is as it
    was, and the log gains the failed execution. *)
Theorem skip_applied_rerun_unapplied {U : Type} (sql : string -> U -> string + U)
    (faults : nat -> option string) (migrations : FS) (tx0 tx1 : Session U)
    (t : table) (known : list migrationRow) :
  ledger (view tx0) = Some t ->
  getMigrationsKnownToDb faults tx0 = (inr known, tx1) ->
  handleMigration sql faults tx0 migrations
  = (handle_entry sql faults migrations known, tx1) /\
  (forall p name data h (tx : Session U),
     t !! name = Some (Some h, Some true) ->
     handle_entry sql faults migrations known p (File name data) None tx = (None, tx)) /\
  (forall p name data h (tx : Session U),
     t !! name = Some (Some h, Some false) ->
     ReadFile migrations p = inr data ->
     (exists r tx' failure rest,
        handle_entry sql faults migrations known p (File name data) None tx = (r, tx') /\
        log tx' = log tx ++ Executed p name (string_of_list_byte data) failure :: rest) /\
     (forall (u : U) (t1 : table),
        faults (calls tx) = None ->
        sql (string_of_list_byte data) (schema (view tx)) = inr u ->
        faults (S (calls tx)) = None ->
        ledger (view tx) = Some t1 ->
        exists tx',
          handle_entry sql faults migrations known p (File name data) None tx = (None, tx') /\
          view tx' = {| ledger := Some (<[name := (Some (hashFile data), Some true)]> t1);
                        schema := u |} /\
          log tx' = log tx ++
                    [ Executed p name (string_of_list_byte data) None;
                      Upserted {| MigrationName := name; MigrationHash := hashFile data;
                                  IsApplied := true |} ]) /\
     (forall e : string,
        faults (calls tx) = Some e \/
        (faults (calls tx) = None /\
         sql (string_of_list_byte data) (schema (view tx)) = inl e) ->
        exists tx',
          handle_entry sql faults migrations known p (File name data) None tx
          = (Some (Errorf "execute migration %q: %w: %w"
                     [Q name; W (DriverError e); W ErrMigrationFailed]), tx') /\
          view tx' = view tx /\
          log tx' = log tx ++ [Executed p name (string_of_list_byte data) (Some e)])).
Proof.
  intros Hl Hknown.
  destruct (getMigrationsKnownToDb_ok faults tx0 known tx1 Hknown) as (t' & Ht' & Hscan).
  assert (t' = t) by congruence. subst t'.
  split; [unfold handleMigration; now rewrite Hknown|]. split.
  - intros p name data h tx Ht. apply handle_entry_skip.
    apply (pending_applied t); [exact Hscan|]. cbn [Name]. eauto.
  - intros p name data h tx Ht Hread.
    assert (Hp : pending known (File name data) = true).
    { unfold pending. cbn [IsDir Name].
      rewrite (known_lookup t known name Hscan), Ht. reflexivity. }
    rewrite (handle_entry_pending sql faults _ _ _ _ _ _ Hp Hread).
    unfold tx_Exec_script, upsertMigration, tx_Exec_upsert.
    split; [|split].
    + destruct (call faults _ tx) as [[e|[]] s1] eqn:E1;
        apply call_frame in E1 as (_ & _ & Hl1 & _).
      * do 4 eexists. split; [reflexivity|]. cbn. now rewrite Hl1.
      * destruct (call faults _ (note _ s1)) as [[e|[]] s2] eqn:E2;
          apply call_frame in E2 as (_ & _ & Hl2 & _); cbn in Hl2.
        -- do 4 eexists. split; [reflexivity|]. rewrite Hl2, Hl1. reflexivity.
        -- do 4 eexists. split; [reflexivity|]. cbn. rewrite Hl2, Hl1, <- List.app_assoc.
           reflexivity.
    + intros u t1 F0 Hsql F1 Hl1. unfold call. rewrite F0, Hsql.
      cbn [note calls view ledger schema committed done_ log]. rewrite F1, Hl1.
      eexists. split; [reflexivity|].
      cbn [note calls view ledger schema committed done_ log MigrationName MigrationHash
           IsApplied].
      rewrite <- List.app_assoc. split; reflexivity.
    + intros e [F0|[F0 Hsql]]; unfold call; rewrite F0; [|rewrite Hsql];
        (eexists; split; [reflexivity|]; cbn [note view log]; split; reflexivity).
Qed.

Lemma skip_applied_rerun_unapplied_witness :
  (forall tx : Session (list string),
     handle_entry demo_sql no_faults two_files mixed_known
       ["migrations"; "001_init.sql"]
       (File "001_init.sql" (bytes "CREATE TABLE t(id int);")) None tx
     = (None, tx)) /\
  (forall tx : Session (list string),
     exists r tx' failure rest,
       handle_entry demo_sql no_faults two_files mixed_known
         ["migrations"; "002_seed.sql"]
         (File "002_seed.sql" (bytes "INSERT INTO t VALUES (1);")) None tx
       = (r, tx') /\
       log tx' = log tx ++ Executed ["migrations"; "002_seed.sql"] "002_seed.sql"
                             (string_of_list_byte (bytes "INSERT INTO t VALUES (1);"))
                             failure :: rest) /\
  (exists tx' : Session (list string),
     handle_entry demo_sql no_faults two_files mixed_known
       ["migrations"; "002_seed.sql"]
       (File "002_seed.sql" (bytes "INSERT INTO t VALUES (1);")) None mixed_tx
     = (None, tx') /\
     view tx'
     = {| ledger := Some (<["002_seed.sql" :=
                              (Some (hashFile (bytes "INSERT INTO t VALUES (1);")),
                               Some true)]> mixed_ledger);
          schema := ["CREATE TABLE t(id int);"; "INSERT INTO t VALUES (1);"] |} /\
     log tx'
     = log mixed_tx ++
       [ Executed ["migrations"; "002_seed.sql"] "002_seed.sql"
           (string_of_list_byte (bytes "INSERT INTO t VALUES (1);")) None;
         Upserted {| MigrationName := "002_seed.sql";
                     MigrationHash := hashFile (bytes "INSERT INTO t VALUES (1);");
                     IsApplied := true |} ]).
Proof.
  destruct (skip_applied_rerun_unapplied demo_sql no_faults two_files mixed_tx
              (snd (getMigrationsKnownToDb no_faults mixed_tx)) mixed_ledger mixed_known)
    as (_ & Hskip & Hrun).
  - reflexivity.
  - vm_compute. reflexivity.
  - split; [|split].
    + intros tx. apply (Hskip _ _ _ (hashFile (bytes "CREATE TABLE t(id int);"))).
      vm_compute. reflexivity.
    + intros tx.
      apply (Hrun _ _ _ (hashFile (bytes "INSERT INTO t VALUES (1);"))).
      * vm_compute. reflexivity.
      * vm_compute. reflexivity.
    + apply (Hrun ["migrations"; "002_seed.sql"] "002_seed.sql"
               (bytes "INSERT INTO t VALUES (1);")
               (hashFile (bytes "INSERT INTO t VALUES (1);")) mixed_tx).
      * vm_compute. reflexivity.
      * vm_compute. reflexivity.
      * reflexivity.
      * vm_compute. reflexivity.
      * reflexivity.
      * reflexivity.
Defined.

(** ** Where the code departs from its documentation *)

Lemma hashFile_unfold value : hashFile value = sha256_hex (fmt.Appendf_v value).
Proof. reflexivity. Qed.

Lemma length_decimal n : 1 <= length (fmt.decimal n).
Proof.
  unfold fmt.decimal.
  destruct (n <? 10)%N; [|destruct (n <? 100)%N]; cbn [length]; lia.
Qed.

Lemma length_join_decimal value :
  length value <= length (fmt.join_decimal value).
Proof.
  induction value as [|b rest IH]; [cbn; lia|].
  destruct rest as [|b' rest'].
  - apply length_decimal.
  - change (fmt.join_decimal (b :: b' :: rest'))
      with (fmt.decimal (Byte.to_N b) ++ " "%char :: fmt.join_decimal (b' :: rest')).
    rewrite List.length_app.
    pose proof (length_decimal (Byte.to_N b)). cbn [length] in *. lia.
Qed.

(** The message that is hashed is never the content itself: the
    rendering is at least two bytes longer. *)
Lemma Appendf_v_longer value : length value + 2 <= length (fmt.Appendf_v value).
Proof.
  unfold fmt.Appendf_v. rewrite List.length_map. cbn [length].
  rewrite List.length_app. cbn [length]. pose proof (length_join_decimal value). lia.
Qed.

(** C2, on the code: the hash the engine records for the script
    [CREATE TABLE t(id int);] is the SHA-256 of its [%v] rendering,
    [[67 82 69 ...]], and differs from the SHA-256 of its bytes. *)
Theorem hashFile_hashes_the_rendering :
  hashFile (bytes "CREATE TABLE t(id int);")
  = "62e23fa2c4da8d6270e0f366735fda9cc8f745b53eb8f49bf817511e4d85e411" /\
  sha256_hex (bytes "CREATE TABLE t(id int);")
  = "c2547c631a5aa8c92a00d05232f70aef43987b41b745d8ba65bd16496c228761" /\
  hashFile (bytes "CREATE TABLE t(id int);")
  = sha256_hex (bytes "[67 82 69 65 84 69 32 84 65 66 76 69 32 116 40 105 100 32 105 110 116 41 59]") /\
  hashFile (bytes "CREATE TABLE t(id int);") <> sha256_hex (bytes "CREATE TABLE t(id int);").
Proof.
  split; [vm_compute; reflexivity|]. split; [vm_compute; reflexivity|].
  split; [vm_compute; reflexivity|]. vm_compute. discriminate.
Qed.

(** C6, on the code: [Migrate] returns [ErrMigrationFileChanged] for any
    error of the integrity check.  With the ledger of [two_files] intact
    and a deadline that passes after the table query, the read of the
    ledger fails and the run reports a changed file although no file
    differs from its record; and when a file did change, the error that
    is returned quotes no name. *)
Theorem check_failure_reported_as_file_changed :
  Migrate demo_sql (deadline_after 3) two_files migrated_db
  = (Some ErrMigrationFileChanged, migrated_db, []) /\
  (forall p name data, In (p, name, data) (artifacts two_files) ->
     migrated_ledger !! name = Some (Some (hashFile data), Some true)) /\
  fst (getMigrationsKnownToDb (deadline_after 3)
         {| committed := migrated_db; view := migrated_db; done_ := false;
            calls := 3; log := [] |})
  = inl (Errorf "query migrations: %w" [W (DriverError "context deadline exceeded")]) /\
  Migrate demo_sql no_faults two_files_changed migrated_db
  = (Some ErrMigrationFileChanged, migrated_db, []) /\
  quoted ErrMigrationFileChanged = [].
Proof.
  split; [vm_compute; reflexivity|]. split.
  - intros p name data Hin. vm_compute in Hin.
    destruct Hin as [[= <- <- <-]|[[= <- <- <-]|[]]]; vm_compute; reflexivity.
  - split; [vm_compute; reflexivity|]. split; [vm_compute; reflexivity|reflexivity].
Qed.

(** ** Test vectors and scenarios *)

Example K_ends : List.nth 0 SHA256.K 0%N = 0x428a2f98%N /\ List.nth 63 SHA256.K 0%N = 0xc67178f2%N.
Proof. split; reflexivity. Qed.

Example H0_ends : List.nth 0 SHA256.H0 0%N = 0x6a09e667%N /\ List.nth 7 SHA256.H0 0%N = 0x5be0cd19%N.
Proof. split; reflexivity. Qed.

Example primes_64 : length SHA256.primes = 64 /\ List.last SHA256.primes 0%N = 311%N.
Proof. split; vm_compute; reflexivity. Qed.

Example sha256_empty :
  sha256_hex [] = "e3b0c44298fc1c149afbf4c8996fb92427ae41e4649b934ca495991b7852b855".
Proof. vm_compute. reflexivity. Qed.

Example sha256_abc :
  sha256_hex (bytes "abc") = "ba7816bf8f01cfea414140de5dae2223b00361a396177a9cb410ff61f20015ad".
Proof. vm_compute. reflexivity. Qed.

Example sha256_two_blocks :
  sha256_hex (bytes "abcdbcdecdefdefgefghfghighijhijkijkljklmklmnlmnomnopnopq")
  = "248d6a61d20638b8e5c026930c3e6039a33ce45964ff2167f6ecedd419db06c1".
Proof. vm_compute. reflexivity. Qed.

Example Appendf_v_abc : fmt.Appendf_v (bytes "abc") = bytes "[97 98 99]".
Proof. vm_compute. reflexivity. Qed.

Example Appendf_v_empty : fmt.Appendf_v [] = bytes "[]".
Proof. vm_compute. reflexivity. Qed.

Example hashFile_abc :
  hashFile (bytes "abc") = "cb7c2bd970111474339ec0550c11640e599ebed5da82c1fbdc8aa460c06afa40".
Proof. vm_compute. reflexivity. Qed.

Example hashFile_empty :
  hashFile [] = "4f53cda18c2baa0c0354bb5f9a3ecbe5ed12ab4d8e11ba873c2f11161202b945".
Proof. vm_compute. reflexivity. Qed.

(** The walk lists a directory before its entries and a directory's
    entries by name, whatever the order they were given in. *)
Example walk_two_files :
  List.map fst (walkDir [] (root two_files))
  = [ []; ["migrations"]; ["migrations"; "001_init.sql"]; ["migrations"; "002_seed.sql"] ].
Proof. vm_compute. reflexivity. Qed.

Example walk_nested :
  List.map fst (walkDir [] (root nested)) = [ []; ["a"]; ["a"; "b.sql"]; ["a.sql"] ].
Proof. vm_compute. reflexivity. Qed.

(** The spec's scenario: two scripts against an empty database. *)
Example first_run :
  Migrate demo_sql no_faults two_files empty_db = (None, migrated_db, two_files_log).
Proof. vm_compute. reflexivity. Qed.

Example second_run :
  Migrate demo_sql no_faults two_files migrated_db = (None, migrated_db, []).
Proof. vm_compute. reflexivity. Qed.

(** No connection: the error wraps the driver's, nothing else happens. *)
Example no_connection :
  Migrate demo_sql (deadline_after 0) two_files empty_db
  = (Some (Errorf "get connection: %w" [W (DriverError "context deadline exceeded")]),
     empty_db, []).
Proof. vm_compute. reflexivity. Qed.

(** A commit that fails: both scripts ran, and nothing is kept. *)
Example commit_fails :
  fst (Migrate demo_sql (deadline_after 9) two_files empty_db)
  = (Some (Errorf "commit transaction: %w" [W (DriverError "context deadline exceeded")]),
     empty_db).
Proof. vm_compute. reflexivity. Qed.

(** A record that is not applied and whose hash matches: the script is
    run again and the record becomes applied. *)
Example unapplied_is_rerun :
  Migrate demo_sql no_faults one_file unapplied_db
  = (None,
     {| ledger := Some (<["001_init.sql" := applied_row (bytes "CREATE TABLE t(id int);")]> ∅);
        schema := ["CREATE TABLE t(id int);"] |},
     [ Executed ["001_init.sql"] "001_init.sql" "CREATE TABLE t(id int);" None;
       Upserted {| MigrationName := "001_init.sql";
                   MigrationHash := hashFile (bytes "CREATE TABLE t(id int);");
                   IsApplied := true |} ]).
Proof. vm_compute. reflexivity. Qed.

(** Why [completeness] and the second half of [idempotence] ask for
    distinct names: the ledger is keyed by base name, so two files of one
    name share a record, which holds the hash of the one walked last, and
    the next run finds the other one altered. *)
Example same_name_first_run :
  let '(err, db, tr) := Migrate demo_sql no_faults same_name_twice empty_db in
  err = None /\
  ledger db = Some (<["x.sql" := applied_row (bytes "CREATE TABLE b(id int);")]> ∅) /\
  executions tr = [(["a"; "x.sql"], "x.sql"); (["b"; "x.sql"], "x.sql")].
Proof. vm_compute. auto. Qed.

Example same_name_second_run :
  let '(_, db, _) := Migrate demo_sql no_faults same_name_twice empty_db in
  Migrate demo_sql no_faults same_name_twice db = (Some ErrMigrationFileChanged, db, []).
Proof. vm_compute. reflexivity. Qed.

(** * Further facts about the code *)

(** ** The hasher *)

Lemma length_be_bytes n x : length (SHA256.be_bytes n x) = n.
Proof. induction n as [|n IH]; cbn; [reflexivity|now rewrite IH]. Qed.

Lemma be_bytes_small n x b : In b (SHA256.be_bytes n x) -> (b < 256)%N.
Proof.
  induction n as [|n IH]; cbn; [contradiction|]. intros [<-|Hin]; [|auto].
  change 255%N with (N.ones 8). rewrite N.land_ones.
  apply N.mod_lt. discriminate.
Qed.

Lemma length_Sum msg : length (SHA256.Sum msg) = 32.
Proof.
  unfold SHA256.Sum, SHA256.digest_bytes. cbn [List.flat_map].
  rewrite !List.length_app, !length_be_bytes. reflexivity.
Qed.

Lemma Sum_small msg b : In b (SHA256.Sum msg) -> (b < 256)%N.
Proof.
  unfold SHA256.Sum, SHA256.digest_bytes. intros Hin.
  apply List.in_flat_map in Hin as (w & _ & Hin). eapply be_bytes_small, Hin.
Qed.

Lemma hexdigit_is_hex n : (n < 16)%N -> is_hex (fmt.hexdigit n) = true.
Proof.
  intros Hn.
  assert (H : In n (List.map N.of_nat (List.seq 0 16))).
  { apply List.in_map_iff. exists (N.to_nat n). split; [lia|].
    apply List.in_seq. lia. }
  cbn in H. repeat (destruct H as [<-|H]; [reflexivity|]). contradiction.
Qed.

Lemma Sprintf_x_hex bs :
  (forall b, In b bs -> (b < 256)%N) ->
  String.length (fmt.Sprintf_x bs) = 2 * length bs /\
  List.forallb is_hex (list_ascii_of_string (fmt.Sprintf_x bs)) = true.
Proof.
  induction bs as [|b bs IH]; intros Hsmall; [split; reflexivity|].
  destruct IH as [IHl IHh]; [intros x Hx; apply Hsmall; now right|].
  assert (Hb : (b < 256)%N) by (apply Hsmall; now left).
  cbn [fmt.Sprintf_x String.length list_ascii_of_string List.forallb length].
  split; [lia|].
  rewrite IHh, !hexdigit_is_hex; [reflexivity| |].
  - apply N.mod_lt. discriminate.
  - apply N.Div0.div_lt_upper_bound. exact Hb.
Qed.

(** X1: whatever the content, [hashFile] returns 64 characters, all of
    them lower-case hexadecimal digits: the digest fills the column
    [migration_hash VARCHAR(64)] exactly. *)
Theorem hashFile_is_64_hex_digits (value : list byte) :
  String.length (hashFile value) = 64 /\
  List.forallb is_hex (list_ascii_of_string (hashFile value)) = true.
Proof.
  unfold hashFile.
  destruct (Sprintf_x_hex (SHA256.Sum (fmt.Appendf_v value))) as [Hl Hh].
  - apply Sum_small.
  - rewrite Hl, length_Sum. split; [reflexivity|exact Hh].
Qed.

Lemma decimal_no_space b :
  List.forallb (fun c => negb (Ascii.eqb c " ")) (fmt.decimal (Byte.to_N b)) = true.
Proof. destruct b; reflexivity. Qed.

Lemma decimal_not_In_space b : ~ In " "%char (fmt.decimal (Byte.to_N b)).
Proof.
  intros Hin. pose proof (decimal_no_space b) as H.
  rewrite List.forallb_forall in H. specialize (H _ Hin). discriminate.
Qed.

Lemma undecimal_decimal b : undecimal (fmt.decimal (Byte.to_N b)) = Byte.to_N b.
Proof. destruct b; reflexivity. Qed.

Lemma decimal_injective b b' :
  fmt.decimal (Byte.to_N b) = fmt.decimal (Byte.to_N b') -> b = b'.
Proof.
  intros H. apply (f_equal undecimal) in H. rewrite !undecimal_decimal in H.
  apply (f_equal Byte.of_N) in H. rewrite !Byte.of_to_N in H. now inversion H.
Qed.

Lemma split_at_first {A : Type} (c : A) : forall l1 l2 r1 r2,
  ~ In c l1 -> ~ In c l2 -> l1 ++ c :: r1 = l2 ++ c :: r2 -> l1 = l2 /\ r1 = r2.
Proof.
  induction l1 as [|x l1 IH]; intros [|y l2] r1 r2 H1 H2 Heq; cbn in Heq.
  - now inversion Heq.
  - inversion Heq; subst. exfalso. apply H2. now left.
  - inversion Heq; subst. exfalso. apply H1. now left.
  - inversion Heq; subst.
    destruct (IH l2 r1 r2) as [-> ->]; auto.
    + intros Hin. apply H1. now right.
    + intros Hin. apply H2. now right.
Qed.

Lemma join_decimal_cons b b' rest :
  fmt.join_decimal (b :: b' :: rest)
  = fmt.decimal (Byte.to_N b) ++ " "%char :: fmt.join_decimal (b' :: rest).
Proof. reflexivity. Qed.

Lemma join_decimal_no_space_head b rest :
  exists c tl, fmt.join_decimal (b :: rest) = c :: tl.
Proof.
  pose proof (length_decimal (Byte.to_N b)) as Hlen.
  destruct rest as [|b' rest].
  - cbn [fmt.join_decimal]. destruct (fmt.decimal (Byte.to_N b)); cbn in Hlen; [lia|eauto].
  - rewrite join_decimal_cons.
    destruct (fmt.decimal (Byte.to_N b)); cbn in Hlen; [lia|]. cbn. eauto.
Qed.

Lemma join_decimal_injective a : forall b,
  fmt.join_decimal a = fmt.join_decimal b -> a = b.
Proof.
  induction a as [|x ra IH]; intros [|y rb] H.
  - reflexivity.
  - destruct (join_decimal_no_space_head y rb) as (c & tl & E).
    rewrite E in H. discriminate.
  - destruct (join_decimal_no_space_head x ra) as (c & tl & E).
    rewrite E in H. discriminate.
  - destruct ra as [|x' ra], rb as [|y' rb].
    + cbn [fmt.join_decimal] in H. now apply decimal_injective in H as ->.
    + rewrite join_decimal_cons in H.
      change (fmt.join_decimal [x]) with (fmt.decimal (Byte.to_N x)) in H.
      exfalso. apply (decimal_not_In_space x). rewrite H.
      apply List.in_or_app. right. now left.
    + rewrite join_decimal_cons in H.
      change (fmt.join_decimal [y]) with (fmt.decimal (Byte.to_N y)) in H.
      exfalso. apply (decimal_not_In_space y). rewrite <- H.
      apply List.in_or_app. right. now left.
    + rewrite !join_decimal_cons in H.
      apply split_at_first in H as [Hd Hr];
        [|apply decimal_not_In_space|apply decimal_not_In_space].
      apply decimal_injective in Hd as ->. now rewrite (IH _ Hr).
Qed.

Lemma map_byte_of_ascii_injective l : forall l',
  List.map byte_of_ascii l = List.map byte_of_ascii l' -> l = l'.
Proof.
  induction l as [|c l IH]; intros [|c' l'] H; try discriminate; [reflexivity|].
  cbn in H. inversion H as [[Hc Hl]].
  apply (f_equal ascii_of_byte) in Hc. rewrite !ascii_of_byte_of_ascii in Hc.
  subst. now rewrite (IH _ Hl).
Qed.

(** X2: the text that [hashFile] hashes determines the content: two
    contents with the same [%v] rendering are the same bytes.  Two
    different files can therefore share a recorded hash only through a
    collision of SHA-256 itself. *)
Theorem Appendf_v_injective (a b : list byte) :
  fmt.Appendf_v a = fmt.Appendf_v b -> a = b.
Proof.
  unfold fmt.Appendf_v. intros H.
  apply map_byte_of_ascii_injective in H. inversion H as [Hj].
  apply List.app_inj_tail in Hj as [Hj _].
  now apply join_decimal_injective.
Qed.

Lemma Appendf_v_injective_witness :
  fmt.Appendf_v (bytes "a b") = fmt.Appendf_v [x61; x20; x62] /\
  bytes "a b" = [x61; x20; x62].
Proof.
  assert (H : fmt.Appendf_v (bytes "a b") = fmt.Appendf_v [x61; x20; x62])
    by (vm_compute; reflexivity).
  split; [exact H|]. exact (Appendf_v_injective _ _ H).
Defined.

(** ** The ledger helpers *)

(** X3: [findMigrationByName] returns the first row of the slice that
    bears the name, with [true]; when no row bears it, the zero row with
    [false]. *)
Theorem findMigrationByName_first_match (migrations : list migrationRow) (name : string) :
  match findMigrationByName migrations name with
  | (migration, true) =>
      MigrationName migration = name /\
      exists before after,
        migrations = before ++ migration :: after /\
        forall r, In r before -> MigrationName r <> name
  | (migration, false) =>
      migration = zero_row /\
      forall r, In r migrations -> MigrationName r <> name
  end.
Proof.
  induction migrations as [|m rest IH]; cbn [findMigrationByName].
  - split; [reflexivity|]. intros r [].
  - destruct (String.eqb_spec (MigrationName m) name) as [Heq|Hne].
    + split; [exact Heq|]. exists [], rest. split; [reflexivity|]. intros r [].
    + destruct (findMigrationByName rest name) as [found [|]].
      * destruct IH as [Hname (before & after & -> & Hbefore)].
        split; [exact Hname|]. exists (m :: before), after. split; [reflexivity|].
        intros r [<-|Hr]; auto.
      * destruct IH as [Hzero Hnone]. split; [exact Hzero|].
        intros r [<-|Hr]; auto.
Qed.

Lemma scan_rows_Forall2 rows : forall known,
  scan_rows rows = inr known ->
  Forall2 (fun r m => r = (MigrationName m, (Some (MigrationHash m), Some (IsApplied m))))
    rows known.
Proof.
  induction rows as [|[n [[h|] [a|]]] rest IH]; intros known H; cbn in H;
    try discriminate.
  - inversion H. constructor.
  - destruct (scan_rows rest) as [|known'] eqn:E; [discriminate|].
    inversion H; subst. constructor; [reflexivity|]. now apply IH.
Qed.

Lemma scan_rows_null rows n v :
  In (n, v) rows -> fst v = None \/ snd v = None ->
  exists e, scan_rows rows = inl e.
Proof.
  induction rows as [|[n' [[h|] [a|]]] rest IH]; intros Hin Hnull; [contradiction| | | |];
    cbn [scan_rows Scan]; eauto.
  destruct Hin as [[= -> <-]|Hin]; [cbn in Hnull; destruct Hnull; discriminate|].
  destruct (IH Hin Hnull) as [e ->]. eauto.
Qed.

Lemma scan_rows_In rows known :
  Forall2 (fun r m => r = (MigrationName m, (Some (MigrationHash m), Some (IsApplied m))))
    rows known ->
  forall name hash applied,
    In {| MigrationName := name; MigrationHash := hash; IsApplied := applied |} known
    <-> (name, (Some hash, Some applied)) ∈ rows.
Proof.
  induction 1 as [|r m rows known Hr _ IH]; intros name hash applied.
  - split; [intros []|intros H; inversion H].
  - rewrite elem_of_cons, <- IH. cbn [In]. subst r.
    assert (Hm : m = {| MigrationName := name; MigrationHash := hash; IsApplied := applied |}
                 <-> (name, (Some hash, Some applied))
                     = (MigrationName m, (Some (MigrationHash m), Some (IsApplied m)))).
    { destruct m as [n h a]. cbn. split; intros H; inversion H; reflexivity. }
    rewrite Hm. reflexivity.
Qed.

Lemma scan_rows_names rows known :
  Forall2 (fun r m => r = (MigrationName m, (Some (MigrationHash m), Some (IsApplied m))))
    rows known ->
  List.map MigrationName known = List.map fst rows.
Proof.
  induction 1 as [|r m rows known Hr _ IH]; [reflexivity|].
  cbn [List.map]. rewrite IH, Hr. reflexivity.
Qed.

Lemma scan_rows_error rows : forall e,
  scan_rows rows = inl e ->
  exists name v, In (name, v) rows /\ (fst v = None \/ snd v = None).
Proof.
  induction rows as [|[n [h a]] rest IH]; intros e; cbn [scan_rows]; [discriminate|].
  intros H. destruct h as [h|]; [|exists n, (None, a); split; [now left|now left]].
  destruct a as [a|]; [|exists n, (Some h, None); split; [now left|now right]].
  destruct (scan_rows rest) as [e'|known] eqn:E.
  - destruct (IH e' eq_refl) as (name & v & Hin & Hnull).
    exists name, v. split; [now right|exact Hnull].
  - cbn in H. discriminate.
Qed.

(** X4: what a read of the ledger returns is what the cursor delivered.
    On a cursor over the table, whether the iteration ran to the end or
    was cut short, [getMigrationsKnownToDb] fails only on a delivered
    row with a NULL, with the error of [Scan]; otherwise it returns, with
    a nil error, one row for each delivered record: no name twice, every
    row the record stored under its name.  The slice is the whole table
    when the iteration ended without an error; [rows.Err()] is never
    reported, so a read that was cut short returns a part of the table
    as if it were all of it. *)
Theorem getMigrationsKnownToDb_returns_the_rows_delivered (t : table) (rows : Rows) :
  cursor_of t rows ->
  match getMigrationsKnownToDb_rows rows with
  | inr known =>
      length known = length (delivered rows) /\
      length known <= size t /\
      List.NoDup (List.map MigrationName known) /\
      (forall name hash applied,
         In {| MigrationName := name; MigrationHash := hash; IsApplied := applied |} known
         <-> In (name, (Some hash, Some applied)) (delivered rows)) /\
      (forall name hash applied,
         In {| MigrationName := name; MigrationHash := hash; IsApplied := applied |} known
         -> t !! name = Some (Some hash, Some applied)) /\
      (Err rows = None ->
       length known = size t /\
       forall name hash applied,
         t !! name = Some (Some hash, Some applied) ->
         In {| MigrationName := name; MigrationHash := hash; IsApplied := applied |} known)
  | inl e =>
      exists name v x,
        In (name, v) (delivered rows) /\ (fst v = None \/ snd v = None) /\
        e = Errorf "scan migration row: %w" [W (DriverError x)]
  end.
Proof.
  intros (rest & Hperm & Hwhole). unfold getMigrationsKnownToDb_rows.
  destruct (scan_rows (delivered rows)) as [x|known] eqn:Hscan.
  { destruct (scan_rows_error _ _ Hscan) as (name & v & Hin & Hnull).
    exists name, v, x. auto. }
  pose proof (scan_rows_Forall2 _ _ Hscan) as HF.
  pose proof (Forall2_length _ _ _ HF) as Hlen.
  pose proof (Permutation_length Hperm) as Hsize.
  rewrite List.length_app, length_map_to_list in Hsize.
  assert (Hin : forall name hash applied,
            In {| MigrationName := name; MigrationHash := hash; IsApplied := applied |} known
            <-> In (name, (Some hash, Some applied)) (delivered rows)).
  { intros name hash applied. rewrite (scan_rows_In _ _ HF). apply list_elem_of_In. }
  assert (Htable : forall r, In r (delivered rows ++ rest) <-> t !! fst r = Some (snd r)).
  { intros [n v]. cbn [fst snd]. rewrite <- elem_of_map_to_list, list_elem_of_In.
    split; apply Permutation_in; [exact Hperm|symmetry; exact Hperm]. }
  split; [now symmetry|]. split; [lia|]. split; [|split; [exact Hin|split]].
  - rewrite (scan_rows_names _ _ HF).
    assert (Hnd : List.NoDup (List.map fst (delivered rows ++ rest))).
    { apply (Permutation_NoDup (l := List.map fst (map_to_list t))).
      - apply Permutation_map. symmetry. exact Hperm.
      - apply NoDup_ListNoDup. exact (NoDup_fst_map_to_list t). }
    rewrite List.map_app in Hnd. exact (List.NoDup_app_remove_r _ _ Hnd).
  - intros name hash applied Hk. apply Hin in Hk.
    apply (Htable (name, (Some hash, Some applied))). apply List.in_or_app. now left.
  - intros Hnone. rewrite (Hwhole Hnone) in Hsize, Htable.
    rewrite List.app_nil_r in Htable. cbn in Hsize. split; [lia|].
    intros name hash applied Ht. apply Hin.
    apply (Htable (name, (Some hash, Some applied))). exact Ht.
Qed.

Lemma getMigrationsKnownToDb_returns_the_rows_delivered_witness :
  cursor_of migrated_ledger cut_short /\
  Err cut_short = Some "context deadline exceeded" /\
  size migrated_ledger = 2 /\
  exists known,
    getMigrationsKnownToDb_rows cut_short = inr known /\
    length known = 1 /\
    forall name hash applied,
      In {| MigrationName := name; MigrationHash := hash; IsApplied := applied |} known ->
      migrated_ledger !! name = Some (Some hash, Some applied).
Proof.
  assert (Hc : cursor_of migrated_ledger cut_short).
  { exists (List.skipn 1 (map_to_list migrated_ledger)). split; [|discriminate].
    unfold cut_short. cbn [delivered]. rewrite List.firstn_skipn. reflexivity. }
  assert (E : getMigrationsKnownToDb_rows cut_short
              = inr [ {| MigrationName := "001_init.sql";
                         MigrationHash := hashFile (bytes "CREATE TABLE t(id int);");
                         IsApplied := true |} ]) by (vm_compute; reflexivity).
  split; [exact Hc|]. split; [reflexivity|]. split; [vm_compute; reflexivity|].
  pose proof (getMigrationsKnownToDb_returns_the_rows_delivered migrated_ledger cut_short Hc)
    as H.
  rewrite E in H. destruct H as (_ & _ & _ & _ & Htable & _).
  eexists. split; [exact E|]. split; [reflexivity|exact Htable].
Defined.

Section LedgerReadFacts.

Context {U : Type}.
Variable faults : nat -> option string.

(** The engine's read is the loop on the cursor of a query whose
    iteration ran to the end. *)
Lemma getMigrationsKnownToDb_whole_cursor (tx : Session U) :
  getMigrationsKnownToDb faults tx
  = match tx_Query_migrations faults tx with
    | (inl err, tx') => (inl (Errorf "query migrations: %w" [W (DriverError err)]), tx')
    | (inr rows, tx') =>
        (getMigrationsKnownToDb_rows {| delivered := rows; Err := None |}, tx')
    end.
Proof.
  unfold getMigrationsKnownToDb, getMigrationsKnownToDb_rows. cbn [delivered].
  destruct (tx_Query_migrations faults tx) as [[err|rows] tx']; [reflexivity|].
  destruct (scan_rows rows); reflexivity.
Qed.

(** X5: a NULL in either column of any record makes the read of the
    ledger fail with the error of [Scan], whatever the other records
    are. *)
Theorem getMigrationsKnownToDb_fails_on_NULL (tx : Session U) (t : table)
    (name : string) (v : option string * option bool) :
  faults (calls tx) = None ->
  ledger (view tx) = Some t ->
  t !! name = Some v ->
  fst v = None \/ snd v = None ->
  exists e tx',
    getMigrationsKnownToDb faults tx
    = (inl (Errorf "scan migration row: %w" [W (DriverError e)]), tx') /\
    view tx' = view tx /\ log tx' = log tx.
Proof.
  intros Hf Hl Ht Hnull.
  destruct (scan_rows_null (map_to_list t) name v) as [e He]; [|exact Hnull|].
  { apply list_elem_of_In, elem_of_map_to_list. exact Ht. }
  unfold getMigrationsKnownToDb, tx_Query_migrations, call.
  rewrite Hf, Hl, He. do 2 eexists. split; [reflexivity|]. cbn. auto.
Qed.

End LedgerReadFacts.

Lemma getMigrationsKnownToDb_fails_on_NULL_witness :
  exists e tx',
    getMigrationsKnownToDb no_faults (open_session null_hash_db)
    = (inl (Errorf "scan migration row: %w" [W (DriverError e)]), tx') /\
    view tx' = view (open_session null_hash_db) /\
    log tx' = log (open_session null_hash_db).
Proof.
  apply (getMigrationsKnownToDb_fails_on_NULL no_faults (open_session null_hash_db)
           null_hash_ledger "000_manual.sql" (None, Some false)).
  - reflexivity.
  - reflexivity.
  - vm_compute. reflexivity.
  - left. reflexivity.
Defined.

Lemma known_of_lookup (t : table) name :
  (forall n v, t !! n = Some v -> exists h a, v = (Some h, Some a)) ->
  findMigrationByName (known_of t) name =
    match t !! name with
    | Some v => scanned name v
    | None => (zero_row, false)
    end.
Proof.
  intros Hrows. unfold known_of.
  destruct (scan_rows_total (map_to_list t)) as [known Hscan].
  { intros [n v] Hin. apply list_elem_of_In, elem_of_map_to_list in Hin. cbn. eauto. }
  rewrite Hscan. now apply known_lookup.
Qed.

Section UpsertFacts.

Context {U : Type}.
Variable faults : nat -> option string.

(** X6: a row that [upsertMigration] wrote is the row the engine reads
    back: for a migration whose name and hash fit the columns of the
    table, after a successful upsert, [getMigrationsKnownToDb] followed
    by [findMigrationByName] finds exactly the migration given, whether
    its name was in the ledger before or not, and finds every other name
    as it was. *)
Theorem upsertMigration_then_find (tx : Session U) (t : table) (migration : migrationRow) :
  fits_columns migration = true ->
  faults (calls tx) = None ->
  faults (S (calls tx)) = None ->
  ledger (view tx) = Some t ->
  (forall n v, t !! n = Some v -> exists h a, v = (Some h, Some a)) ->
  exists tx1 known tx2,
    upsertMigration faults migration tx = (None, tx1) /\
    log tx1 = log tx ++ [Upserted migration] /\
    schema (view tx1) = schema (view tx) /\
    getMigrationsKnownToDb faults tx1 = (inr known, tx2) /\
    findMigrationByName known (MigrationName migration) = (migration, true) /\
    forall name, name <> MigrationName migration ->
      findMigrationByName known name = findMigrationByName (known_of t) name.
Proof.
  intros _ Hf0 Hf1 Hl Hrows.
  set (t1 := <[MigrationName migration :=
                 (Some (MigrationHash migration), Some (IsApplied migration))]> t).
  assert (Hrows1 : forall n v, t1 !! n = Some v -> exists h a, v = (Some h, Some a)).
  { intros n v. unfold t1. destruct (decide (MigrationName migration = n)) as [<-|Hne].
    - rewrite lookup_insert_eq. intros [= <-]. eauto.
    - rewrite lookup_insert_ne by exact Hne. apply Hrows. }
  destruct (scan_rows_total (map_to_list t1)) as [known Hscan].
  { intros [n v] Hin. apply list_elem_of_In, elem_of_map_to_list in Hin. cbn. eauto. }
  unfold upsertMigration, tx_Exec_upsert, call. rewrite Hf0, Hl.
  eexists _, known, _. split; [reflexivity|].
  split; [reflexivity|]. split; [reflexivity|].
  unfold getMigrationsKnownToDb, tx_Query_migrations, call.
  cbn [note calls view ledger]. rewrite Hf1. fold t1. rewrite Hscan.
  split; [reflexivity|]. split.
  - rewrite (known_lookup t1 known _ Hscan). unfold t1. rewrite lookup_insert_eq.
    destruct migration; reflexivity.
  - intros name Hne. rewrite (known_lookup t1 known _ Hscan), (known_of_lookup t name Hrows).
    unfold t1. rewrite lookup_insert_ne by congruence. reflexivity.
Qed.

End UpsertFacts.

Lemma upsertMigration_then_find_witness :
  exists tx1 known tx2,
    upsertMigration no_faults
      {| MigrationName := "002_seed.sql"; MigrationHash := "00"; IsApplied := true |}
      mixed_tx = (None, tx1) /\
    log tx1 = log mixed_tx ++
      [Upserted {| MigrationName := "002_seed.sql"; MigrationHash := "00";
                   IsApplied := true |}] /\
    schema (view tx1) = schema (view mixed_tx) /\
    getMigrationsKnownToDb no_faults tx1 = (inr known, tx2) /\
    findMigrationByName known "002_seed.sql"
    = ({| MigrationName := "002_seed.sql"; MigrationHash := "00"; IsApplied := true |},
       true) /\
    forall name, name <> "002_seed.sql" ->
      findMigrationByName known name = findMigrationByName (known_of mixed_ledger) name.
Proof.
  apply (upsertMigration_then_find no_faults mixed_tx mixed_ledger
           {| MigrationName := "002_seed.sql"; MigrationHash := "00"; IsApplied := true |}).
  - reflexivity.
  - reflexivity.
  - reflexivity.
  - reflexivity.
  - intros n v. unfold mixed_ledger, applied_row.
    destruct (decide ("001_init.sql" = n)) as [<-|Hne1].
    + rewrite lookup_insert_eq. intros [= <-]. eauto.
    + rewrite lookup_insert_ne by exact Hne1.
      destruct (decide ("002_seed.sql" = n)) as [<-|Hne2].
      * rewrite lookup_insert_eq. intros [= <-]. eauto.
      * rewrite lookup_insert_ne by exact Hne2. rewrite lookup_empty. discriminate.
Defined.

(** ** The integrity check, in full *)

Section CheckFacts.

Context {U : Type}.
Variable faults : nat -> option string.

(** The walk of the check over entries whose files can be read: it
    passes when every file with a known record has the stored hash, and
    otherwise stops at the first file that has not, with the error that
    quotes its name. *)
Lemma walk_check_result migrations known visits (tx : Session U) :
  (forall p n data, In (p, File n data) visits -> ReadFile migrations p = inr data) ->
  (walk (check_entry migrations known) visits tx = (None, tx) /\
   forall p n data m, In (p, File n data) visits ->
     findMigrationByName known n = (m, true) -> MigrationHash m = hashFile data)
  \/
  (exists before p n data after m,
     visits = before ++ (p, File n data) :: after /\
     findMigrationByName known n = (m, true) /\
     MigrationHash m <> hashFile data /\
     (forall p' n' data' m', In (p', File n' data') before ->
        findMigrationByName known n' = (m', true) -> MigrationHash m' = hashFile data') /\
     walk (check_entry migrations known) visits tx
     = (Some (Errorf "migration %q has been altered" [Q n]), tx)).
Proof.
  induction visits as [|[p d] rest IH]; intros Hread.
  - left. split; [reflexivity|]. intros ? ? ? ? [].
  - assert (Hread' : forall q n b, In (q, File n b) rest -> ReadFile migrations q = inr b)
      by (intros q n b Hin; apply (Hread q n b); now right).
    specialize (IH Hread'). cbn [walk].
    destruct d as [name data|name entries].
    + destruct (findMigrationByName known name) as [m ok] eqn:Hfind. destruct ok.
      * rewrite (check_entry_known _ _ _ _ _ _ _ Hfind (Hread p name data (or_introl eq_refl))).
        destruct (String.eqb_spec (hashFile data) (MigrationHash m)) as [Heq|Hne].
        -- destruct IH as [[Hw Hall]|(before & q & n & b & after & m' & -> & Hf & Hd & Hb & Hw)].
           ++ left. split; [exact Hw|]. intros q n b m' [[= -> -> ->]|Hin] Hf; [|eauto].
              rewrite Hfind in Hf. inversion Hf; subst. auto.
           ++ right. exists ((p, File name data) :: before), q, n, b, after, m'.
              split; [reflexivity|]. split; [exact Hf|]. split; [exact Hd|].
              split; [|exact Hw].
              intros q' n' b' m'' [[= -> -> ->]|Hin] Hf'; [|eauto].
              rewrite Hfind in Hf'. inversion Hf'; subst. auto.
        -- right. exists [], p, name, data, rest, m.
           split; [reflexivity|]. split; [exact Hfind|]. split; [congruence|].
           split; [intros ? ? ? ? []|reflexivity].
      * assert (E : check_entry migrations known p (File name data) None tx = (None, tx)).
        { unfold check_entry. cbn [IsDir Name]. now rewrite Hfind. }
        rewrite E.
        destruct IH as [[Hw Hall]|(before & q & n & b & after & m' & -> & Hf & Hd & Hb & Hw)].
        -- left. split; [exact Hw|]. intros q n b m' [[= -> -> ->]|Hin] Hf; [|eauto].
           rewrite Hfind in Hf. discriminate.
        -- right. exists ((p, File name data) :: before), q, n, b, after, m'.
           split; [reflexivity|]. split; [exact Hf|]. split; [exact Hd|].
           split; [|exact Hw].
           intros q' n' b' m'' [[= -> -> ->]|Hin] Hf'; [|eauto].
           rewrite Hfind in Hf'. discriminate.
    + change (check_entry migrations known p (Dir name entries) None tx) with (@None error, tx).
      destruct IH as [[Hw Hall]|(before & q & n & b & after & m' & -> & Hf & Hd & Hb & Hw)].
      * left. split; [exact Hw|]. intros q n b m' [[=]|Hin] Hf. eauto.
      * right. exists ((p, Dir name entries) :: before), q, n, b, after, m'.
        split; [reflexivity|]. split; [exact Hf|]. split; [exact Hd|].
        split; [|exact Hw]. intros q' n' b' m'' [[=]|Hin] Hf'. eauto.
Qed.

(** In a walk sorted by path, what precedes a path lies before it. *)
Lemma sorted_before (before after : list (path * node)) p d q x :
  StronglySorted path_lt (List.map fst (before ++ (p, d) :: after)) ->
  In (q, x) (before ++ (p, d) :: after) -> path_lt q p -> In (q, x) before.
Proof.
  rewrite List.map_app. cbn [List.map fst]. intros Hs Hin Hlt.
  apply List.in_app_or in Hin as [Hin|[[= <- <-]|Hin]]; [exact Hin| |].
  - now apply path_lt_irrefl in Hlt.
  - apply StronglySorted_app_1_r, StronglySorted_inv in Hs as [_ Hp].
    rewrite List.Forall_forall in Hp.
    assert (Hpq : path_lt p q) by (apply Hp; now apply (List.in_map fst _ (q, x))).
    exfalso. exact (path_lt_irrefl _ (path_lt_trans _ _ _ Hlt Hpq)).
Qed.

(** The integrity walk over a well-formed tree, with the known
    migrations read. *)
Lemma check_walk_verdict migrations known (tx : Session U) :
  wf_fs migrations = true ->
  match WalkDir migrations (check_entry migrations known) tx with
  | (None, tx') =>
      tx' = tx /\
      forall p name data m, In (p, name, data) (artifacts migrations) ->
        findMigrationByName known name = (m, true) -> MigrationHash m = hashFile data
  | (Some e, tx') =>
      tx' = tx /\
      exists p name data m,
        In (p, name, data) (artifacts migrations) /\
        findMigrationByName known name = (m, true) /\
        MigrationHash m <> hashFile data /\
        e = Errorf "migration %q has been altered" [Q name] /\
        forall p' name' data' m', In (p', name', data') (artifacts migrations) ->
          path_lt p' p -> findMigrationByName known name' = (m', true) ->
          MigrationHash m' = hashFile data'
  end.
Proof.
  intros Hwf. unfold WalkDir.
  destruct (walk_check_result migrations known (walkDir [] (root migrations)) tx)
    as [[-> Hall]|(before & p & n & data & after & m & Hvisits & Hf & Hd & Hb & ->)].
  - intros q name data. apply ReadFile_walk. exact Hwf.
  - split; [reflexivity|]. intros p name data m Hin. apply In_artifacts in Hin. eauto.
  - split; [reflexivity|]. exists p, n, data, m.
    split; [apply In_artifacts; rewrite Hvisits; apply List.in_or_app; right; now left|].
    split; [exact Hf|]. split; [exact Hd|]. split; [reflexivity|].
    intros p' n' data' m' Hin Hlt Hf'. apply In_artifacts in Hin.
    pose proof (walkDir_sorted (root migrations) Hwf []) as Hs.
    rewrite Hvisits in Hs, Hin.
    apply (Hb p' n' data' m'); [|exact Hf'].
    exact (sorted_before _ _ _ _ _ _ Hs Hin Hlt).
Qed.

(** X7: with the known migrations read from the ledger, the walk of
    [checkIfMigrationsAreAltered] over a well-formed tree changes nothing
    in the session, returns nil exactly when every file that has a record
    hashes to the stored hash, and otherwise returns the error that
    quotes the name of the first such file in walk order whose hash
    differs.  Files without a record and directories are passed over. *)
Theorem integrity_walk_reports_first_altered (migrations : FS) (tx tx1 : Session U)
    (known : list migrationRow) :
  wf_fs migrations = true ->
  getMigrationsKnownToDb faults tx = (inr known, tx1) ->
  match WalkDir migrations (fst (checkIfMigrationsAreAltered faults tx migrations)) tx1 with
  | (None, tx2) =>
      tx2 = tx1 /\
      forall p name data m, In (p, name, data) (artifacts migrations) ->
        findMigrationByName known name = (m, true) -> MigrationHash m = hashFile data
  | (Some e, tx2) =>
      tx2 = tx1 /\
      exists p name data m,
        In (p, name, data) (artifacts migrations) /\
        findMigrationByName known name = (m, true) /\
        MigrationHash m <> hashFile data /\
        e = Errorf "migration %q has been altered" [Q name] /\
        forall p' name' data' m', In (p', name', data') (artifacts migrations) ->
          path_lt p' p -> findMigrationByName known name' = (m', true) ->
          MigrationHash m' = hashFile data'
  end.
Proof.
  intros Hwf Hknown. unfold checkIfMigrationsAreAltered. rewrite Hknown. cbn [fst].
  apply check_walk_verdict. exact Hwf.
Qed.

End CheckFacts.

(** ** The errors [Migrate] returns *)

Lemma ReadFile_from_error whole p : forall entries e,
  ReadFile_from entries whole p = inl e -> exists op, e = PathError op whole.
Proof.
  induction p as [|name p' IH]; intros entries e H; cbn [ReadFile_from] in H.
  - inversion H. exists "read". reflexivity.
  - destruct (find_entry name entries) as [[n data|n entries']|].
    + destruct p'; inversion H. exists "open". reflexivity.
    + destruct p' as [|name' p''].
      * inversion H. exists "read". reflexivity.
      * exact (IH entries' e H).
    + inversion H. exists "open". reflexivity.
Qed.

Section ErrorFacts.

Context {U : Type}.
Variable sql : string -> U -> string + U.
Variable faults : nat -> option string.

(** An error of the apply callback is one of three, and neither the
    error of a read nor that of an upsert carries a sentinel. *)
Lemma handle_entry_error migrations known p d (tx : Session U) e tx' :
  handle_entry sql faults migrations known p d None tx = (Some e, tx') ->
  (errors_Is e ErrMigrationFailed = false /\
   errors_Is e ErrMigrationFileChanged = false /\
   errors_Is (Errorf "walk migrations: %w" [W e]) ErrMigrationFailed = false /\
   errors_Is (Errorf "walk migrations: %w" [W e]) ErrMigrationFileChanged = false)
  \/ exists x,
       e = Errorf "execute migration %q: %w: %w"
             [Q (Name d); W (DriverError x); W ErrMigrationFailed].
Proof.
  unfold handle_entry, tx_Exec_script, upsertMigration, tx_Exec_upsert. intros H.
  destruct (IsDir d); [discriminate|].
  destruct (findMigrationByName known (Name d)) as [migration ok].
  destruct (ok && IsApplied migration); [discriminate|].
  destruct (ReadFile migrations p) as [pe|data] eqn:Hread.
  - apply ReadFile_from_error in Hread as [op ->]. inversion H; subst. left. auto.
  - destruct (call faults _ tx) as [[x|[]] s1].
    + inversion H; subst. right. eauto.
    + destruct (call faults _ (note _ s1)) as [[x|[]] s2]; inversion H; subst.
      left. auto.
Qed.

Lemma walk_handle_error migrations known visits : forall (tx : Session U) e tx',
  walk (handle_entry sql faults migrations known) visits tx = (Some e, tx') ->
  (errors_Is (Errorf "walk migrations: %w" [W e]) ErrMigrationFailed = false /\
   errors_Is (Errorf "walk migrations: %w" [W e]) ErrMigrationFileChanged = false)
  \/ exists name x,
       e = Errorf "execute migration %q: %w: %w"
             [Q name; W (DriverError x); W ErrMigrationFailed].
Proof.
  induction visits as [|[p d] rest IH]; intros tx e tx' H; cbn [walk] in H; [discriminate|].
  destruct (handle_entry sql faults migrations known p d None tx) as [[e1|] s1] eqn:E.
  - inversion H; subst.
    apply handle_entry_error in E as [(_ & _ & ? & ?)|[x ->]]; [left; auto|right; eauto].
  - eauto.
Qed.

Lemma walk_handle_exec_error migrations known visits name x :
  forall (tx : Session U) tx',
  walk (handle_entry sql faults migrations known) visits tx
  = (Some (Errorf "execute migration %q: %w: %w"
             [Q name; W (DriverError x); W ErrMigrationFailed]), tx') ->
  exists p script pre, log tx' = log tx ++ pre ++ [Executed p name script (Some x)].
Proof.
  induction visits as [|[p d] rest IH]; intros tx tx' H; cbn [walk] in H; [discriminate|].
  destruct (handle_entry sql faults migrations known p d None tx) as [[e1|] s1] eqn:E.
  - inversion H; subst e1 s1. clear H IH.
    apply handle_entry_cases in E
      as [[_ [Hr|[e Hr]]]|[(sc & row & Hr & _)|[(sc & e & Hr & _)|(sc & e & Hr & Hlog)]]];
      try discriminate.
    inversion Hr; subst. exists p, sc, []. exact Hlog.
  - destruct (IH _ _ H) as (q & sc & pre & Hlog).
    apply handle_entry_cases in E
      as [[Hl1 _]|[(sc1 & row & _ & Hl1)|[(sc1 & e & Hr & _)|(sc1 & e & Hr & _)]]];
      try discriminate.
    + exists q, sc, pre. congruence.
    + exists q, sc, ([Executed p (Name d) sc1 None; Upserted row] ++ pre).
      rewrite Hlog, Hl1, <- !List.app_assoc. reflexivity.
Qed.

(** What a walk of the apply step leaves behind, by its result. *)
Lemma walk_handle_outcome migrations known visits (tx : Session U) r tx' :
  walk (handle_entry sql faults migrations known) visits tx = (r, tx') ->
  exists evs,
    log tx' = log tx ++ evs /\
    match r with
    | None => forall ev, In ev evs -> failed ev = false
    | Some e =>
        (errors_Is (Errorf "walk migrations: %w" [W e]) ErrMigrationFailed = false /\
         errors_Is (Errorf "walk migrations: %w" [W e]) ErrMigrationFileChanged = false /\
         forall ev, In ev evs -> failed ev = false)
        \/ exists p name script x,
             e = Errorf "execute migration %q: %w: %w"
                   [Q name; W (DriverError x); W ErrMigrationFailed] /\
             In (Executed p name script (Some x)) evs
    end.
Proof.
  intros H.
  destruct (walk_handle_log sql faults migrations known visits tx r tx' H)
    as (evs & Hlog & _ & Hfail).
  exists evs. split; [exact Hlog|].
  assert (Hnofail : (forall p n sc x, ~ In (Executed p n sc (Some x)) evs) ->
                    forall ev, In ev evs -> failed ev = false).
  { intros Hno [p n sc [x|]|row] Hin; [|reflexivity..]. exfalso. exact (Hno _ _ _ _ Hin). }
  destruct r as [e|].
  - destruct (walk_handle_error _ _ _ _ _ _ H) as [[H1 H2]|(name & x & ->)].
    + left. split; [exact H1|]. split; [exact H2|]. apply Hnofail.
      intros p n sc x Hin. destruct (Hfail _ _ _ _ Hin) as [Hr _].
      inversion Hr; subst e. cbn in H1. discriminate.
    + right. destruct (walk_handle_exec_error _ _ _ _ _ _ _ H) as (p & sc & pre & Hlog').
      rewrite Hlog in Hlog'. apply List.app_inv_head in Hlog'. subst evs.
      exists p, name, sc, x. split; [reflexivity|].
      apply List.in_or_app. right. now left.
  - apply Hnofail. intros p n sc x Hin. destruct (Hfail _ _ _ _ Hin) as [Hr _]. discriminate.
Qed.

(** The log of a session is empty up to the apply step. *)
Lemma Migrate_tx_cases migrations (tx : Session U) e tx' :
  Migrate_tx sql faults migrations tx = (Some e, tx') ->
  (e = ErrMigrationFileChanged /\ log tx' = log tx)
  \/ (errors_Is e ErrMigrationFailed = false /\
      errors_Is e ErrMigrationFileChanged = false /\
      exists evs, log tx' = log tx ++ evs /\ forall ev, In ev evs -> failed ev = false)
  \/ (exists p name script x evs,
        e = Errorf "walk migrations: %w"
              [W (Errorf "execute migration %q: %w: %w"
                    [Q name; W (DriverError x); W ErrMigrationFailed])] /\
        log tx' = log tx ++ evs /\
        In (Executed p name script (Some x)) evs).
Proof.
  unfold Migrate_tx, tx_Exec_migrationTableQuery, WalkDir. intros H.
  destruct (call faults _ tx) as [[e3|[]] s4] eqn:E4;
    apply call_frame in E4 as (_ & _ & Hl4 & _).
  { inversion H; subst. right. left. split; [reflexivity|]. split; [reflexivity|].
    exists []. rewrite List.app_nil_r. split; [exact Hl4|]. intros ev []. }
  destruct (checkIfMigrationsAreAltered faults s4 migrations) as [fn s5] eqn:E5.
  assert (Hl5 : log s5 = log s4 /\
                forall r s', walk fn (walkDir [] (root migrations)) s5 = (r, s') -> s' = s5).
  { unfold checkIfMigrationsAreAltered in E5.
    destruct (getMigrationsKnownToDb faults s4) as [[ek|known] s] eqn:E;
      apply getMigrationsKnownToDb_frame in E as (_ & _ & Hl & _);
      inversion E5; subst fn s; split; auto.
    - intros r s' Hw.
      destruct (walk_known_failed (walkDir [] (root migrations)) s5
                  (walkDir_nonempty _ _)) as [e' He].
      rewrite He in Hw. now inversion Hw.
    - intros r s' Hw. now apply walk_check_pure in Hw. }
  destruct Hl5 as [Hl5 Hpure].
  destruct (walk fn _ s5) as [[e6|] s6] eqn:E6;
    specialize (Hpure _ _ eq_refl); subst s6.
  { inversion H; subst. left. split; [reflexivity|]. congruence. }
  unfold handleMigration in H.
  destruct (getMigrationsKnownToDb faults s5) as [[e7|known] s7] eqn:E7;
    apply getMigrationsKnownToDb_frame in E7 as (_ & _ & Hl7 & _).
  { destruct (walkDir [] (root migrations)) as [|[p0 d0] rest0] eqn:Ew;
      [now apply walkDir_nonempty in Ew|].
    cbn in H. inversion H; subst. right. left.
    split; [reflexivity|]. split; [reflexivity|].
    exists []. rewrite List.app_nil_r. split; [congruence|]. intros ev []. }
  destruct (walk (handle_entry sql faults migrations known) _ s7) as [r s8] eqn:E8.
  destruct (walk_handle_outcome _ _ _ _ _ _ E8) as (evs & Hlog & Hout).
  assert (Hlog' : log s8 = log tx ++ evs) by congruence.
  destruct r as [e8|].
  - inversion H; subst e tx'.
    destruct Hout as [(H1 & H2 & Hno)|(p & name & sc & x & -> & Hin)].
    + right. left. split; [exact H1|]. split; [exact H2|]. eauto.
    + right. right. exists p, name, sc, x, evs. auto.
  - unfold tx_Commit in H. destruct (faults (calls s8)); inversion H; subst; cbn.
    right. left. split; [reflexivity|]. split; [reflexivity|]. eauto.
Qed.

(** Every error of [Migrate] is of one of three kinds. *)
Lemma Migrate_error_cases migrations (db db' : Database U) e tr :
  Migrate sql faults migrations db = (Some e, db', tr) ->
  (e = ErrMigrationFileChanged /\ tr = [])
  \/ (errors_Is e ErrMigrationFailed = false /\
      errors_Is e ErrMigrationFileChanged = false /\
      forall ev, In ev tr -> failed ev = false)
  \/ (exists p name script x,
        e = Errorf "walk migrations: %w"
              [W (Errorf "execute migration %q: %w: %w"
                    [Q name; W (DriverError x); W ErrMigrationFailed])] /\
        In (Executed p name script (Some x)) tr).
Proof.
  unfold Migrate, Migrate_session, db_Conn, conn_BeginTx. intros H.
  destruct (call faults _ (open_session db)) as [[e0|[]] s1] eqn:E1;
    apply call_frame in E1 as (_ & _ & Hl1 & _); cbn [open_session log] in Hl1.
  { inversion H; subst. right. left. rewrite Hl1. split; [reflexivity|].
    split; [reflexivity|]. intros ev []. }
  destruct (call faults _ s1) as [[e1|[]] s2] eqn:E2;
    apply call_frame in E2 as (_ & _ & Hl2 & _).
  { inversion H; subst. right. left. rewrite Hl2, Hl1. split; [reflexivity|].
    split; [reflexivity|]. intros ev []. }
  destruct (Migrate_tx sql faults migrations s2) as [err s3] eqn:E3.
  inversion H; subst err db' tr. clear H. rewrite tx_Rollback_log.
  assert (Hl2' : log s2 = []) by congruence.
  apply Migrate_tx_cases in E3
    as [[-> Hlog]|[(H1 & H2 & evs & Hlog & Hno)|(p & name & sc & x & evs & -> & Hlog & Hin)]];
    rewrite Hl2' in Hlog; cbn in Hlog; rewrite Hlog.
  - left. auto.
  - right. left. auto.
  - right. right. eauto 6.
Qed.

(** X8: when the run returns an error that is [ErrMigrationFailed], and
    only then, the log holds the failed execution of a script.  Errors of
    the connection, of the table query, of the integrity check, of a
    read, of an upsert and of the commit are never [ErrMigrationFailed]. *)
Theorem ErrMigrationFailed_iff_script_failed (migrations : FS) (db db' : Database U)
    (err : option error) (tr : list event) :
  Migrate sql faults migrations db = (err, db', tr) ->
  (exists e, err = Some e /\ errors_Is e ErrMigrationFailed = true)
  <-> (exists p name script x, In (Executed p name script (Some x)) tr).
Proof.
  intros H. split.
  - intros (e & -> & His).
    apply Migrate_error_cases in H
      as [[-> _]|[(H1 & _)|(p & name & sc & x & _ & Hin)]]; [discriminate|congruence|eauto].
  - intros (p & name & sc & x & Hin).
    destruct err as [e|].
    + exists e. split; [reflexivity|].
      apply Migrate_error_cases in H
        as [[_ ->]|[(_ & _ & Hno)|(p' & name' & sc' & x' & -> & _)]].
      * contradiction.
      * specialize (Hno _ Hin). discriminate.
      * reflexivity.
    + exfalso.
      destruct (Migrate_log sql faults migrations db db' None tr H)
        as [->|(known & r & tx & tx' & Hwalk & Hl0 & Hl1 & Herr)]; [contradiction|].
      destruct (walk_handle_log sql faults migrations known _ _ _ _ Hwalk)
        as (evs & Hlog & _ & Hfail).
      rewrite Hl0, Hl1 in Hlog. cbn in Hlog. subst evs.
      destruct (Hfail _ _ _ _ Hin) as [Hr _]. specialize (Herr _ Hr). discriminate.
Qed.

(** X9: an error of [Migrate] that is [ErrMigrationFileChanged] is the
    sentinel itself, and the run that returned it executed nothing and
    left the database as it was. *)
Theorem ErrMigrationFileChanged_means_nothing_ran (migrations : FS) (db db' : Database U)
    (e : error) (tr : list event) :
  Migrate sql faults migrations db = (Some e, db', tr) ->
  errors_Is e ErrMigrationFileChanged = true ->
  e = ErrMigrationFileChanged /\ tr = [] /\ db' = db.
Proof.
  intros H His.
  assert (Hdb : db' = db).
  { unfold Migrate in H.
    destruct (Migrate_session sql faults migrations (open_session db)) as [err s] eqn:E.
    inversion H; subst err db' tr. now apply Migrate_session_error in E. }
  apply Migrate_error_cases in H
    as [[-> ->]|[(_ & H2 & _)|(p & name & sc & x & -> & _)]].
  - auto.
  - congruence.
  - cbn in His. discriminate.
Qed.

End ErrorFacts.

Lemma ErrMigrationFailed_iff_script_failed_witness :
  (exists e,
     fst (fst (Migrate demo_sql no_faults second_invalid empty_db)) = Some e /\
     errors_Is e ErrMigrationFailed = true)
  <-> (exists p name script x,
         In (Executed p name script (Some x))
           (snd (Migrate demo_sql no_faults second_invalid empty_db))).
Proof.
  apply (ErrMigrationFailed_iff_script_failed demo_sql no_faults second_invalid empty_db
           (snd (fst (Migrate demo_sql no_faults second_invalid empty_db)))).
  vm_compute. reflexivity.
Defined.

Lemma ErrMigrationFileChanged_means_nothing_ran_witness :
  Migrate demo_sql no_faults two_files_changed migrated_db
  = (Some ErrMigrationFileChanged, migrated_db, []) /\
  errors_Is ErrMigrationFileChanged ErrMigrationFileChanged = true /\
  (ErrMigrationFileChanged = ErrMigrationFileChanged /\
   @nil event = [] /\ migrated_db = migrated_db).
Proof.
  assert (H : Migrate demo_sql no_faults two_files_changed migrated_db
              = (Some ErrMigrationFileChanged, migrated_db, []))
    by (vm_compute; reflexivity).
  split; [exact H|]. split; [reflexivity|].
  exact (ErrMigrationFileChanged_means_nothing_ran demo_sql no_faults two_files_changed
           migrated_db migrated_db ErrMigrationFileChanged [] H eq_refl).
Defined.

Section NullFacts.

Context {U : Type}.
Variable sql : string -> U -> string + U.
Variable faults : nat -> option string.

Lemma getMigrationsKnownToDb_NULL (tx : Session U) (t : table) name v :
  ledger (view tx) = Some t ->
  t !! name = Some v ->
  fst v = None \/ snd v = None ->
  exists e tx', getMigrationsKnownToDb faults tx = (inl e, tx') /\ log tx' = log tx /\
                committed tx' = committed tx.
Proof.
  intros Hl Ht Hnull.
  destruct (scan_rows_null (map_to_list t) name v) as [e He]; [|exact Hnull|].
  { apply list_elem_of_In, elem_of_map_to_list. exact Ht. }
  unfold getMigrationsKnownToDb, tx_Query_migrations, call.
  destruct (faults (calls tx)).
  - do 2 eexists. split; [reflexivity|]. cbn. auto.
  - rewrite Hl, He. do 2 eexists. split; [reflexivity|]. cbn. auto.
Qed.

(** X10: a ledger with a NULL in either column of any record blocks
    every run: once the table query has run, [Migrate] returns
    [ErrMigrationFileChanged], whatever the tree holds, executes nothing
    and leaves the database as it was. *)
Theorem NULL_record_blocks_every_run (migrations : FS) (db : Database U) (t : table)
    (name : string) (v : option string * option bool) :
  faults 0 = None -> faults 1 = None -> faults 2 = None ->
  ledger db = Some t ->
  t !! name = Some v ->
  fst v = None \/ snd v = None ->
  Migrate sql faults migrations db = (Some ErrMigrationFileChanged, db, []).
Proof.
  intros F0 F1 F2 Hl Ht Hnull.
  unfold Migrate, Migrate_session, db_Conn, conn_BeginTx, call.
  cbn [open_session calls view]. rewrite F0. cbn. rewrite F1. cbn.
  unfold Migrate_tx, tx_Exec_migrationTableQuery, call. cbn [calls view]. rewrite F2.
  cbn [ledger schema committed done_ log calls view]. rewrite Hl. cbn [default].
  unfold checkIfMigrationsAreAltered.
  match goal with |- context [getMigrationsKnownToDb faults ?s] =>
    destruct (getMigrationsKnownToDb_NULL s t name v eq_refl Ht Hnull)
      as (e & s' & -> & Hlog & Hc) end.
  unfold WalkDir.
  destruct (walk_known_failed (walkDir [] (root migrations)) s' (walkDir_nonempty _ _))
    as [e' ->].
  rewrite tx_Rollback_committed, tx_Rollback_log, Hlog, Hc. reflexivity.
Qed.

End NullFacts.

Lemma NULL_record_blocks_every_run_witness :
  Migrate demo_sql no_faults two_files null_hash_db
  = (Some ErrMigrationFileChanged, null_hash_db, []).
Proof.
  apply (NULL_record_blocks_every_run demo_sql no_faults two_files null_hash_db
           null_hash_ledger "000_manual.sql" (None, Some false)).
  - reflexivity.
  - reflexivity.
  - reflexivity.
  - reflexivity.
  - vm_compute. reflexivity.
  - left. reflexivity.
Defined.

(** ** What a run does to the ledger *)

Lemma In_file_names_filter (P : path * node -> bool) vs name :
  In name (file_names (List.filter P vs)) ->
  exists p data, In (p, File name data) vs /\ P (p, File name data) = true.
Proof.
  unfold file_names. intros Hin.
  apply List.in_map_iff in Hin as ([[p n] data] & Heq & Hin). cbn in Heq. subst n.
  apply List.in_flat_map in Hin as ([q d] & Hin & Ha).
  destruct d as [n b|n es]; cbn in Ha; [|contradiction].
  destruct Ha as [[= -> -> ->]|[]].
  apply List.filter_In in Hin as [Hin HP]. eauto.
Qed.

Lemma record_all_is_Some vs : forall (t : table) name,
  is_Some (t !! name) -> is_Some (record_all vs t !! name).
Proof.
  induction vs as [|[q [n b|n es]] vs IH]; intros t name Hs; [exact Hs| |].
  - rewrite record_all_cons. apply IH. unfold record; cbn [snd].
    destruct (decide (n = name)) as [->|Hne].
    + rewrite lookup_insert_eq. eauto.
    + now rewrite lookup_insert_ne.
  - rewrite record_all_cons. now apply IH.
Qed.

Lemma pending_by_name known name data data' :
  pending known (File name data) = pending known (File name data').
Proof. reflexivity. Qed.

(** A file that is not pending has an applied record. *)
Lemma not_pending_applied (t : table) known name data :
  scan_rows (map_to_list t) = inr known ->
  pending known (File name data) = false ->
  exists h, t !! name = Some (Some h, Some true).
Proof.
  intros Hscan Hp. unfold pending in Hp. cbn [IsDir Name negb andb] in Hp.
  rewrite (known_lookup t known name Hscan) in Hp.
  destruct (t !! name) as [[[h|] [a|]]|]; cbn in Hp; try discriminate.
  destruct a; [eauto|discriminate].
Qed.

Section LedgerFacts.

Context {U : Type}.
Variable sql : string -> U -> string + U.

(** X11: no run of [Migrate] over a well-formed tree, whether it
    succeeds or fails, changes a record that is applied, removes a
    record, or touches the record of a name that no file of the tree
    bears. *)
Theorem applied_records_are_kept (faults : nat -> option string) (migrations : FS)
    (db db' : Database U) (err : option error) (tr : list event) (t : table) :
  wf_fs migrations = true ->
  ledger db = Some t ->
  Migrate sql faults migrations db = (err, db', tr) ->
  exists t' : table,
    ledger db' = Some t' /\
    (forall name h, t !! name = Some (Some h, Some true) ->
       t' !! name = Some (Some h, Some true)) /\
    (forall name, is_Some (t !! name) -> is_Some (t' !! name)) /\
    (forall name, ~ In name (artifact_names migrations) -> t' !! name = t !! name).
Proof.
  intros Hwf Hl H. destruct err as [e|].
  - assert (Hdb : db' = db).
    { unfold Migrate in H.
      destruct (Migrate_session sql faults migrations (open_session db)) as [err s] eqn:E.
      inversion H; subst err db' tr. now apply Migrate_session_error in E. }
    subst db'. exists t. auto.
  - destruct (Migrate_success sql faults migrations db db' tr Hwf H)
      as (known & Hscan & Hl' & _).
    rewrite Hl in Hscan, Hl'. cbn [default] in Hscan, Hl'.
    eexists. split; [exact Hl'|]. split; [|split].
    + intros name h Ht. rewrite record_all_notin; [exact Ht|].
      intros Hin. apply In_file_names_filter in Hin as (p & data & _ & Hp).
      cbn [snd] in Hp.
      rewrite (pending_applied t known (File name data) Hscan) in Hp; [discriminate|].
      cbn [Name]. eauto.
    + intros name. apply record_all_is_Some.
    + intros name Hni. apply record_all_notin. intros Hin. apply Hni.
      apply In_file_names_filter in Hin as (p & data & Hin & _).
      rewrite artifact_names_file_names. eapply In_file_names, Hin.
Qed.

(** X12: after a run of [Migrate] over a well-formed tree that returned
    nil, whatever the ledger was before, every artifact has an applied
    record, and a further run over the same tree, under any fault
    schedule, leaves the database as it is and executes and records
    nothing. *)
Theorem rerun_after_success_changes_nothing (faults faults' : nat -> option string)
    (migrations : FS) (db db1 : Database U) (tr : list event) :
  wf_fs migrations = true ->
  Migrate sql faults migrations db = (None, db1, tr) ->
  (exists t1 : table,
     ledger db1 = Some t1 /\
     forall p name data, In (p, name, data) (artifacts migrations) ->
       exists h, t1 !! name = Some (Some h, Some true)) /\
  exists err, Migrate sql faults' migrations db1 = (err, db1, []).
Proof.
  intros Hwf H.
  destruct (Migrate_success sql faults migrations db db1 tr Hwf H)
    as (known & Hscan & Hl & _).
  assert (Hall : forall p name data,
             In (p, File name data) (walkDir [] (root migrations)) ->
             exists h,
               record_all (List.filter (fun v => pending known (snd v))
                             (walkDir [] (root migrations)))
                 (default ∅ (ledger db)) !! name
               = Some (Some h, Some true)).
  { intros p name data Hin.
    destruct (pending known (File name data)) eqn:Hp.
    - assert (Hin' : In (p, File name data)
                       (List.filter (fun v => pending known (snd v))
                          (walkDir [] (root migrations))))
        by (apply List.filter_In; split; [exact Hin|exact Hp]).
      destruct (record_all_In _ (default ∅ (ledger db)) _ _ _ Hin')
        as (q & data' & _ & Hrow).
      rewrite Hrow. unfold applied_row. eauto.
    - destruct (not_pending_applied _ known name data Hscan Hp) as [h Ht].
      exists h. rewrite record_all_notin; [exact Ht|].
      intros Hn. apply In_file_names_filter in Hn as (q & data' & _ & Hp').
      cbn [snd] in Hp'. rewrite (pending_by_name known name data' data) in Hp'.
      congruence. }
  split.
  - eexists. split; [exact Hl|]. intros p name data Hin.
    apply In_artifacts in Hin. eauto.
  - apply (Migrate_nothing_pending sql faults' migrations db1 _ Hl). exact Hall.
Qed.

End LedgerFacts.

Lemma integrity_walk_reports_first_altered_witness :
  exists p name data m,
    In (p, name, data) (artifacts two_files_changed) /\
    findMigrationByName migrated_known name = (m, true) /\
    MigrationHash m <> hashFile data /\
    name = "001_init.sql".
Proof.
  pose proof (integrity_walk_reports_first_altered no_faults two_files_changed
                (open_session migrated_db)
                (snd (getMigrationsKnownToDb no_faults (open_session migrated_db)))
                migrated_known eq_refl) as H.
  assert (Hk : getMigrationsKnownToDb no_faults (open_session migrated_db)
               = (inr migrated_known,
                  snd (getMigrationsKnownToDb no_faults (open_session migrated_db))))
    by (vm_compute; reflexivity).
  specialize (H Hk).
  assert (E : WalkDir two_files_changed
                (fst (checkIfMigrationsAreAltered no_faults (open_session migrated_db)
                        two_files_changed))
                (snd (getMigrationsKnownToDb no_faults (open_session migrated_db)))
              = (Some (Errorf "migration %q has been altered" [Q "001_init.sql"]),
                 snd (getMigrationsKnownToDb no_faults (open_session migrated_db))))
    by (vm_compute; reflexivity).
  rewrite E in H. destruct H as (_ & p & name & data & m & Hin & Hf & Hd & He & _).
  exists p, name, data, m. split; [exact Hin|]. split; [exact Hf|]. split; [exact Hd|].
  now inversion He.
Defined.

Lemma applied_records_are_kept_witness :
  exists t' : table,
    ledger (snd (fst (Migrate demo_sql no_faults two_files mixed_db))) = Some t' /\
    (forall name h, mixed_ledger !! name = Some (Some h, Some true) ->
       t' !! name = Some (Some h, Some true)) /\
    (forall name, is_Some (mixed_ledger !! name) -> is_Some (t' !! name)) /\
    (forall name, ~ In name (artifact_names two_files) ->
       t' !! name = mixed_ledger !! name).
Proof.
  apply (applied_records_are_kept demo_sql no_faults two_files mixed_db
           (snd (fst (Migrate demo_sql no_faults two_files mixed_db)))
           (fst (fst (Migrate demo_sql no_faults two_files mixed_db)))
           (snd (Migrate demo_sql no_faults two_files mixed_db))
           mixed_ledger).
  - reflexivity.
  - reflexivity.
  - vm_compute. reflexivity.
Defined.

Lemma rerun_after_success_changes_nothing_witness :
  (exists t1 : table,
     ledger (snd (fst (Migrate demo_sql no_faults two_files mixed_db))) = Some t1 /\
     forall p name data, In (p, name, data) (artifacts two_files) ->
       exists h, t1 !! name = Some (Some h, Some true)) /\
  exists err,
    Migrate demo_sql (deadline_after 4) two_files
      (snd (fst (Migrate demo_sql no_faults two_files mixed_db)))
    = (err, snd (fst (Migrate demo_sql no_faults two_files mixed_db)), []).
Proof.
  apply (rerun_after_success_changes_nothing demo_sql no_faults (deadline_after 4)
           two_files mixed_db
           (snd (fst (Migrate demo_sql no_faults two_files mixed_db)))
           (snd (Migrate demo_sql no_faults two_files mixed_db))).
  - reflexivity.
  - vm_compute. reflexivity.
Defined.

Example mixed_run :
  Migrate demo_sql no_faults two_files mixed_db
  = (None, migrated_db,
     [ Executed ["migrations"; "002_seed.sql"] "002_seed.sql" "INSERT INTO t VALUES (1);" None;
       Upserted {| MigrationName := "002_seed.sql";
                   MigrationHash := hashFile (bytes "INSERT INTO t VALUES (1);");
                   IsApplied := true |} ]).
Proof. vm_compute. reflexivity. Qed.

(** ** What a run does to the application schema *)

Lemma executions_events_of (vs : list (path * node)) :
  executions (List.flat_map events_of vs)
  = List.map (fun v => (fst v, Name (snd v)))
      (List.filter (fun v => negb (IsDir (snd v))) vs).
Proof.
  induction vs as [|[p [n b|n es]] vs IH]; [reflexivity| |].
  - cbn [List.flat_map]. rewrite executions_app, IH. reflexivity.
  - cbn [List.flat_map]. rewrite executions_app, IH. reflexivity.
Qed.

Lemma filter_pending_files known (vs : list (path * node)) :
  List.filter (fun v => negb (IsDir (snd v)))
    (List.filter (fun v => pending known (snd v)) vs)
  = List.filter (fun v => pending known (snd v)) vs.
Proof.
  induction vs as [|[p d] vs IH]; [reflexivity|]. cbn [List.filter snd].
  destruct (pending known d) eqn:Hp; [|exact IH].
  cbn [List.filter snd]. destruct d; [|discriminate]. cbn. now rewrite IH.
Qed.

Section SchemaFacts.

Context {U : Type}.
Variable sql : string -> U -> string + U.
Variable faults : nat -> option string.

Lemma handle_entry_success_schema migrations known p name data (tx : Session U) tx'
    (t : table) :
  pending known (File name data) = true ->
  ReadFile migrations p = inr data ->
  ledger (view tx) = Some t ->
  handle_entry sql faults migrations known p (File name data) None tx = (None, tx') ->
  sql (string_of_list_byte data) (schema (view tx)) = inr (schema (view tx')).
Proof.
  intros Hp Hread Hl. rewrite (handle_entry_pending _ _ _ _ _ _ _ _ Hp Hread).
  unfold tx_Exec_script, upsertMigration, tx_Exec_upsert. intros H.
  destruct (call faults _ tx) as [[e|[]] s1] eqn:E1; [discriminate|].
  apply call_done in E1 as [_ Hop1].
  destruct (sql (string_of_list_byte data) (schema (view tx))) as [|u]; [discriminate|].
  inversion Hop1 as [Hv1].
  destruct (call faults _ (note _ s1)) as [[e|[]] s2] eqn:E2; [discriminate|].
  apply call_done in E2 as [_ Hop2].
  cbn in Hop2. rewrite <- Hv1 in Hop2. cbn in Hop2. rewrite Hl in Hop2.
  inversion Hop2 as [Hv2]. inversion H as [Htx]. cbn. now rewrite <- Hv2.
Qed.

Lemma walk_handle_schema migrations known visits :
  (forall p name data, In (p, File name data) visits -> ReadFile migrations p = inr data) ->
  forall (tx : Session U) tx' (t : table),
    ledger (view tx) = Some t ->
    walk (handle_entry sql faults migrations known) visits tx = (None, tx') ->
    run_scripts sql
      (List.map script_of (List.filter (fun v => pending known (snd v)) visits))
      (schema (view tx))
    = inr (schema (view tx')).
Proof.
  induction visits as [|[p d] rest IH]; intros Hread tx tx' t Hl H; cbn [walk] in H.
  - inversion H; subst. reflexivity.
  - destruct (handle_entry sql faults migrations known p d None tx) as [[e|] s1] eqn:E;
      [discriminate|].
    cbn [List.filter snd]. destruct (pending known d) eqn:Hp.
    + destruct d as [name data|name entries]; [|discriminate].
      pose proof (Hread p name data (or_introl eq_refl)) as Hr.
      destruct (handle_entry_success sql faults _ _ _ _ _ _ _ t Hp Hr Hl E) as [Hl1 _].
      pose proof (handle_entry_success_schema _ _ _ _ _ _ _ t Hp Hr Hl E) as Hs.
      cbn [List.map run_scripts script_of snd]. rewrite Hs.
      exact (IH (fun q n b Hin => Hread q n b (or_intror Hin)) s1 tx' _ Hl1 H).
    + rewrite (handle_entry_skip _ _ _ _ _ _ _ Hp) in E. inversion E; subst s1.
      exact (IH (fun q n b Hin => Hread q n b (or_intror Hin)) tx tx' t Hl H).
Qed.

Lemma Migrate_tx_success_schema migrations (tx : Session U) tx' :
  wf_fs migrations = true ->
  Migrate_tx sql faults migrations tx = (None, tx') ->
  exists known,
    scan_rows (map_to_list (default (∅ : table) (ledger (view tx)))) = inr known /\
    run_scripts sql (List.map script_of (pending_files known migrations))
      (schema (view tx))
    = inr (schema (view tx')).
Proof.
  intros Hwf. unfold Migrate_tx, WalkDir. intros H.
  destruct (tx_Exec_migrationTableQuery faults tx) as [[e0|[]] s1] eqn:E1; [discriminate|].
  pose proof (ensure_table_view _ _ _ E1) as Hv1.
  unfold checkIfMigrationsAreAltered in H.
  destruct (getMigrationsKnownToDb faults s1) as [[e2|known] s2] eqn:E2.
  { destruct (walk_known_failed (walkDir [] (root migrations)) s2
                (walkDir_nonempty _ _)) as [e He].
    rewrite He in H. discriminate. }
  pose proof (getMigrationsKnownToDb_ok _ _ _ _ E2) as (t & Ht & Hscan).
  apply getMigrationsKnownToDb_frame in E2 as (_ & _ & _ & Hv2 & _).
  destruct (walk (check_entry migrations known) _ s2) as [[e3|] s3] eqn:E3; [discriminate|].
  apply walk_check_pure in E3 as ->.
  unfold handleMigration in H.
  destruct (getMigrationsKnownToDb faults s2) as [[e4|known'] s4] eqn:E4.
  { destruct (walk_known_failed (walkDir [] (root migrations)) s4
                (walkDir_nonempty _ _)) as [e He].
    rewrite He in H. discriminate. }
  pose proof (getMigrationsKnownToDb_ok _ _ _ _ E4) as (t' & Ht' & Hscan').
  apply getMigrationsKnownToDb_frame in E4 as (_ & _ & _ & Hv4 & _).
  rewrite Hv2 in Ht'. rewrite Ht in Ht'. inversion Ht'; subst t'.
  rewrite Hscan in Hscan'. inversion Hscan'; subst known'.
  destruct (walk (handle_entry sql faults migrations known) _ s4) as [[e5|] s5] eqn:E5;
    [discriminate|].
  assert (Hl4 : ledger (view s4) = Some t) by (rewrite Hv4, Hv2; exact Ht).
  pose proof (walk_handle_schema migrations known _
                (fun p n b Hin => ReadFile_walk migrations p n b Hwf Hin)
                s4 s5 t Hl4 E5) as Hs.
  rewrite Hv1 in Ht. cbn in Ht. inversion Ht as [Ht0].
  exists known. split; [now rewrite Ht0|].
  assert (Hschema : schema (view s4) = schema (view tx))
    by (rewrite Hv4, Hv2, Hv1; reflexivity).
  rewrite Hschema in Hs.
  unfold tx_Commit in H. destruct (faults (calls s5)); inversion H; subst tx'.
  exact Hs.
Qed.

(** X13: a run of [Migrate] over a well-formed tree that returns nil has
    executed exactly the pending files, each once and in walk order: the
    files that the ledger, as it was, did not list as applied.  The
    application schema it leaves is the one reached by running their
    scripts in that order, each on the schema the previous one left, and
    the ledger is the old one with their rows upserted. *)
Theorem success_runs_the_pending_scripts_in_order (migrations : FS)
    (db db' : Database U) (tr : list event) :
  wf_fs migrations = true ->
  Migrate sql faults migrations db = (None, db', tr) ->
  let known := known_of (default ∅ (ledger db)) in
  executions tr
  = List.map (fun v => (fst v, Name (snd v))) (pending_files known migrations) /\
  run_scripts sql (List.map script_of (pending_files known migrations)) (schema db)
  = inr (schema db') /\
  ledger db' = Some (record_all (pending_files known migrations) (default ∅ (ledger db))).
Proof.
  intros Hwf H.
  destruct (Migrate_success sql faults migrations db db' tr Hwf H)
    as (known & Hscan & Hl & Htr).
  assert (Hk : known_of (default ∅ (ledger db)) = known)
    by (unfold known_of; now rewrite Hscan).
  cbn zeta. rewrite Hk. unfold pending_files. split; [|split; [|exact Hl]].
  - rewrite Htr, executions_events_of, filter_pending_files. reflexivity.
  - unfold Migrate, Migrate_session, db_Conn, conn_BeginTx in H.
    destruct (call faults _ (open_session db)) as [[e0|[]] s1] eqn:E1; [discriminate|].
    apply call_done in E1 as [_ Hop1].
    destruct (call faults _ s1) as [[e1|[]] s2] eqn:E2; [discriminate|].
    apply call_done in E2 as [_ Hop2].
    assert (Hdb : view s2 = db) by (cbn [open_session view] in Hop1; congruence).
    destruct (Migrate_tx sql faults migrations s2) as [err s3] eqn:E3.
    assert (err = None) by (inversion H; reflexivity). subst err.
    destruct (Migrate_tx_success sql faults migrations s2 s3 Hwf E3)
      as (_ & _ & Hc & Hd & _).
    destruct (Migrate_tx_success_schema migrations s2 s3 Hwf E3)
      as (known' & Hscan' & Hs).
    rewrite Hdb in Hscan', Hs. rewrite Hscan in Hscan'. inversion Hscan'; subst known'.
    inversion H as [[Hdb' Htr']]. unfold tx_Rollback. rewrite Hd, Hc. exact Hs.
Qed.

End SchemaFacts.

Lemma success_runs_the_pending_scripts_in_order_witness :
  let known := known_of (default ∅ (ledger mixed_db)) in
  executions mixed_log
  = List.map (fun v => (fst v, Name (snd v))) (pending_files known two_files) /\
  run_scripts demo_sql (List.map script_of (pending_files known two_files))
    (schema mixed_db)
  = inr (schema migrated_db) /\
  ledger migrated_db
  = Some (record_all (pending_files known two_files) (default ∅ (ledger mixed_db))).
Proof.
  apply (success_runs_the_pending_scripts_in_order demo_sql no_faults two_files
           mixed_db migrated_db mixed_log).
  - reflexivity.
  - vm_compute. reflexivity.
Defined.

(** ** Construction *)

Lemma last_nonempty {A : Type} (l : list A) : forall (z d d' : A),
  List.last (z :: l) d = List.last (z :: l) d'.
Proof.
  induction l as [|y l IH]; intros z d d'; [reflexivity|].
  change (List.last (y :: l) d = List.last (y :: l) d'). apply IH.
Qed.

Lemma fold_options (ds : list Z) : forall opt,
  migrationTimeout
    (List.fold_left (fun opt o => o opt) (List.map WithMigrationTimeout ds) opt)
  = List.last ds (migrationTimeout opt).
Proof.
  induction ds as [|d ds IH]; intros opt; [reflexivity|].
  cbn [List.map List.fold_left]. rewrite IH. cbn [WithMigrationTimeout migrationTimeout].
  destruct ds as [|z ds]; [reflexivity|].
  change (List.last (d :: z :: ds) (migrationTimeout opt))
    with (List.last (z :: ds) (migrationTimeout opt)).
  apply last_nonempty.
Qed.

(** X14: [NewMigrator] keeps the handle and the tree it is given, and
    its timeout is that of the last [WithMigrationTimeout] among the
    options, or ten seconds when there is none; [Migrate] then runs every
    driver call under that timeout. *)
Theorem NewMigrator_last_timeout_wins {U : Type} (sql : string -> U -> string + U)
    (db : Z -> nat -> option string) (migrations : FS) (timeouts : list Z) :
  let m := NewMigrator db migrations (List.map WithMigrationTimeout timeouts) in
  migrationTimeout (m_options m) = List.last timeouts (10 * Second)%Z /\
  m_db m = db /\ m_migrations m = migrations /\
  Migrator_Migrate sql m
  = Migrate sql (db (List.last timeouts (10 * Second)%Z)) migrations.
Proof.
  cbn zeta. unfold Migrator_Migrate, NewMigrator. cbn [m_options m_db m_migrations].
  rewrite fold_options. cbn [migrationTimeout]. auto.
Qed.

(** ** The tests' reading of the ledger *)

(** X15: the test [successfully migrate], for any tree: after a run
    that returned nil from an empty ledger over a well-formed tree of
    artifacts with distinct names, [GetAllMigrations] returns one row an
    artifact, the row of each artifact applied and with the hash of its
    content. *)
Theorem GetAllMigrations_after_first_run {U : Type} (sql : string -> U -> string + U)
    (faults faults' : nat -> option string) (migrations : FS) (db db' : Database U)
    (tr : list event) :
  ledger db = None \/ ledger db = Some ∅ ->
  wf_fs migrations = true ->
  distinct (artifact_names migrations) = true ->
  Migrate sql faults migrations db = (None, db', tr) ->
  faults' 0 = None ->
  exists rows,
    GetAllMigrations faults' db' = inr rows /\
    length rows = length (artifacts migrations) /\
    forall p name data, In (p, name, data) (artifacts migrations) ->
      In {| MigrationName := name; MigrationHash := hashFile data; IsApplied := true |} rows.
Proof.
  intros Hempty Hwf Hnd H Hf.
  destruct (Migrate_success sql faults migrations db db' tr Hwf H)
    as (known & Hscan & Hl & _).
  assert (Ht0 : default (∅ : table) (ledger db) = ∅)
    by (destruct Hempty as [-> | ->]; reflexivity).
  rewrite Ht0 in Hscan, Hl. rewrite map_to_list_empty in Hscan.
  inversion Hscan; subst known.
  destruct (filter_pending_nil (walkDir [] (root migrations))) as [Hnames Hfiles].
  apply distinct_NoDup in Hnd. rewrite artifact_names_file_names in Hnd.
  set (t' := record_all (List.filter (fun v => pending [] (snd v))
                           (walkDir [] (root migrations))) ∅) in *.
  destruct (scan_rows_total (map_to_list t')) as [rows Hrows].
  { intros [n v] Hin. apply list_elem_of_In, elem_of_map_to_list in Hin. cbn.
    apply record_all_inv in Hin as [Hin|(p & data & _ & ->)].
    - rewrite lookup_empty in Hin. discriminate.
    - unfold applied_row. eauto. }
  exists rows. split; [|split].
  - unfold GetAllMigrations, tx_Query_migrations, call. cbn [open_session calls view].
    rewrite Hf, Hl, Hrows. reflexivity.
  - rewrite <- (Forall2_length _ _ _ (scan_rows_Forall2 _ _ Hrows)), length_map_to_list.
    unfold t'. rewrite record_all_size.
    + rewrite Hnames, length_artifacts, map_size_empty. reflexivity.
    + now rewrite Hnames.
    + intros name _. apply lookup_empty.
  - intros p name data Hin. apply In_artifacts in Hin.
    apply (scan_rows_In _ _ (scan_rows_Forall2 _ _ Hrows)).
    apply elem_of_map_to_list. unfold t'.
    apply (record_all_unique _ _ p); [now rewrite Hnames|now apply Hfiles].
Qed.

Lemma GetAllMigrations_after_first_run_witness :
  exists rows,
    GetAllMigrations no_faults migrated_db = inr rows /\
    length rows = length (artifacts two_files) /\
    forall p name data, In (p, name, data) (artifacts two_files) ->
      In {| MigrationName := name; MigrationHash := hashFile data; IsApplied := true |} rows.
Proof.
  apply (GetAllMigrations_after_first_run demo_sql no_faults no_faults two_files
           empty_db migrated_db two_files_log).
  - left. reflexivity.
  - reflexivity.
  - reflexivity.
  - vm_compute. reflexivity.
  - reflexivity.
Defined.

(** X16: the test [should error when migration file changed], for any
    two trees: after a run that returned nil from an empty ledger over a
    tree of artifacts with distinct names, a run over a tree that holds a
    file of one of those names with content of another hash returns
    [ErrMigrationFileChanged], executes nothing, and leaves the database
    as the first run left it. *)
Theorem changed_file_fails_the_next_run {U : Type} (sql : string -> U -> string + U)
    (faults faults' : nat -> option string) (migrations changed : FS)
    (db db1 : Database U) (tr : list event)
    (p p' : path) (name : string) (data data' : list byte) :
  ledger db = None \/ ledger db = Some ∅ ->
  wf_fs migrations = true ->
  distinct (artifact_names migrations) = true ->
  Migrate sql faults migrations db = (None, db1, tr) ->
  In (p, name, data) (artifacts migrations) ->
  wf_fs changed = true ->
  In (p', name, data') (artifacts changed) ->
  hashFile data' <> hashFile data ->
  faults' 0 = None -> faults' 1 = None -> faults' 2 = None ->
  Migrate sql faults' changed db1 = (Some ErrMigrationFileChanged, db1, []).
Proof.
  intros Hempty Hwf Hnd H Hin Hwf' Hin' Hne F0 F1 F2.
  destruct (Migrate_success sql faults migrations db db1 tr Hwf H)
    as (known & Hscan & Hl & _).
  assert (Ht0 : default (∅ : table) (ledger db) = ∅)
    by (destruct Hempty as [-> | ->]; reflexivity).
  rewrite Ht0 in Hscan, Hl. rewrite map_to_list_empty in Hscan.
  inversion Hscan; subst known.
  destruct (filter_pending_nil (walkDir [] (root migrations))) as [Hnames Hfiles].
  apply distinct_NoDup in Hnd. rewrite artifact_names_file_names in Hnd.
  apply In_artifacts in Hin.
  apply (Migrate_altered sql faults' changed db1 _ p' name data' (hashFile data) true
           F0 F1 F2 Hl); [|exact Hin'|exact Hwf'|exact Hne].
  apply (record_all_unique _ _ p); [now rewrite Hnames|now apply Hfiles].
Qed.

Lemma changed_file_fails_the_next_run_witness :
  Migrate demo_sql no_faults two_files_changed migrated_db
  = (Some ErrMigrationFileChanged, migrated_db, []).
Proof.
  apply (changed_file_fails_the_next_run demo_sql no_faults no_faults two_files
           two_files_changed empty_db migrated_db two_files_log
           ["migrations"; "001_init.sql"] ["migrations"; "001_init.sql"] "001_init.sql"
           (bytes "CREATE TABLE t(id int);") (bytes "CREATE TABLE t(id bigint);")).
  - left. reflexivity.
  - reflexivity.
  - reflexivity.
  - vm_compute. reflexivity.
  - vm_compute. left. reflexivity.
  - reflexivity.
  - vm_compute. left. reflexivity.
  - vm_compute. discriminate.
  - reflexivity.
  - reflexivity.
  - reflexivity.
Defined.

(** ** When a run succeeds *)

Section LivenessFacts.

Context {U : Type}.
Variable sql : string -> U -> string + U.
Variable faults : nat -> option string.
Hypothesis no_fault : forall k, faults k = None.

Lemma handle_entry_runs migrations known p name data (tx : Session U) (t : table) u :
  pending known (File name data) = true ->
  ReadFile migrations p = inr data ->
  ledger (view tx) = Some t ->
  sql (string_of_list_byte data) (schema (view tx)) = inr u ->
  exists tx',
    handle_entry sql faults migrations known p (File name data) None tx = (None, tx') /\
    view tx' = {| ledger := Some (<[name := applied_row data]> t); schema := u |} /\
    log tx' = log tx ++ events_of (p, File name data) /\
    committed tx' = committed tx /\ done_ tx' = done_ tx.
Proof.
  intros Hp Hread Hl Hsql. rewrite (handle_entry_pending _ _ _ _ _ _ _ _ Hp Hread).
  unfold tx_Exec_script, upsertMigration, tx_Exec_upsert, call.
  rewrite no_fault, Hsql. cbn [note calls view ledger schema committed done_ log].
  rewrite no_fault, Hl. eexists. split; [reflexivity|].
  cbn [note calls view ledger schema committed done_ log MigrationName MigrationHash
       IsApplied events_of fst snd].
  rewrite <- List.app_assoc. auto.
Qed.

Lemma walk_handle_runs migrations known visits :
  (forall p name data, In (p, File name data) visits -> ReadFile migrations p = inr data) ->
  forall (tx : Session U) (t : table) u',
    ledger (view tx) = Some t ->
    run_scripts sql
      (List.map script_of (List.filter (fun v => pending known (snd v)) visits))
      (schema (view tx)) = inr u' ->
    exists tx',
      walk (handle_entry sql faults migrations known) visits tx = (None, tx') /\
      view tx'
      = {| ledger := Some (record_all
                             (List.filter (fun v => pending known (snd v)) visits) t);
           schema := u' |} /\
      log tx'
      = log tx ++ List.flat_map events_of
                    (List.filter (fun v => pending known (snd v)) visits) /\
      committed tx' = committed tx /\ done_ tx' = done_ tx.
Proof.
  induction visits as [|[p d] rest IH]; intros Hread tx t u' Hl Hrun.
  - exists tx. cbn in Hrun |- *. inversion Hrun as [Hu].
    rewrite List.app_nil_r. destruct (view tx) as [l u]. cbn in Hl |- *. now rewrite Hl.
  - cbn [walk]. cbn [List.filter snd] in Hrun |- *. destruct (pending known d) eqn:Hp.
    + destruct d as [name data|name entries]; [|discriminate].
      cbn [List.map run_scripts script_of snd] in Hrun.
      destruct (sql (string_of_list_byte data) (schema (view tx))) as [e|u] eqn:Hsql;
        [discriminate|].
      destruct (handle_entry_runs migrations known p name data tx t u Hp
                  (Hread p name data (or_introl eq_refl)) Hl Hsql)
        as (s1 & -> & Hv1 & Hlog1 & Hc1 & Hd1).
      destruct (IH (fun q n b Hin => Hread q n b (or_intror Hin)) s1
                  (<[name := applied_row data]> t) u') as (tx' & -> & Hv & Hlog & Hc & Hd).
      { now rewrite Hv1. }
      { now rewrite Hv1. }
      exists tx'. split; [reflexivity|]. split; [exact Hv|].
      split; [|split; congruence].
      rewrite Hlog, Hlog1. cbn [List.flat_map]. now rewrite <- List.app_assoc.
    + rewrite (handle_entry_skip _ _ _ _ _ _ _ Hp).
      exact (IH (fun q n b Hin => Hread q n b (or_intror Hin)) tx t u' Hl Hrun).
Qed.

(** X17: when a run returns nil.  With a server that answers every call,
    a well-formed tree, a ledger without NULLs in which every record of a
    file of the tree holds the hash of that file, and pending scripts
    that all succeed when run in walk order, [Migrate] returns nil; it
    commits the schema those scripts lead to and the ledger with their
    rows upserted, and logs one execution and one upsert a pending file. *)
Theorem Migrate_returns_nil (migrations : FS) (db : Database U) (u' : U) :
  let t0 := default (∅ : table) (ledger db) in
  let todo := pending_files (known_of t0) migrations in
  wf_fs migrations = true ->
  (forall name v, t0 !! name = Some v -> exists h a, v = (Some h, Some a)) ->
  (forall p name data h a, In (p, name, data) (artifacts migrations) ->
     t0 !! name = Some (Some h, Some a) -> h = hashFile data) ->
  run_scripts sql (List.map script_of todo) (schema db) = inr u' ->
  Migrate sql faults migrations db
  = (None, {| ledger := Some (record_all todo t0); schema := u' |},
     List.flat_map events_of todo).
Proof.
  cbn zeta. intros Hwf Hrows Hall Hrun.
  set (t0 := default (∅ : table) (ledger db)) in *.
  destruct (scan_rows_total (map_to_list t0)) as [known Hscan].
  { intros [n v] Hin. apply list_elem_of_In, elem_of_map_to_list in Hin.
    cbn. eauto. }
  assert (Hk : known_of t0 = known) by (unfold known_of; now rewrite Hscan).
  rewrite Hk in *. unfold pending_files in *.
  unfold Migrate, Migrate_session, db_Conn, conn_BeginTx, call.
  cbn [open_session calls view]. rewrite !no_fault.
  cbn [committed view done_ calls log]. unfold Migrate_tx, WalkDir.
  unfold tx_Exec_migrationTableQuery, call. rewrite no_fault.
  cbn [committed view done_ calls log ledger schema]. fold t0.
  unfold checkIfMigrationsAreAltered.
  match goal with |- context [getMigrationsKnownToDb faults ?s] =>
    destruct (getMigrationsKnownToDb_runs faults no_fault s t0 known eq_refl Hscan)
      as (s2 & -> & Hv2 & Hl2 & Hc2 & Hd2) end.
  rewrite walk_check_passes.
  2:{ intros p name data Hin. split; [exact (ReadFile_walk _ _ _ _ Hwf Hin)|].
      intros migration Hfind. rewrite (known_lookup t0 known name Hscan) in Hfind.
      destruct (t0 !! name) as [v|] eqn:Hv; [|discriminate].
      destruct (Hrows _ _ Hv) as (h & a & ->). cbn in Hfind. inversion Hfind. cbn.
      apply (Hall p name data h a); [now apply In_artifacts|exact Hv]. }
  unfold handleMigration.
  destruct (getMigrationsKnownToDb_runs faults no_fault s2 t0 known) as
    (s3 & -> & Hv3 & Hl3 & Hc3 & Hd3); [now rewrite Hv2|exact Hscan|].
  destruct (walk_handle_runs migrations known (walkDir [] (root migrations))
              (fun p n b Hin => ReadFile_walk migrations p n b Hwf Hin) s3 t0 u')
    as (s4 & -> & Hv4 & Hl4 & Hc4 & Hd4).
  { now rewrite Hv3, Hv2. }
  { now rewrite Hv3, Hv2. }
  unfold tx_Commit, tx_Rollback. rewrite no_fault.
  cbn [committed view done_ calls log]. rewrite Hv4, Hl4, Hl3, Hl2. reflexivity.
Qed.

End LivenessFacts.

Lemma Migrate_returns_nil_witness :
  Migrate demo_sql no_faults two_files mixed_db
  = (None,
     {| ledger := Some (record_all
                          (pending_files (known_of (default ∅ (ledger mixed_db))) two_files)
                          (default ∅ (ledger mixed_db)));
        schema := ["CREATE TABLE t(id int);"; "INSERT INTO t VALUES (1);"] |},
     List.flat_map events_of
       (pending_files (known_of (default ∅ (ledger mixed_db))) two_files)).
Proof.
  apply (Migrate_returns_nil demo_sql no_faults (fun k => eq_refl) two_files mixed_db).
  - reflexivity.
  - intros name v Hv. change (mixed_ledger !! name = Some v) in Hv.
    unfold mixed_ledger in Hv.
    destruct (decide ("001_init.sql" = name)) as [<-|Hne].
    { rewrite lookup_insert_eq in Hv. inversion Hv. unfold applied_row. eauto. }
    rewrite lookup_insert_ne in Hv by exact Hne.
    destruct (decide ("002_seed.sql" = name)) as [<-|Hne2].
    { rewrite lookup_insert_eq in Hv. inversion Hv. eauto. }
    rewrite lookup_insert_ne in Hv by exact Hne2.
    rewrite lookup_empty in Hv. discriminate.
  - intros p name data h a Hin Hv. change (mixed_ledger !! name = Some (Some h, Some a)) in Hv.
    unfold mixed_ledger in Hv.
    assert (Hcases : (name = "001_init.sql" /\ data = bytes "CREATE TABLE t(id int);") \/
                     (name = "002_seed.sql" /\ data = bytes "INSERT INTO t VALUES (1);")).
    { destruct Hin as [Hin|[Hin|[]]]; inversion Hin; [left|right]; split; reflexivity. }
    destruct Hcases as [[-> ->]|[-> ->]].
    + rewrite lookup_insert_eq in Hv. inversion Hv. reflexivity.
    + rewrite lookup_insert_ne in Hv by discriminate.
      rewrite lookup_insert_eq in Hv. inversion Hv. reflexivity.
  - vm_compute. reflexivity.
Defined.

(** ** The package-level [Migrate] of [migrate/migrate.go] *)

Section StandaloneFacts.

Context {U : Type}.
Variable sql : string -> U -> string + U.
Variable faults : nat -> option string.







(** X19: where the two differ.  In the package-level [Migrate], past the
    table query and with the ledger read, an altered file is reported by
    name: when some file of a well-formed tree has a record whose hash
    differs from the hash of the file, the error is
    [validate migrations: migration NAME has been altered], where NAME is
    the first file in path order whose hash differs from its record;
    nothing is executed and the database is left as it was. *)
Theorem Standalone_Migrate_names_the_altered_file (migrations : FS) (db : Database U)
    (t : table) (p : path) (name : string) (data : list byte) (h : string) (a : bool) :
  faults 0 = None -> faults 1 = None -> faults 2 = None -> faults 3 = None ->
  ledger db = Some t ->
  (forall name v, t !! name = Some v -> exists h a, v = (Some h, Some a)) ->
  wf_fs migrations = true ->
  In (p, name, data) (artifacts migrations) ->
  t !! name = Some (Some h, Some a) ->
  hashFile data <> h ->
  exists p1 name1 data1 h1 a1,
    In (p1, name1, data1) (artifacts migrations) /\
    t !! name1 = Some (Some h1, Some a1) /\
    hashFile data1 <> h1 /\
    (forall p0 name0 data0 h0 a0, In (p0, name0, data0) (artifacts migrations) ->
       path_lt p0 p1 -> t !! name0 = Some (Some h0, Some a0) -> hashFile data0 = h0) /\
    Standalone.Migrate sql faults migrations db
    = (Some (Errorf "validate migrations: %w"
               [W (Errorf "migration %q has been altered" [Q name1])]), db, []).
Proof.
  intros F0 F1 F2 F3 Hl Hrows Hwf Hin Ht Hne.
  destruct (scan_rows_total (map_to_list t)) as [known Hscan].
  { intros [n v] Hv. apply list_elem_of_In, elem_of_map_to_list in Hv. cbn. eauto. }
  assert (Hfind : forall n h' a', t !! n = Some (Some h', Some a') ->
            findMigrationByName known n
            = ({| MigrationName := n; MigrationHash := h'; IsApplied := a' |}, true)).
  { intros n h' a' Hn. rewrite (known_lookup t known n Hscan), Hn. reflexivity. }
  assert (Hback : forall n m, findMigrationByName known n = (m, true) ->
            exists a', t !! n = Some (Some (MigrationHash m), Some a')).
  { intros n m Hn. rewrite (known_lookup t known n Hscan) in Hn.
    destruct (t !! n) as [v|] eqn:Hv; [|discriminate].
    destruct (Hrows _ _ Hv) as (h' & a' & ->). cbn in Hn. inversion Hn. cbn. eauto. }
  unfold Standalone.Migrate, Standalone.Migrate_session, db_Conn, conn_BeginTx, call.
  cbn [open_session calls view]. rewrite F0. cbn [committed view done_ calls log].
  rewrite F1. cbn [committed view done_ calls log].
  unfold Standalone.Migrate_tx, tx_Exec_migrationTableQuery, call.
  cbn [committed view done_ calls log]. rewrite F2, Hl.
  unfold checkIfMigrationsAreAltered, getMigrationsKnownToDb, tx_Query_migrations, call.
  cbn [committed view done_ calls log ledger default from_option id]. rewrite F3, Hscan.
  match goal with |- context [WalkDir migrations (check_entry migrations known) ?s] =>
    pose proof (check_walk_verdict migrations known s Hwf) as Hverdict;
    destruct (WalkDir migrations (check_entry migrations known) s) as [[e|] s'] end.
  - destruct Hverdict as (-> & p1 & name1 & data1 & m & Hin1 & Hf1 & Hne1 & -> & Hfirst).
    destruct (Hback _ _ Hf1) as [a1 Ht1].
    exists p1, name1, data1, (MigrationHash m), a1.
    split; [exact Hin1|]. split; [exact Ht1|]. split; [congruence|]. split.
    + intros p0 name0 data0 h0 a0 Hin0 Hlt Ht0.
      symmetry. exact (Hfirst p0 name0 data0 _ Hin0 Hlt (Hfind _ _ _ Ht0)).
    + reflexivity.
  - destruct Hverdict as [_ Hall]. exfalso. apply Hne. symmetry.
    exact (Hall p name data _ Hin (Hfind _ _ _ Ht)).
Qed.

End StandaloneFacts.

Lemma Standalone_Migrate_names_the_altered_file_witness :
  exists p1 name1 data1 h1 a1,
    In (p1, name1, data1) (artifacts two_files_changed) /\
    migrated_ledger !! name1 = Some (Some h1, Some a1) /\
    hashFile data1 <> h1 /\
    (forall p0 name0 data0 h0 a0, In (p0, name0, data0) (artifacts two_files_changed) ->
       path_lt p0 p1 -> migrated_ledger !! name0 = Some (Some h0, Some a0) ->
       hashFile data0 = h0) /\
    Standalone.Migrate demo_sql no_faults two_files_changed migrated_db
    = (Some (Errorf "validate migrations: %w"
               [W (Errorf "migration %q has been altered" [Q name1])]), migrated_db, []).
Proof.
  apply (Standalone_Migrate_names_the_altered_file demo_sql no_faults two_files_changed
           migrated_db migrated_ledger ["migrations"; "001_init.sql"] "001_init.sql"
           (bytes "CREATE TABLE t(id bigint);")
           (hashFile (bytes "CREATE TABLE t(id int);")) true).
  - reflexivity.
  - reflexivity.
  - reflexivity.
  - reflexivity.
  - reflexivity.
  - intros name v Hv. unfold migrated_ledger in Hv.
    destruct (decide ("001_init.sql" = name)) as [<-|Hne].
    { rewrite lookup_insert_eq in Hv. inversion Hv. unfold applied_row. eauto. }
    rewrite lookup_insert_ne in Hv by exact Hne.
    destruct (decide ("002_seed.sql" = name)) as [<-|Hne2].
    { rewrite lookup_insert_eq in Hv. inversion Hv. unfold applied_row. eauto. }
    rewrite lookup_insert_ne in Hv by exact Hne2.
    rewrite lookup_empty in Hv. discriminate.
  - reflexivity.
  - vm_compute. left. reflexivity.
  - vm_compute. reflexivity.
  - vm_compute. discriminate.
Defined.
